(** * EarthMapper [utils/utils.py]: a shallow embedding and its properties

    The module is a collection of independent helpers for hyperspectral
    imagery: band resampling, Hyperion cube assembly, random patch
    extraction (with and without a validity mask), class weights and a
    per-class train/test split.

    Conventions of the embedding.
    - A NumPy array is a nested list in row-major order; a 2-D array is a
      [list (list A)], a cube a [list (list (list A))].
    - A Python exception is [None]; a normal return is [Some].
    - Floating-point values that the code inspects for infinities and
      not-a-number are values of [Float.t]: a real number or one of the
      three special values, with the IEEE rules for the special values and
      exact arithmetic on the finite ones (rounding is not modelled).
    - Random draws are an explicit argument: a stream [nat -> nat] of raw
      draws, consumed in order. *)

From Stdlib Require Import ZArith QArith Qround Reals Lra Lia.
From stdpp Require Import base tactics numbers option strings pretty sorting gmap list.

(** ** Floating-point values with their special cases *)

Module Float.

Inductive t : Type :=
| Fin (x : R)
| PInf
| NInf
| NaN.

Definition of_Z (n : Z) : t := Fin (IZR n).

(** [a / b] on two integers, as NumPy's true division computes it:
    [x/0] is [+inf] or [-inf] by the sign of [x], and [0/0] is NaN. *)
Definition true_divide (a b : Z) : t :=
  if decide (b = 0%Z) then
    if decide (a = 0%Z) then NaN
    else if decide (0 < a)%Z then PInf else NInf
  else Fin (IZR a / IZR b).

Definition isinf (x : t) : bool :=
  match x with PInf | NInf => true | _ => false end.

Definition isnan (x : t) : bool :=
  match x with NaN => true | _ => false end.

(** [np.log]: [log 0 = -inf], the logarithm of a negative number is NaN. *)
Definition log (x : t) : t :=
  match x with
  | Fin r => if Rlt_dec 0 r then Fin (ln r)
             else if Req_dec_T r 0 then NInf else NaN
  | PInf => PInf
  | NInf => NaN
  | NaN => NaN
  end.

(** The sign of an infinity times a finite factor; zero times an
    infinity is NaN. *)
Definition scale_inf (x : R) (pos : bool) : t :=
  if Rlt_dec 0 x then (if pos then PInf else NInf)
  else if Rlt_dec x 0 then (if pos then NInf else PInf)
  else NaN.

Definition mul (a b : t) : t :=
  match a, b with
  | NaN, _ | _, NaN => NaN
  | Fin x, Fin y => Fin (x * y)
  | Fin x, PInf | PInf, Fin x => scale_inf x true
  | Fin x, NInf | NInf, Fin x => scale_inf x false
  | PInf, PInf | NInf, NInf => PInf
  | PInf, NInf | NInf, PInf => NInf
  end.

(** [a < b] as a float comparison: false as soon as one side is NaN. *)
Definition ltb (a b : t) : bool :=
  match a, b with
  | NaN, _ | _, NaN => false
  | Fin x, Fin y => if Rlt_dec x y then true else false
  | NInf, NInf => false
  | NInf, _ => true
  | _, NInf => false
  | PInf, _ => false
  | Fin _, PInf => true
  end.

(** [a <= b] as a proposition; it never holds of NaN. *)
Definition le (a b : t) : Prop :=
  match a, b with
  | NaN, _ | _, NaN => False
  | Fin x, Fin y => (x <= y)%R
  | NInf, _ => True
  | _, PInf => True
  | PInf, _ => False
  | Fin _, NInf => False
  end.

Definition one : t := Fin 1.
Definition zero : t := Fin 0.

End Float.

(** ** Class weights ([class_weights]) *)

(** [np.max(labels)]: raises on an empty array. *)
Definition amax (labels : list Z) : option Z :=
  match labels with
  | [] => None
  | x :: l => Some (foldr Z.max x l)
  end.

(** number of samples carrying label [c] *)
Definition count_label (c : Z) (labels : list Z) : nat :=
  length (filter (λ x, x = c) labels).

(** [np.bincount(labels, minlength)]: one counter per value in
    [0 .. max(minlength, max(labels)+1)); raises on a negative label or a
    negative [minlength]. *)
Definition bincount (labels : list Z) (minlength : Z) : option (list Z) :=
  if forallb (λ x, 0 <=? x)%Z labels && (0 <=? minlength)%Z then
    let top := match amax labels with Some m => (m + 1)%Z | None => 0%Z end in
    let n := Z.to_nat (Z.max minlength top) in
    Some ((λ c, Z.of_nat (count_label (Z.of_nat c) labels)) <$> seq 0 n)
  else None.

Definition sumZ (l : list Z) : Z := foldr Z.add 0%Z l.

(** The ratio [total / count] per class after the guard
    [class_weights[np.isinf(class_weights)] = 0]. *)
Definition guarded_ratio (counts : list Z) : list Float.t :=
  let ratio := Float.true_divide (sumZ counts) <$> counts in
  (λ x, if Float.isinf x then Float.zero else x) <$> ratio.

(** [class_weights[class_weights < 1] = 1] *)
Definition clamp_below_one (w : list Float.t) : list Float.t :=
  (λ x, if Float.ltb x Float.one then Float.one else x) <$> w.

Definition class_weights (labels : list Z) (mu : Float.t)
    (numClasses : option Z) : option (list Float.t) :=
  numClasses ← match numClasses with
               | Some n => Some n
               | None => (λ m, (m + 1)%Z) <$> amax labels
               end;
  counts ← bincount labels numClasses;
  let w := guarded_ratio counts in
  let w := (λ x, Float.mul mu (Float.log x)) <$> w in
  Some (clamp_below_one w).

(** The first claim on absent classes, as the specification words it. *)
Definition absent_class_weight_is_zero : Prop :=
  ∀ labels mu numClasses w (c : nat),
    class_weights labels mu numClasses = Some w →
    c < length w →
    count_label (Z.of_nat c) labels = 0 →
    w !! c = Some Float.zero.

(** The clamp claim, as the specification words it. *)
Definition every_weight_at_least_one : Prop :=
  ∀ labels mu numClasses w x,
    class_weights labels mu numClasses = Some w →
    x ∈ w →
    Float.le Float.one x.

(** ** Arrays as nested lists *)

(** [for i in l: s = body i s], stopping at the first exception *)
Fixpoint for_each {S : Type} (body : nat → S → option S) (l : list nat)
    (s : S) : option S :=
  match l with
  | [] => Some s
  | i :: l' => s' ← body i s; for_each body l' s'
  end.

(** [m[i, j]] *)
Definition get2 {A : Type} (m : list (list A)) (i j : nat) : option A :=
  row ← m !! i; row !! j.

(** [m.shape[0]] and [m.shape[1]] of a 2-D (or higher) array.  An array
    without rows carries no column count here; no function below looks at
    the columns of such an array. *)
Definition nrows {A : Type} (m : list (list A)) : nat := length m.
Definition ncols {A : Type} (m : list (list A)) : nat :=
  from_option length 0 (head m).

(** a NumPy array is rectangular *)
Definition rect {A : Type} (r c : nat) (m : list (list A)) : Prop :=
  length m = r ∧ Forall (λ row, length row = c) m.

(** [np.zeros(m.shape[:2])] *)
Definition zeros_like {A : Type} (m : list (list A)) : list (list nat) :=
  (λ row, replicate (length row) 0) <$> m.

(** [m[i:i+h, j:j+w]] for non-negative bounds: the slice is clipped at the
    end of each axis. *)
Definition crop {A : Type} (m : list (list A)) (i j h w : nat)
    : list (list A) :=
  (λ row, take w (drop j row)) <$> take h (drop i m).

(** [np.all] of a boolean 2-D array *)
Definition np_all (m : list (list bool)) : bool := forallb (forallb (λ b : bool, b)) m.

(** [np.argwhere(v > 0)]: the coordinates of the positive cells, row by
    row. *)
Definition argwhere (v : list (list nat)) : list (nat * nat) :=
  i ← seq 0 (length v);
  j ← seq 0 (from_option length 0 (v !! i));
  match get2 v i j with
  | Some x => if decide (0 < x) then [(i, j)] else []
  | None => []
  end.

(** Assigning an array to a slot of another: each axis of the value must
    have the length of the slot or length 1, which NumPy repeats. *)
Definition broadcast_axis {A : Type} (n : nat) (l : list A)
    : option (list A) :=
  if decide (length l = n) then Some l
  else match l with
       | [x] => Some (replicate n x)
       | _ => None
       end.

Definition broadcast_to {A : Type} (h w : nat) (m : list (list A))
    : option (list (list A)) :=
  rows ← broadcast_axis h m; mapM (broadcast_axis w) rows.

(** ** Sampling without replacement ([random.sample]) *)

(** The selection loop of [random.sample]: draw a position [j] below the
    number of remaining candidates, emit [pool[j]], move the last remaining
    candidate into slot [j].  [rnd] is the stream of raw draws. *)
Fixpoint sample_pool (pool : list nat) (k : nat) (rnd : nat → nat)
    : list nat :=
  match k with
  | 0 => []
  | S k' =>
      let n := length pool in
      let j := rnd 0 `mod` n in
      match pool !! j, last pool with
      | Some x, Some y =>
          x :: sample_pool (take (n - 1) (<[j:=y]> pool)) k' (λ i, rnd (S i))
      | _, _ => []
      end
  end.

(** [sample(population, k)] raises when the sample is larger than the
    population. *)
Definition sample (population : list nat) (k : nat) (rnd : nat → nat)
    : option (list nat) :=
  if decide (k ≤ length population) then Some (sample_pool population k rnd)
  else None.

(** [idx[np.array(sample(range(idx.shape[0]), num))]].  With [num = 0] the
    index array is the empty float array [np.array([])], which NumPy
    refuses as an index. *)
Definition sample_rows {A : Type} (idx : list A) (num : nat)
    (rnd : nat → nat) : option (list A) :=
  picks ← sample (seq 0 (length idx)) num rnd;
  if decide (num = 0) then None else mapM (λ s, idx !! s) picks.

(** ** Patch extraction *)

(** [valid[i, j] += 1] on a [uint8] array; an index out of range raises. *)
Definition incr_at (v : list (list nat)) (i j : nat)
    : option (list (list nat)) :=
  row ← v !! i;
  x ← row !! j;
  Some (<[i := <[j := (x + 1) `mod` 256]> row]> v).

(** The validity scan of [patch_extractor_with_mask]: the two nested loops
    over [range(0, sh[0]-patch_size)] and [range(0, sh[1]-patch_size)]. *)
Definition find_valid {A : Type} (data : list (list A))
    (mask : list (list bool)) (patch_size : nat)
    : option (list (list nat)) :=
  for_each
    (λ i, for_each
            (λ j valid,
               if np_all (crop mask i j patch_size patch_size)
               then incr_at valid i j else Some valid)
            (seq 0 (ncols data - patch_size)))
    (seq 0 (nrows data - patch_size))
    (zeros_like mask).

(** The candidate anchors of the masked extractor: [np.argwhere(valid > 0)]. *)
Definition valid_anchors {A : Type} (data : list (list A))
    (mask : list (list bool)) (patch_size : nat)
    : option (list (nat * nat)) :=
  argwhere <$> find_valid data mask patch_size.

(** The anchors drawn by the masked extractor. *)
Definition sampled_anchors {A : Type} (data : list (list A))
    (mask : list (list bool)) (num_patches patch_size : nat)
    (rnd : nat → nat) : option (list (nat * nat)) :=
  idx ← valid_anchors data mask patch_size;
  sample_rows idx num_patches rnd.

(** The copy loop shared by both extractors:
    [patch_arr[i] = data[a:a+patch_size, b:b+patch_size]]. *)
Definition copy_patches {A : Type} (data : list (list A)) (patch_size : nat)
    (idx : list (nat * nat)) (num_patches : nat)
    (patch_arr : list (list (list A))) : option (list (list (list A))) :=
  for_each
    (λ i arr,
       '(a, b) ← idx !! i;
       patch ← broadcast_to patch_size patch_size
                  (crop data a b patch_size patch_size);
       Some (<[i:=patch]> arr))
    (seq 0 num_patches) patch_arr.

(** [patch_extractor_with_mask(data, mask, num_patches, patch_size)].  A
    cell of [data] is a pixel, the vector of its channels; [zero] is the
    all-zero pixel [np.zeros] fills [patch_arr] with. *)
Definition patch_extractor_with_mask {A : Type} (zero : A)
    (data : list (list A)) (mask : list (list bool))
    (num_patches patch_size : nat) (rnd : nat → nat)
    : option (list (list (list A))) :=
  let patch_arr :=
    replicate num_patches (replicate patch_size (replicate patch_size zero)) in
  idx ← sampled_anchors data mask num_patches patch_size rnd;
  copy_patches data patch_size idx num_patches patch_arr.

(** The end of a slice [0:stop] on an axis of length [len]: a negative
    [stop] counts from the end of the axis. *)
Definition slice_stop (len : nat) (stop : Z) : nat :=
  if decide (stop < 0)%Z then Z.to_nat (stop + Z.of_nat len)
  else Z.to_nat stop `min` len.

(** [valid[0:r, 0:c] = 1] *)
Definition fill_ones (r c : nat) (v : list (list nat)) : list (list nat) :=
  ((λ row, replicate (c `min` length row) 1 ++ drop c row) <$> take r v)
  ++ drop r v.

(** The candidate anchors of [patch_extractor]. *)
Definition valid_anchors_unmasked {A : Type} (data : list (list A))
    (patch_size : nat) : list (nat * nat) :=
  let r := slice_stop (nrows data)
             (Z.of_nat (nrows data) - Z.of_nat patch_size) in
  let c := slice_stop (ncols data)
             (Z.of_nat (ncols data) - Z.of_nat patch_size) in
  argwhere (fill_ones r c (zeros_like data)).

Definition sampled_anchors_unmasked {A : Type} (data : list (list A))
    (num_patches patch_size : nat) (rnd : nat → nat)
    : option (list (nat * nat)) :=
  sample_rows (valid_anchors_unmasked data patch_size) num_patches rnd.

(** [patch_extractor(data, num_patches, patch_size)] *)
Definition patch_extractor {A : Type} (zero : A) (data : list (list A))
    (num_patches patch_size : nat) (rnd : nat → nat)
    : option (list (list (list A))) :=
  let patch_arr :=
    replicate num_patches (replicate patch_size (replicate patch_size zero)) in
  idx ← sampled_anchors_unmasked data num_patches patch_size rnd;
  copy_patches data patch_size idx num_patches patch_arr.

(** The effect of one [+= 1] on a [uint8] cell, when it applies. *)
Definition bump (b : bool) (x : nat) : nat :=
  if b then (x + 1) `mod` 256 else x.

(** a mask without a single valid pixel *)
Definition fully_false (mask : list (list bool)) : Prop :=
  Forall (Forall (λ b, b = false)) mask.

(** The example of the specification, read for every patch size: on a
    fully-false mask a request for one patch fails. *)
Definition fully_false_mask_fails : Prop :=
  ∀ (A : Type) (zero : A) (data : list (list A)) mask patch_size rnd,
    fully_false mask →
    patch_extractor_with_mask zero data mask 1 patch_size rnd = None.

(** ** Band resampling ([band_resample_hsi_cube]) *)

(** The resampler reshapes its cube to [(-1, bands)] and back, so here a
    cube is kept the way NumPy keeps it: the shape and the row-major
    sequence of pixel spectra. *)
Record cube (V : Type) : Type := Cube {
  height : nat;
  width : nat;
  bands : nat;
  pixels : list (list V)
}.
Arguments Cube {V}.
Arguments height {V}.
Arguments width {V}.
Arguments bands {V}.
Arguments pixels {V}.

Definition wf_cube {V : Type} (c : cube V) : Prop :=
  rect (height c * width c) (bands c) (pixels c).

(** [c[r, col, :]] *)
Definition spectrum_at {V : Type} (c : cube V) (r col : nat)
    : option (list V) :=
  if decide (col < width c) then pixels c !! (r * width c + col) else None.

(** [rows[mask]] for a boolean [mask] *)
Fixpoint select_masked {A : Type} (mask : list bool) (rows : list A)
    : list A :=
  match mask, rows with
  | b :: mask', x :: rows' =>
      if b then x :: select_masked mask' rows' else select_masked mask' rows'
  | _, _ => []
  end.

(** [out[mask] = vals]: the rows of [vals] go, in order, to the rows of
    [out] the mask selects. *)
Fixpoint assign_masked {A : Type} (mask : list bool) (out vals : list A)
    : list A :=
  match mask, out with
  | true :: mask', x :: out' =>
      match vals with
      | v :: vals' => v :: assign_masked mask' out' vals'
      | [] => x :: assign_masked mask' out' []
      end
  | false :: mask', x :: out' => x :: assign_masked mask' out' vals
  | _, _ => out
  end.

(** [n] consecutive chunks of length [k] *)
Fixpoint chunks {A : Type} (k n : nat) (l : list A) : list (list A) :=
  match n with
  | 0 => []
  | S n' => take k l :: chunks k n' (drop k l)
  end.

(** number of scalars in a 2-D array *)
Definition size2 {A : Type} (m : list (list A)) : nat := length (concat m).

Section resample.

Context {V : Type}.

(** The arithmetic of the array's element type. *)
Variable zero : V.
Variable add : V → V → V.
Variable mul : V → V → V.
Variable isnan : V → bool.

(** [spectral.BandResampler(bands1, bands2, fwhm1, fwhm2).matrix]: the
    library's resampling matrix, one row per target band; [None] when the
    library refuses the configuration. *)
Variable BandResampler :
  list V → list V → list V → list V → option (list (list V)).

Definition dot (w x : list V) : V := foldr add zero (zip_with mul w x).

(** [matrix.dot(pixels.T).T] for [pixels] of shape [(n, nbands)]: raises
    when the rows of the matrix do not have [nbands] entries. *)
Definition matmul (matrix : list (list V)) (nbands : nat)
    (pixels : list (list V)) : option (list (list V)) :=
  if decide (Forall (λ row, length row = nbands) matrix)
  then Some ((λ px, (λ row, dot row px) <$> matrix) <$> pixels)
  else None.

(** [out[np.isnan(out)] = 0] *)
Definition nan_to_zero (out : list (list V)) : list (list V) :=
  (λ px : list V, (λ x, if isnan x then zero else x) <$> px) <$> out.

(** [out.reshape((h, w, k))] of a 2-D array *)
Definition reshape3 (out : list (list V)) (h w k : nat) : option (cube V) :=
  if decide (size2 out = h * w * k)
  then Some (Cube h w k (chunks k (h * w) (concat out)))
  else None.

Definition band_resample_hsi_cube (data : cube V)
    (bands1 bands2 fwhm1 fwhm2 : list V)
    (mask : option (list (list bool))) : option (cube V) :=
  matrix ← BandResampler bands1 bands2 fwhm1 fwhm2;
  (* data.reshape((-1, dataSize[2])) cannot infer -1 next to a 0 *)
  if decide (bands data = 0) then None else
  let flat := pixels data in
  out ← match mask with
         | None => matmul matrix (bands data) flat
         | Some mask =>
             let out :=
               replicate (length flat) (replicate (length bands2) zero) in
             let mask := concat mask in
             if decide (length mask = length flat) then
               vals ← matmul matrix (bands data) (select_masked mask flat);
               vals ← mapM (broadcast_axis (length bands2)) vals;
               Some (assign_masked mask out vals)
             else None
         end;
  reshape3 (nan_to_zero out) (height data) (width data) (length bands2).

End resample.

(** A resampler for the examples: each target band copies the source band
    with the same center. *)
Definition nearest_band_matrix (b1 b2 _ _ : list Z)
    : option (list (list Z)) :=
  Some ((λ c2, (λ c1, if decide (c1 = c2) then 1 else 0)%Z <$> b1) <$> b2).

Definition demo_cube : cube Z :=
  Cube 2 2 3 [[1; 2; 3]; [4; 5; 6]; [7; 8; 9]; [10; 11; 12]]%Z.

(** ** Hyperion cube assembly ([read_hyperion_HSI_data]) *)

(** What [gdal.Open(name).ReadAsArray()] reads from a single-band file. *)
Definition raster : Type := list (list Z).

(** [np.hstack([np.arange(7,57), np.arange(76,224)])] *)
Definition calIdx : list nat := seq 7 50 ++ seq 76 148.

(** the order of [sorted] on file names *)
Definition name_le (f g : string * raster) : Prop := String.leb f.1 g.1.

(** [sorted(glob(fileDir + '/*.TIF'))], from the files the pattern matches *)
Definition sorted_files (files : list (string * raster))
    : list (string * raster) :=
  merge_sort name_le files.

Section hyperion.

Context {V : Type}.

(** The output [dtype]: its zero, the conversion of a raster sample into
    it, and its division by an integer constant. *)
Variable zero : V.
Variable cast : Z → V.
Variable divide : V → Z → V.

(** [data[:, :, i] = img] on a cube of [r] rows and [c] columns *)
Definition set_band (r c : nat) (data : list (list (list V))) (i : nat)
    (img : raster) : option (list (list (list V))) :=
  img' ← broadcast_to r c img;
  Some (zip_with (zip_with (λ px x, <[i:=cast x]> px)) data img').

(** [data[:, :, lo:hi] = data[:, :, lo:hi] / k] *)
Definition scale_bands (lo hi : nat) (k : Z) (data : list (list (list V)))
    : list (list (list V)) :=
  (λ row : list (list V),
     (λ px : list V,
        take lo px ++ ((λ x, divide x k) <$> take (hi - lo) (drop lo px))
        ++ drop hi px) <$> row) <$> data.

Definition read_hyperion_HSI_data (files : list (string * raster))
    : option (list (list (list V))) :=
  let dataFN := sorted_files files in
  i0 ← calIdx !! 0;
  '(_, tmp) ← dataFN !! i0;
  let r := nrows tmp in
  let c := ncols tmp in
  let data := replicate r (replicate c (replicate 198 zero)) in
  data ← set_band r c data 0 tmp;
  data ← for_each
            (λ i data,
               idx ← calIdx !! i;
               '(_, img) ← dataFN !! idx;
               set_band r c data i img)
            (seq 1 197) data;
  let data := scale_bands 0 50 40 data in
  let data := scale_bands 50 198 80 data in
  Some data.

End hyperion.

(** A directory for the examples: 242 single-pixel band files
    [EO1_B001_L1T.TIF] .. [EO1_B242_L1T.TIF], listed in reverse order; file
    [n] holds the sample [n].  The element type of the example keeps a
    sample next to the product of the constants it was divided by. *)
Definition digit (d : nat) : string :=
  String (Ascii.ascii_of_nat (48 + d)) EmptyString.

Definition band_file_name (n : nat) : string :=
  "EO1_B" +:+ digit (n `div` 100) +:+ digit ((n `div` 10) `mod` 10)
  +:+ digit (n `mod` 10) +:+ "_L1T.TIF".

Definition hyperion_demo_files : list (string * raster) :=
  (λ n, (band_file_name n, [[Z.of_nat n]])) <$> reverse (seq 1 242).

Definition hyperion_demo_cube : list (list (list (Z * Z))) :=
  Eval vm_compute in
    default [] (read_hyperion_HSI_data (0%Z, 1%Z) (λ x, (x, 1%Z))
                  (λ v k, (v.1, (v.2 * k)%Z)) hyperion_demo_files).

(** ** Per-class train/test split ([train_test_split_per_class]) *)

(** A split size as scikit-learn takes it: an absolute number of samples
    or a fraction of the samples. *)
Inductive split_size : Type :=
| Count (k : Z)
| Fraction (q : Q).

Definition size_ok (n : Z) (s : option split_size) : bool :=
  match s with
  | None => true
  | Some (Count k) => (0 <? k)%Z && (k <? n)%Z
  | Some (Fraction q) => negb (Qle_bool q 0) && negb (Qle_bool 1 q)
  end.

Definition fractions_ok (test_size train_size : option split_size) : bool :=
  match test_size, train_size with
  | Some (Fraction q1), Some (Fraction q2) => Qle_bool (q1 + q2) 1
  | _, _ => true
  end.

(** The number of samples a size stands for: a fraction of [n] is rounded
    by [round]. *)
Definition part_size (round : Q → Z) (n : Z) (s : split_size) : Z :=
  match s with
  | Count k => k
  | Fraction q => round (q * inject_Z n)%Q
  end.

(** The sizes of the two parts, as [sklearn.model_selection] derives them
    from [test_size] and [train_size] for [n_samples] samples: a fraction
    is rounded up for the test part and down for the train part, a missing
    size is the complement of the other, and both missing means a test
    fraction of 0.25.  Raises on sizes out of range, on parts that together
    exceed the samples and on an empty train part. *)
Definition validate_shuffle_split (n_samples : nat)
    (test_size train_size : option split_size) : option (nat * nat) :=
  let n := Z.of_nat n_samples in
  let test_size := match test_size, train_size with
                   | None, None => Some (Fraction (1 # 4))
                   | _, _ => test_size
                   end in
  if size_ok n test_size && size_ok n train_size
     && fractions_ok test_size train_size then
    let n_test := from_option (part_size Qceiling n) 0%Z test_size in
    let n_train :=
      from_option (part_size Qfloor n) (n - n_test)%Z train_size in
    let n_test := if test_size is None then (n - n_train)%Z else n_test in
    if (n <? n_train + n_test)%Z || (n_train =? 0)%Z then None
    else Some (Z.to_nat n_train, Z.to_nat n_test)
  else None.

(** [sklearn.model_selection.train_test_split(X, y, train_size=..,
    test_size=..)]: one random permutation of the sample indices, its first
    [n_test] entries index the test part and the next [n_train] the train
    part. *)
Definition train_test_split {A B : Type} (X : list A) (y : list B)
    (test_size train_size : option split_size) (rnd : nat → nat)
    : option (list A * list A * list B * list B) :=
  if decide (length X = length y) then
    '(n_train, n_test) ←
       validate_shuffle_split (length X) test_size train_size;
    let permutation := sample_pool (seq 0 (length X)) (length X) rnd in
    let ind_test := take n_test permutation in
    let ind_train := take n_train (drop n_test permutation) in
    X_train ← mapM (λ i, X !! i) ind_train;
    X_test ← mapM (λ i, X !! i) ind_test;
    y_train ← mapM (λ i, y !! i) ind_train;
    y_test ← mapM (λ i, y !! i) ind_test;
    Some (X_train, X_test, y_train, y_test)
  else None.

(** [train_test_split_per_class(X, y, train_size, test_size)]; [rnd i] is
    the stream of draws of the split of class [i]. *)
Definition train_test_split_per_class {A : Type} (X : list A) (y : list Z)
    (train_size test_size : option split_size) (rnd : nat → nat → nat)
    : option (list A * list A * list Z * list Z) :=
  counts ← bincount y 0;
  let num_classes := length counts in
  for_each
    (λ i '(X_train_arr, X_test_arr, y_train_arr, y_test_arr),
       let is_i := (λ l, bool_decide (l = Z.of_nat i)) <$> y in
       (* X[y==i]: the boolean index must have the length of the axis *)
       if decide (length y = length X) then
         '(X_train, X_test, y_train, y_test) ←
            train_test_split (select_masked is_i X) (select_masked is_i y)
              test_size train_size (rnd i);
         Some (X_train_arr ++ X_train, X_test_arr ++ X_test,
               y_train_arr ++ y_train, y_test_arr ++ y_test)
       else None)
    (seq 0 num_classes) ([], [], [], []).

(** The stratification claim, as the specification words it. *)
Definition split_keeps_class_counts : Prop :=
  ∀ (A : Type) (X : list A) y train_size test_size rnd
    X_train X_test y_train y_test (c : Z),
    train_test_split_per_class X y train_size test_size rnd
      = Some (X_train, X_test, y_train, y_test) →
    count_label c y_train + count_label c y_test = count_label c y.

(** ** Arrays in memory

    The functions above are the values the code computes.  To follow which
    arrays the code writes, the same functions are given once more as
    programs over a store: every array lives at a location of a heap, a
    NumPy call that builds an array allocates a location, an indexed
    assignment updates the array at a location in place, and a view
    ([reshape], [ravel], a name bound to an argument) is the location
    itself.  The process environment is the second part of the store. *)

Module Mem.

Definition loc : Type := nat.

(** The kinds of array the module handles; [T] is the element type of the
    arrays of pixels, samples or band values. *)
Inductive array (T : Type) : Type :=
| Vec (v : list T)
| Mat (m : list (list T))
| Ten (t : list (list (list T)))
| Spec (c : cube T)
| Mask (m : list (list bool))
| Counts (m : list (list nat))
| Index (l : list (nat * nat))
| Shape (l : list nat)
| Ints (l : list Z)
| Floats (l : list Float.t).
Arguments Vec {T}.
Arguments Mat {T}.
Arguments Ten {T}.
Arguments Spec {T}.
Arguments Mask {T}.
Arguments Counts {T}.
Arguments Index {T}.
Arguments Shape {T}.
Arguments Ints {T}.
Arguments Floats {T}.

Definition as_Vec {T} (a : array T) : option (list T) :=
  if a is Vec v then Some v else None.
Definition as_Mat {T} (a : array T) : option (list (list T)) :=
  if a is Mat m then Some m else None.
Definition as_Ten {T} (a : array T) : option (list (list (list T))) :=
  if a is Ten t then Some t else None.
Definition as_Spec {T} (a : array T) : option (cube T) :=
  if a is Spec c then Some c else None.
Definition as_Mask {T} (a : array T) : option (list (list bool)) :=
  if a is Mask m then Some m else None.
Definition as_Counts {T} (a : array T) : option (list (list nat)) :=
  if a is Counts m then Some m else None.
Definition as_Index {T} (a : array T) : option (list (nat * nat)) :=
  if a is Index l then Some l else None.
Definition as_Shape {T} (a : array T) : option (list nat) :=
  if a is Shape l then Some l else None.
Definition as_Ints {T} (a : array T) : option (list Z) :=
  if a is Ints l then Some l else None.
Definition as_Floats {T} (a : array T) : option (list Float.t) :=
  if a is Floats l then Some l else None.

Record store (T : Type) : Type := Store {
  heap : list (array T);
  environ : gmap string string
}.
Arguments Store {T}.
Arguments heap {T}.
Arguments environ {T}.

(** A program returns a value and the store it leaves, or raises. *)
Definition M (T R : Type) : Type := store T → option (R * store T).

#[global] Instance M_ret {T} : MRet (M T) := λ R r σ, Some (r, σ).
#[global] Instance M_bind {T} : MBind (M T) :=
  λ A B k m σ, match m σ with Some (a, σ') => k a σ' | None => None end.

(** a computation that touches no store; [None] raises *)
Definition lift {T R} (o : option R) : M T R := λ σ, r ← o; Some (r, σ).

(** a new array *)
Definition alloc {T} (a : array T) : M T loc :=
  λ σ, Some (length (heap σ), Store (heap σ ++ [a]) (environ σ)).

Definition load {T} (l : loc) : M T (array T) :=
  λ σ, a ← heap σ !! l; Some (a, σ).

(** the array at [l], read as an array of one kind *)
Definition load_as {T X} (proj : array T → option X) (l : loc) : M T X :=
  a ← load l; lift (proj a).

(** an assignment into the array at [l]: the array is replaced, in place,
    by what [f] makes of it *)
Definition update {T} (l : loc) (f : array T → option (array T))
    : M T unit :=
  λ σ, a ← heap σ !! l; a' ← f a;
       Some ((), Store (<[l:=a']> (heap σ)) (environ σ)).

(** [f] on the arrays of one kind *)
Definition on {T X} (proj : array T → option X) (inj : X → array T)
    (f : X → option X) (a : array T) : option (array T) :=
  x ← proj a; inj <$> f x.

(** [os.environ[k] = v] *)
Definition setenv {T} (k v : string) : M T unit :=
  λ σ, Some ((), Store (heap σ) (<[k:=v]> (environ σ))).

(** [for i in l: body i] *)
Fixpoint forM {T} (l : list nat) (body : nat → M T unit) : M T unit :=
  match l with
  | [] => mret ()
  | i :: l' => body i ;; forM l' body
  end.

(** [for i in l: s = body i s], for a loop that rebinds its variables *)
Fixpoint foldM {T S} (body : nat → S → M T S) (l : list nat) (s : S)
    : M T S :=
  match l with
  | [] => mret s
  | i :: l' => s' ← body i s; foldM body l' s'
  end.

(** Between two stores, the arrays that existed below [n] are the same,
    the heap has not shrunk and the environment is the same. *)
Definition grows {T} (n : nat) (σ σ' : store T) : Prop :=
  take n (heap σ') = take n (heap σ) ∧
  length (heap σ) ≤ length (heap σ') ∧
  environ σ' = environ σ.

(** Every array of [σ] is still there, with its contents, in [σ']. *)
Definition unchanged {T} (σ σ' : store T) : Prop :=
  (∀ l a, heap σ !! l = Some a → heap σ' !! l = Some a) ∧
  environ σ' = environ σ.

(** [l] was allocated between [σ] and [σ']. *)
Definition fresh {T} (σ σ' : store T) (l : loc) : Prop :=
  length (heap σ) ≤ l < length (heap σ').

End Mem.

(** ** The operations as programs over the store

    Each program follows its function statement by statement.  A name the
    code keeps binds a location; arguments are locations of the caller's
    store.  A temporary that no name keeps (the right-hand side of an
    assignment, a boolean index) is not given a location. *)

Section programs.

Context {T : Type}.

(** [band_resample_hsi_cube]; the result is the [(h, w, len(bands2))] view
    of the array at the returned location. *)
Definition band_resample_hsi_cube_st (zero : T) (add mul : T → T → T)
    (isnan : T → bool)
    (BandResampler :
       list T → list T → list T → list T → option (list (list T)))
    (data bands1 bands2 fwhm1 fwhm2 : Mem.loc) (mask : option Mem.loc)
    : Mem.M T Mem.loc :=
  (* resample = BandResampler(bands1, bands2, fwhm1, fwhm2) *)
  b1 ← Mem.load_as Mem.as_Vec bands1;
  b2 ← Mem.load_as Mem.as_Vec bands2;
  f1 ← Mem.load_as Mem.as_Vec fwhm1;
  f2 ← Mem.load_as Mem.as_Vec fwhm2;
  matrix ← Mem.lift (BandResampler b1 b2 f1 f2);
  resample ← Mem.alloc (Mem.Mat matrix);
  (* dataSize = data.shape; data = data.reshape((-1, dataSize[2])): a view *)
  c ← Mem.load_as Mem.as_Spec data;
  if decide (bands c = 0) then Mem.lift None else
  out ← match mask with
         | None =>
             (* out = resample.matrix.dot(data.T).T *)
             m ← Mem.load_as Mem.as_Mat resample;
             c ← Mem.load_as Mem.as_Spec data;
             o ← Mem.lift (matmul zero add mul m (bands c) (pixels c));
             Mem.alloc (Mem.Mat o)
         | Some mask =>
             (* out = np.zeros((data.shape[0], len(bands2))) *)
             c ← Mem.load_as Mem.as_Spec data;
             b2 ← Mem.load_as Mem.as_Vec bands2;
             out ← Mem.alloc
                     (Mem.Mat (replicate (length (pixels c))
                                 (replicate (length b2) zero)));
             (* mask = mask.ravel(): a view *)
             mk ← Mem.load_as Mem.as_Mask mask;
             if decide (length (concat mk) = length (pixels c)) then
               (* out[mask] = resample.matrix.dot(data[mask].T).T *)
               m ← Mem.load_as Mem.as_Mat resample;
               vals ← Mem.lift (matmul zero add mul m (bands c)
                                  (select_masked (concat mk) (pixels c)));
               vals ← Mem.lift (mapM (broadcast_axis (length b2)) vals);
               Mem.update out
                 (Mem.on Mem.as_Mat Mem.Mat
                    (λ o, Some (assign_masked (concat mk) o vals)));;
               mret out
             else Mem.lift None
         end;
  (* out[np.isnan(out)] = 0 *)
  Mem.update out
    (Mem.on Mem.as_Mat Mem.Mat (λ o, Some (nan_to_zero zero isnan o)));;
  (* return out.reshape((dataSize[0], dataSize[1], len(bands2))): a view *)
  o ← Mem.load_as Mem.as_Mat out;
  c ← Mem.load_as Mem.as_Spec data;
  b2 ← Mem.load_as Mem.as_Vec bands2;
  Mem.lift (reshape3 o (height c) (width c) (length b2));;
  mret out.

(** [readENVIHeader]; [read_envi_header] is the library's parser, which
    gives the two sequences of the header. *)
Definition readENVIHeader_st
    (read_envi_header : string → option (list T * list T))
    (fName : string) : Mem.M T (Mem.loc * Mem.loc) :=
  '(wavelength, fwhm) ← Mem.lift (read_envi_header fName);
  centers ← Mem.alloc (Mem.Vec wavelength);
  fwhm ← Mem.alloc (Mem.Vec fwhm);
  mret (centers, fwhm).

(** [read_hyperion_HSI_data]: the files are read, never written. *)
Definition read_hyperion_HSI_data_st (zero : T) (cast : Z → T)
    (divide : T → Z → T) (files : list (string * raster))
    : Mem.M T Mem.loc :=
  let dataFN := sorted_files files in
  i0 ← Mem.lift (calIdx !! 0);
  '(_, tmp) ← Mem.lift (dataFN !! i0);
  let r := nrows tmp in
  let c := ncols tmp in
  (* data = np.zeros((tmp.shape[0], tmp.shape[1], 198)) *)
  data ← Mem.alloc (Mem.Ten (replicate r (replicate c (replicate 198 zero))));
  (* data[:, :, 0] = tmp *)
  Mem.update data
    (Mem.on Mem.as_Ten Mem.Ten (λ d, set_band cast r c d 0 tmp));;
  Mem.forM (seq 1 197)
    (λ i,
       idx ← Mem.lift (calIdx !! i);
       '(_, img) ← Mem.lift (dataFN !! idx);
       (* data[:, :, i] = gdal.Open(...).ReadAsArray() *)
       Mem.update data
         (Mem.on Mem.as_Ten Mem.Ten (λ d, set_band cast r c d i img)));;
  (* data[:, :, 0:50] = data[:, :, 0:50] / 40 *)
  Mem.update data
    (Mem.on Mem.as_Ten Mem.Ten (λ d, Some (scale_bands divide 0 50 40 d)));;
  (* data[:, :, 50:] = data[:, :, 50:] / 80 *)
  Mem.update data
    (Mem.on Mem.as_Ten Mem.Ten
       (λ d, Some (scale_bands divide 50 198 80 d)));;
  mret data.

(** [patch_extractor_with_mask] *)
Definition patch_extractor_with_mask_st (zero : T) (data mask : Mem.loc)
    (num_patches patch_size : nat) (rnd : nat → nat) : Mem.M T Mem.loc :=
  (* sh = data.shape; patch_arr = np.zeros(...) *)
  d ← Mem.load_as Mem.as_Mat data;
  patch_arr ← Mem.alloc
                (Mem.Ten (replicate num_patches
                            (replicate patch_size
                               (replicate patch_size zero))));
  (* valid = np.zeros(mask.shape, dtype=np.uint8) *)
  m ← Mem.load_as Mem.as_Mask mask;
  valid ← Mem.alloc (Mem.Counts (zeros_like m));
  Mem.forM (seq 0 (nrows d - patch_size))
    (λ i, Mem.forM (seq 0 (ncols d - patch_size))
       (λ j,
          m ← Mem.load_as Mem.as_Mask mask;
          if np_all (crop m i j patch_size patch_size)
          then (* valid[i, j] += 1 *)
               Mem.update valid
                 (Mem.on Mem.as_Counts Mem.Counts (λ v, incr_at v i j))
          else mret ()));;
  (* idx = np.argwhere(valid > 0) *)
  v ← Mem.load_as Mem.as_Counts valid;
  idx ← Mem.alloc (Mem.Index (argwhere v));
  (* idx = idx[np.array(sample(range(idx.shape[0]), num_patches))] *)
  candidates ← Mem.load_as Mem.as_Index idx;
  rows ← Mem.lift (sample_rows candidates num_patches rnd);
  idx ← Mem.alloc (Mem.Index rows);
  Mem.forM (seq 0 num_patches)
    (λ i,
       (* patch_arr[i] = data[idx[i,0]:idx[i,0]+patch_size, ...] *)
       rows ← Mem.load_as Mem.as_Index idx;
       d ← Mem.load_as Mem.as_Mat data;
       '(a, b) ← Mem.lift (rows !! i);
       patch ← Mem.lift (broadcast_to patch_size patch_size
                           (crop d a b patch_size patch_size));
       Mem.update patch_arr
         (Mem.on Mem.as_Ten Mem.Ten (λ arr, Some (<[i:=patch]> arr))));;
  mret patch_arr.

(** [patch_extractor] *)
Definition patch_extractor_st (zero : T) (data : Mem.loc)
    (num_patches patch_size : nat) (rnd : nat → nat) : Mem.M T Mem.loc :=
  d ← Mem.load_as Mem.as_Mat data;
  patch_arr ← Mem.alloc
                (Mem.Ten (replicate num_patches
                            (replicate patch_size
                               (replicate patch_size zero))));
  (* valid = np.zeros(data.shape[:2], dtype=np.uint8) *)
  valid ← Mem.alloc (Mem.Counts (zeros_like d));
  (* valid[0: sh[0]-patch_size[0], 0: sh[1]-patch_size[1]] = 1 *)
  Mem.update valid
    (Mem.on Mem.as_Counts Mem.Counts
       (λ v, Some (fill_ones
                     (slice_stop (nrows d)
                        (Z.of_nat (nrows d) - Z.of_nat patch_size))
                     (slice_stop (ncols d)
                        (Z.of_nat (ncols d) - Z.of_nat patch_size)) v)));;
  v ← Mem.load_as Mem.as_Counts valid;
  idx ← Mem.alloc (Mem.Index (argwhere v));
  candidates ← Mem.load_as Mem.as_Index idx;
  rows ← Mem.lift (sample_rows candidates num_patches rnd);
  idx ← Mem.alloc (Mem.Index rows);
  Mem.forM (seq 0 num_patches)
    (λ i,
       rows ← Mem.load_as Mem.as_Index idx;
       d ← Mem.load_as Mem.as_Mat data;
       '(a, b) ← Mem.lift (rows !! i);
       patch ← Mem.lift (broadcast_to patch_size patch_size
                           (crop d a b patch_size patch_size));
       Mem.update patch_arr
         (Mem.on Mem.as_Ten Mem.Ten (λ arr, Some (<[i:=patch]> arr))));;
  mret patch_arr.

(** [class_weights]: the name [class_weights] is bound, in turn, to the
    counts, to the ratios and to the weights. *)
Definition class_weights_st (labels : Mem.loc) (mu : Float.t)
    (numClasses : option Z) : Mem.M T Mem.loc :=
  l ← Mem.load_as Mem.as_Ints labels;
  numClasses ← Mem.lift (match numClasses with
                         | Some n => Some n
                         | None => (λ m, (m + 1)%Z) <$> amax l
                         end);
  (* class_weights = np.bincount(labels, minlength=numClasses) *)
  l ← Mem.load_as Mem.as_Ints labels;
  counts ← Mem.lift (bincount l numClasses);
  class_weights ← Mem.alloc (Mem.Ints counts);
  (* class_weights = np.sum(class_weights)/class_weights *)
  counts ← Mem.load_as Mem.as_Ints class_weights;
  class_weights ← Mem.alloc
    (Mem.Floats (Float.true_divide (sumZ counts) <$> counts));
  (* class_weights[np.isinf(class_weights)] = 0 *)
  Mem.update class_weights
    (Mem.on Mem.as_Floats Mem.Floats
       (λ w, Some ((λ x, if Float.isinf x then Float.zero else x) <$> w)));;
  (* class_weights = mu * np.log(class_weights) *)
  w ← Mem.load_as Mem.as_Floats class_weights;
  class_weights ← Mem.alloc
    (Mem.Floats ((λ x, Float.mul mu (Float.log x)) <$> w));
  (* class_weights[class_weights < 1] = 1 *)
  Mem.update class_weights
    (Mem.on Mem.as_Floats Mem.Floats (λ w, Some (clamp_below_one w)));;
  mret class_weights.

(** [train_test_split_per_class]; [X] is the array of the samples.  The
    four result names are rebound to a new array by every [np.append]. *)
Definition train_test_split_per_class_st (X y : Mem.loc)
    (train_size test_size : option split_size) (rnd : nat → nat → nat)
    : Mem.M T (Mem.loc * Mem.loc * Mem.loc * Mem.loc) :=
  (* sh = np.array(X.shape) *)
  xs ← Mem.load_as Mem.as_Vec X;
  sh ← Mem.alloc (Mem.Shape [length xs]);
  (* num_classes = len(np.bincount(y)) *)
  ys ← Mem.load_as Mem.as_Ints y;
  counts ← Mem.lift (bincount ys 0);
  let num_classes := length counts in
  (* sh[0] = 0 *)
  Mem.update sh
    (Mem.on Mem.as_Shape Mem.Shape (λ s, Some (<[0:=0]> s)));;
  X_train_arr ← Mem.alloc (Mem.Vec []);
  X_test_arr ← Mem.alloc (Mem.Vec []);
  y_train_arr ← Mem.alloc (Mem.Ints []);
  y_test_arr ← Mem.alloc (Mem.Ints []);
  Mem.foldM
    (λ i '(X_train_arr, X_test_arr, y_train_arr, y_test_arr),
       xs ← Mem.load_as Mem.as_Vec X;
       ys ← Mem.load_as Mem.as_Ints y;
       let is_i := (λ l, bool_decide (l = Z.of_nat i)) <$> ys in
       if decide (length ys = length xs) then
         '(X_train, X_test, y_train, y_test) ←
            Mem.lift (train_test_split (select_masked is_i xs)
                        (select_masked is_i ys) test_size train_size
                        (rnd i));
         (* X_train_arr = np.append(X_train_arr, X_train, axis=0) ... *)
         a ← Mem.load_as Mem.as_Vec X_train_arr;
         X_train_arr ← Mem.alloc (Mem.Vec (a ++ X_train));
         b ← Mem.load_as Mem.as_Vec X_test_arr;
         X_test_arr ← Mem.alloc (Mem.Vec (b ++ X_test));
         c ← Mem.load_as Mem.as_Ints y_train_arr;
         y_train_arr ← Mem.alloc (Mem.Ints (c ++ y_train));
         d ← Mem.load_as Mem.as_Ints y_test_arr;
         y_test_arr ← Mem.alloc (Mem.Ints (d ++ y_test));
         mret (X_train_arr, X_test_arr, y_train_arr, y_test_arr)
       else Mem.lift None)
    (seq 0 num_classes)
    (X_train_arr, X_test_arr, y_train_arr, y_test_arr).

(** What [set_gpu] is given: a device index or a device list. *)
Inductive device : Type :=
| DeviceIndex (n : Z)
| DeviceList (s : string).

(** [str(device)] *)
Definition str (d : device) : string :=
  match d with
  | DeviceIndex n => pretty n
  | DeviceList s => s
  end.

(** [set_gpu(device)] *)
Definition set_gpu_st (device : option device) : Mem.M T () :=
  let device := default "" (str <$> device) in
  Mem.setenv "CUDA_VISIBLE_DEVICES" device.

End programs.

(** ** Programs against functions

    A program over the store and the function of the first part compute the
    same thing when, from a store that holds the arguments, both raise or
    both return and the returned locations hold the function's values. *)

(** [σ] with the arrays [ls] allocated after its own *)
Definition ext {T} (σ : Mem.store T) (ls : list (Mem.array T))
    : Mem.store T :=
  Mem.Store (Mem.heap σ ++ ls) (Mem.environ σ).

Definition refines {T R X} (run : option (R * Mem.store T))
    (pure : option X) (holds : R → Mem.store T → X → Prop) : Prop :=
  match pure with
  | Some x => ∃ r σ', run = Some (r, σ') ∧ holds r σ' x
  | None => run = None
  end.

(** The four locations [train_test_split_per_class] returns hold the four
    sequences. *)
Definition split_in_store {T} (σ : Mem.store T)
    (r : Mem.loc * Mem.loc * Mem.loc * Mem.loc)
    (v : list T * list T * list Z * list Z) : Prop :=
  let '(a, b, c, d) := r in
  let '(X_train, X_test, y_train, y_test) := v in
  Mem.heap σ !! a = Some (Mem.Vec X_train) ∧
  Mem.heap σ !! b = Some (Mem.Vec X_test) ∧
  Mem.heap σ !! c = Some (Mem.Ints y_train) ∧
  Mem.heap σ !! d = Some (Mem.Ints y_test).

(** A caller's store for the examples: a cube, its band centers, the target
    centers, an unused width array and a mask. *)
Definition demo_store : Mem.store Z :=
  Mem.Store
    [Mem.Spec demo_cube; Mem.Vec [10; 20; 30]%Z; Mem.Vec [30; 10]%Z;
     Mem.Vec []; Mem.Mask [[true; false]; [true; true]]]
    ∅.

(** * Properties *)

(** ** Facts on the float model *)

Lemma ltb_Fin (x y : R) :
  Float.ltb (Float.Fin x) (Float.Fin y) = true ↔ (x < y)%R.
Proof. simpl. destruct (Rlt_dec x y); split; (done || lra). Qed.

Lemma ltb_false_le (x : Float.t) :
  Float.ltb x Float.one = false → x = Float.NaN ∨ Float.le Float.one x.
Proof.
  destruct x as [r| | |]; simpl; try (by auto).
  destruct (Rlt_dec r 1); [done|]. intros _. right. lra.
Qed.

Lemma log_zero : Float.log Float.zero = Float.NInf.
Proof.
  unfold Float.log, Float.zero.
  destruct (Rlt_dec 0 0) as [H|_]; [lra|].
  destruct (Req_dec_T 0 0) as [_|H]; [done|lra].
Qed.

Lemma log_pos (r : R) : (0 < r)%R → Float.log (Float.Fin r) = Float.Fin (ln r).
Proof. intros H. simpl. by destruct (Rlt_dec 0 r). Qed.

Lemma ln_4_gt_1 : (1 < ln 4)%R.
Proof.
  rewrite <- (ln_exp 1) at 1. apply ln_increasing; [apply exp_pos|].
  pose proof exp_le_3. lra.
Qed.

Lemma ln_4_3_lt_1 : (ln (4 / 3) < 1)%R.
Proof.
  replace 1%R with (ln (exp 1)) at 1 by apply ln_exp.
  apply ln_increasing; [lra|]. pose proof (exp_ineq1 1). lra.
Qed.

(** ** Class weights *)

Lemma amax_upper_bound (x y : Z) (l : list Z) :
  x ∈ y :: l → (x ≤ foldr Z.max y l)%Z.
Proof.
  induction l as [|z l IH]; simpl.
  - intros ?%list_elem_of_singleton. lia.
  - rewrite !elem_of_cons. intros [?|[?|H]]; [| lia |].
    + rewrite elem_of_cons in IH. specialize (IH ltac:(by left)). lia.
    + rewrite elem_of_cons in IH. specialize (IH ltac:(by right)). lia.
Qed.

Lemma bincount_Some labels n counts :
  bincount labels n = Some counts →
  Forall (λ x, 0 ≤ x)%Z labels ∧
  counts = (λ c, Z.of_nat (count_label (Z.of_nat c) labels))
             <$> seq 0 (length counts) ∧
  (∀ x, x ∈ labels → Z.to_nat x < length counts).
Proof.
  unfold bincount. destruct (forallb _ labels) eqn:Hall; [|done].
  destruct (0 <=? n)%Z eqn:Hn; [|done]. simpl. intros [= <-].
  assert (Forall (λ x, 0 ≤ x)%Z labels) as Hnn.
  { apply Forall_forall. intros x Hx%list_elem_of_In.
    rewrite forallb_forall in Hall. apply Hall in Hx. lia. }
  split; [done|]. rewrite length_fmap, length_seq. split; [done|].
  intros x Hx. destruct labels as [|y l]; [by apply elem_of_nil in Hx|].
  pose proof (proj1 (Forall_forall _ _) Hnn x Hx) as Hx0. simpl in Hx0.
  simpl. pose proof (amax_upper_bound _ _ _ Hx). lia.
Qed.

Lemma count_label_nonneg c labels : (0 ≤ Z.of_nat (count_label c labels))%Z.
Proof. lia. Qed.

Lemma sumZ_ge_elem (l : list Z) x :
  Forall (λ y, 0 ≤ y)%Z l → x ∈ l → (x ≤ sumZ l)%Z.
Proof.
  induction 1 as [|y l Hy Hl IH]; [by intros ?%elem_of_nil|].
  assert (0 ≤ sumZ l)%Z.
  { clear -Hl. induction Hl; simpl; lia. }
  rewrite elem_of_cons. simpl. intros [->|Hx]; [lia|].
  specialize (IH Hx). lia.
Qed.

Lemma count_label_pos x labels : x ∈ labels → 0 < count_label x labels.
Proof.
  intros Hx. unfold count_label.
  assert (x ∈ filter (λ y, y = x) labels) as H by (by apply list_elem_of_filter).
  destruct (filter _ labels); [by apply elem_of_nil in H|simpl; lia].
Qed.

(** With at least one label, the total the ratios are taken of is positive. *)
Lemma bincount_total_pos labels n counts :
  bincount labels n = Some counts → labels ≠ [] → (0 < sumZ counts)%Z.
Proof.
  intros Hb Hne. destruct (bincount_Some _ _ _ Hb) as (Hnn & Hc & Hlt).
  destruct labels as [|x l]; [done|].
  assert (x ∈ x :: l) as Hx by (apply elem_of_cons; by left).
  pose proof (Hlt _ Hx) as Hi. pose proof (count_label_pos _ _ Hx) as Hp.
  apply Forall_inv in Hnn.
  assert (Z.of_nat (count_label x (x :: l)) ∈ counts) as Hin.
  { rewrite Hc. apply list_elem_of_fmap. exists (Z.to_nat x).
    split; [by rewrite Z2Nat.id|]. apply elem_of_seq. lia. }
  assert (Forall (λ y, 0 ≤ y)%Z counts) as Hcnn.
  { rewrite Hc. apply Forall_fmap, Forall_forall. intros; simpl; lia. }
  pose proof (sumZ_ge_elem _ _ Hcnn Hin). lia.
Qed.

Lemma bincount_lookup labels n counts (c : nat) :
  bincount labels n = Some counts → c < length counts →
  counts !! c = Some (Z.of_nat (count_label (Z.of_nat c) labels)).
Proof.
  intros Hb Hc. destruct (bincount_Some _ _ _ Hb) as (_ & Heq & _).
  rewrite Heq, list_lookup_fmap, lookup_seq_lt by done. done.
Qed.

Lemma class_weights_Some labels mu numClasses w :
  class_weights labels mu numClasses = Some w →
  ∃ n counts, bincount labels n = Some counts ∧
    w = clamp_below_one
          ((λ x, Float.mul mu (Float.log x)) <$> guarded_ratio counts).
Proof.
  unfold class_weights. intros H.
  destruct (match numClasses with Some n => Some n | None => _ end)
    as [n|] eqn:Hn; [|done]. simpl in H.
  destruct (bincount labels n) as [counts|] eqn:Hb; [|done]. simpl in H.
  injection H as <-. eauto.
Qed.

Lemma class_weights_lookup labels mu numClasses w (c : nat) :
  class_weights labels mu numClasses = Some w → c < length w →
  ∃ total, (labels ≠ [] → 0 < total)%Z ∧
    let k := Z.of_nat (count_label (Z.of_nat c) labels) in
    let r := Float.true_divide total k in
    let g := if Float.isinf r then Float.zero else r in
    let v := Float.mul mu (Float.log g) in
    w !! c = Some (if Float.ltb v Float.one then Float.one else v).
Proof.
  intros (n & counts & Hb & ->)%class_weights_Some Hc.
  unfold clamp_below_one, guarded_ratio in *.
  rewrite !length_fmap in Hc.
  exists (sumZ counts). split; [by apply bincount_total_pos with (n:=n)|].
  simpl. rewrite !list_lookup_fmap, (bincount_lookup _ _ _ _ Hb Hc). done.
Qed.

(** For an absent class the ratio is infinite, the guard turns it into 0,
    and what happens to [log 0 = -inf] depends on the sign of [mu]. *)
Lemma absent_class_weight labels mu numClasses w (c : nat) :
  class_weights labels (Float.Fin mu) numClasses = Some w →
  labels ≠ [] → c < length w →
  count_label (Z.of_nat c) labels = 0 →
  w !! c = Some (if Rlt_dec 0 mu then Float.one
                 else if Rlt_dec mu 0 then Float.PInf else Float.NaN).
Proof.
  intros Hw Hne Hc H0.
  destruct (class_weights_lookup _ _ _ _ _ Hw Hc) as (total & Hpos & ->).
  specialize (Hpos Hne). rewrite H0. f_equal. unfold Float.true_divide.
  rewrite decide_True by done. rewrite decide_False by lia.
  rewrite decide_True by done. simpl Float.isinf. cbv iota.
  rewrite log_zero. simpl. unfold Float.scale_inf.
  destruct (Rlt_dec 0 mu); [done|]. by destruct (Rlt_dec mu 0).
Qed.

(** C1, as stated, fails: labels [0,0,0,1] with three classes and [mu = 1]
    give the absent class 2 the weight 1, not 0. *)
Lemma absent_class_weight_not_zero : ¬ absent_class_weight_is_zero.
Proof.
  intros H.
  assert (class_weights [0; 0; 0; 1]%Z (Float.Fin 1) (Some 3%Z) = Some
    (clamp_below_one ((λ x, Float.mul (Float.Fin 1) (Float.log x)) <$>
       guarded_ratio [3; 1; 0]%Z))) as Hw by reflexivity.
  specialize (H _ _ _ _ 2 Hw ltac:(simpl; lia) eq_refl).
  pose proof (absent_class_weight _ _ _ _ 2 Hw ltac:(done)
                ltac:(simpl; lia) eq_refl) as H'.
  rewrite H in H'. destruct (Rlt_dec 0 1) as [_|Hn]; [|lra].
  injection H' as H'. lra.
Qed.

(** C1 (amended): for a non-empty label vector and a class that no label
    names, the division is guarded (the infinite ratio becomes 0), and the
    weight [class_weights] returns for that class is 1 whenever [mu] is a
    positive finite number: [mu * log 0] is [-inf], which the final clamp
    raises to 1. *)
Theorem class_weights_absent_class labels (mu : R) numClasses w (c : nat) :
  class_weights labels (Float.Fin mu) numClasses = Some w →
  labels ≠ [] →
  (0 < mu)%R →
  c < length w →
  count_label (Z.of_nat c) labels = 0 →
  (∃ n counts, bincount labels n = Some counts ∧
     w = clamp_below_one ((λ x, Float.mul (Float.Fin mu) (Float.log x))
                            <$> guarded_ratio counts) ∧
     guarded_ratio counts !! c = Some Float.zero) ∧
  w !! c = Some Float.one.
Proof.
  intros Hw Hne Hmu Hc H0. split.
  - destruct (class_weights_Some _ _ _ _ Hw) as (n & counts & Hb & ->).
    exists n, counts. split; [done|]. split; [done|].
    unfold clamp_below_one, guarded_ratio in *. rewrite !length_fmap in Hc.
    rewrite !list_lookup_fmap, (bincount_lookup _ _ _ _ Hb Hc), H0. simpl.
    pose proof (bincount_total_pos _ _ _ Hb Hne).
    unfold Float.true_divide. rewrite decide_True by done.
    rewrite decide_False by lia. by rewrite decide_True by done.
  - rewrite (absent_class_weight _ _ _ _ _ Hw Hne Hc H0).
    by destruct (Rlt_dec 0 mu).
Qed.

Lemma class_weights_absent_class_witness :
  ∃ w, class_weights [0; 0; 0; 1]%Z (Float.Fin 1) (Some 3%Z) = Some w ∧
       w !! 2 = Some Float.one.
Proof.
  eexists. split; [reflexivity|].
  apply (class_weights_absent_class [0; 0; 0; 1]%Z 1 (Some 3%Z) _ 2);
    [reflexivity | done | lra | simpl; lia | reflexivity].
Defined.

Lemma clamp_NaN_or_ge_1 (v : Float.t) :
  let x := if Float.ltb v Float.one then Float.one else v in
  x = Float.NaN ∨ Float.le Float.one x.
Proof.
  simpl. destruct (Float.ltb v Float.one) eqn:Hlt.
  - right. simpl. lra.
  - by apply ltb_false_le.
Qed.

Lemma clamp_below_one_elem (w : list Float.t) x :
  x ∈ clamp_below_one w → x = Float.NaN ∨ Float.le Float.one x.
Proof.
  unfold clamp_below_one. intros (v & -> & _)%list_elem_of_fmap.
  apply clamp_NaN_or_ge_1.
Qed.

(** A finite non-zero [mu] and a non-empty label vector leave no way to
    produce a NaN: the total is positive, so no ratio is [0/0], every ratio
    is non-negative, and [mu] never multiplies an infinity as zero. *)
Lemma class_weights_no_NaN labels (mu : R) numClasses w :
  class_weights labels (Float.Fin mu) numClasses = Some w →
  labels ≠ [] → mu ≠ 0%R → Forall (λ x, x ≠ Float.NaN) w.
Proof.
  intros Hw Hne Hmu. apply Forall_lookup. intros c x Hx.
  pose proof (lookup_lt_Some _ _ _ Hx) as Hc.
  destruct (class_weights_lookup _ _ _ _ _ Hw Hc) as (total & Hpos & Heq).
  specialize (Hpos Hne). simpl in Heq. rewrite Hx in Heq.
  injection Heq as ->. clear Hx.
  set (k := Z.of_nat (count_label (Z.of_nat c) labels)).
  assert (0 ≤ k)%Z as Hk by lia. clearbody k.
  unfold Float.true_divide. destruct (decide (k = 0%Z)) as [->|Hk0].
  - rewrite decide_False by lia. rewrite decide_True by done.
    simpl Float.isinf. cbv iota. rewrite log_zero. simpl.
    unfold Float.scale_inf. destruct (Rlt_dec 0 mu); [done|].
    destruct (Rlt_dec mu 0); [done|lra].
  - simpl Float.isinf. cbv iota.
    assert (0 < IZR total / IZR k)%R as Hr.
    { apply Rdiv_lt_0_compat; apply IZR_lt; lia. }
    rewrite (log_pos _ Hr). simpl.
    by destruct (Rlt_dec (mu * ln (IZR total / IZR k)) 1).
Qed.

(** C5, as stated, fails: with [mu = 0] the absent class 2 of labels
    [0,0,0,1] gets [0 * -inf], a NaN, which the clamp [w < 1] leaves in
    place. *)
Lemma some_weight_not_at_least_one : ¬ every_weight_at_least_one.
Proof.
  intros H.
  assert (class_weights [0; 0; 0; 1]%Z (Float.Fin 0) (Some 3%Z) = Some
    (clamp_below_one ((λ x, Float.mul (Float.Fin 0) (Float.log x)) <$>
       guarded_ratio [3; 1; 0]%Z))) as Hw by reflexivity.
  pose proof (absent_class_weight _ _ _ _ 2 Hw ltac:(done)
                ltac:(simpl; lia) eq_refl) as H'.
  destruct (Rlt_dec 0 0) as [Hn|_]; [lra|].
  apply list_elem_of_lookup_2 in H'. by apply (H _ _ _ _ _ Hw) in H'.
Qed.

Lemma class_weights_example :
  class_weights [0; 0; 0; 1]%Z (Float.Fin 1) (Some 2%Z)
  = Some [Float.one; Float.Fin (ln 4)].
Proof.
  assert (class_weights [0; 0; 0; 1]%Z (Float.Fin 1) (Some 2%Z) = Some
    (clamp_below_one ((λ x, Float.mul (Float.Fin 1) (Float.log x)) <$>
       [Float.Fin (4 / 3); Float.Fin (4 / 1)])))
    as -> by reflexivity.
  f_equal. cbv [clamp_below_one fmap list_fmap].
  rewrite !log_pos by lra. cbv [Float.mul Float.ltb Float.one].
  replace (4 / 1)%R with 4%R by lra.
  rewrite !Rmult_1_l.
  pose proof ln_4_gt_1. pose proof ln_4_3_lt_1.
  destruct (Rlt_dec (ln (4 / 3)) 1); [|lra].
  destruct (Rlt_dec (ln 4) 1); [lra|]. done.
Qed.

(** C5 (amended): every weight [class_weights] returns is at least 1 or is
    not-a-number (the clamp [w < 1] does not catch NaN); when [mu] is a
    finite non-zero number and the label vector is not empty, every weight
    is at least 1.  For labels [0,0,0,1], [mu = 1] and two classes the
    result is [1, log 4]: [log 4] exceeds 1 and stays, [log (4/3)] is below
    1 and is clamped up. *)
Theorem class_weights_clamped labels mu numClasses w :
  class_weights labels mu numClasses = Some w →
  Forall (λ x, x = Float.NaN ∨ Float.le Float.one x) w ∧
  (∀ m : R, mu = Float.Fin m → m ≠ 0%R → labels ≠ [] →
     Forall (Float.le Float.one) w) ∧
  (labels = [0; 0; 0; 1]%Z → mu = Float.Fin 1 → numClasses = Some 2%Z →
     w = [Float.one; Float.Fin (ln 4)] ∧ (1 < ln 4)%R ∧ (ln (4 / 3) < 1)%R).
Proof.
  intros Hw.
  assert (Forall (λ x, x = Float.NaN ∨ Float.le Float.one x) w) as Hall.
  { destruct (class_weights_Some _ _ _ _ Hw) as (n & counts & _ & ->).
    apply Forall_forall. intros x. apply clamp_below_one_elem. }
  split; [done|]. split.
  - intros m -> Hm Hne.
    pose proof (class_weights_no_NaN _ _ _ _ Hw Hne Hm) as Hnan.
    rewrite Forall_forall in Hall, Hnan. apply Forall_forall.
    intros x Hx. destruct (Hall x Hx) as [?|?]; [|done].
    by destruct (Hnan x Hx).
  - intros -> -> ->. rewrite class_weights_example in Hw.
    injection Hw as <-. auto using ln_4_gt_1, ln_4_3_lt_1.
Qed.

Lemma class_weights_clamped_witness :
  Forall (Float.le Float.one) [Float.one; Float.Fin (ln 4)].
Proof.
  destruct (class_weights_clamped [0; 0; 0; 1]%Z (Float.Fin 1) (Some 2%Z)
              _ class_weights_example) as (_ & H & _).
  apply (H 1%R); [reflexivity | lra | done].
Defined.

(** ** Loops *)

(** An invariant over the iterations already done carries through a loop
    that returns. *)
Lemma for_each_inv {S : Type} (I : list nat → S → Prop)
    (body : nat → S → option S) (l : list nat) (s s' : S) :
  for_each body l s = Some s' →
  I [] s →
  (∀ pre i s0 s1, pre ++ [i] `prefix_of` l →
     I pre s0 → body i s0 = Some s1 → I (pre ++ [i]) s1) →
  I l s'.
Proof.
  intros Hrun H0 Hstep.
  assert (∀ pre rest s0, l = pre ++ rest → I pre s0 →
            for_each body rest s0 = Some s' → I l s') as Hgen.
  { intros pre rest. revert pre. induction rest as [|i rest IH].
    - intros pre s0 -> HI [= <-]. by rewrite app_nil_r.
    - intros pre s0 Hl HI Hr. simpl in Hr.
      destruct (body i s0) as [s1|] eqn:Hb; [|done]. simpl in Hr.
      apply (IH (pre ++ [i]) s1); [by rewrite <- app_assoc | | done].
      apply (Hstep pre i s0 s1); [|done..].
      exists rest. by rewrite <- app_assoc. }
  by apply (Hgen [] l s).
Qed.

(** A loop whose body never raises under the invariant returns. *)
Lemma for_each_is_Some {S : Type} (I : list nat → S → Prop)
    (body : nat → S → option S) (l : list nat) (s : S) :
  I [] s →
  (∀ pre i s0, pre ++ [i] `prefix_of` l → I pre s0 →
     ∃ s1, body i s0 = Some s1 ∧ I (pre ++ [i]) s1) →
  ∃ s', for_each body l s = Some s' ∧ I l s'.
Proof.
  intros H0 Hstep.
  assert (∀ rest pre s0, l = pre ++ rest → I pre s0 →
            ∃ s', for_each body rest s0 = Some s' ∧ I l s') as Hgen.
  { induction rest as [|i rest IH].
    - intros pre s0 -> HI. rewrite app_nil_r. by exists s0.
    - intros pre s0 Hl HI.
      destruct (Hstep pre i s0) as (s1 & Hb & HI1); [|done|].
      { exists rest. by rewrite <- app_assoc. }
      simpl. rewrite Hb. simpl.
      apply (IH (pre ++ [i])); [by rewrite <- app_assoc | done]. }
  by apply (Hgen l [] s).
Qed.

(** ** Cells of a 2-D array *)


Lemma incr_at_get2 v i j v' i' j' :
  incr_at v i j = Some v' →
  get2 v' i' j' = bump (bool_decide (i' = i ∧ j' = j)) <$> get2 v i' j'.
Proof.
  unfold incr_at, get2. intros H.
  destruct (v !! i) as [row|] eqn:Hrow; [|done]. simpl in H.
  destruct (row !! j) as [x|] eqn:Hx; [|done]. simpl in H.
  injection H as <-.
  pose proof (lookup_lt_Some _ _ _ Hrow). pose proof (lookup_lt_Some _ _ _ Hx).
  destruct (decide (i' = i)) as [->|Hi].
  - rewrite list_lookup_insert_eq, Hrow by done. simpl.
    destruct (decide (j' = j)) as [->|Hj].
    + rewrite list_lookup_insert_eq, Hx by done.
      by rewrite bool_decide_eq_true_2.
    + rewrite list_lookup_insert_ne by done.
      rewrite bool_decide_eq_false_2 by (intros [? ?]; done).
      by destruct (row !! j').
  - rewrite list_lookup_insert_ne by done.
    rewrite bool_decide_eq_false_2 by (intros [? ?]; done).
    destruct (v !! i'); [simpl|done]. by destruct (_ !! j').
Qed.

Lemma incr_at_is_Some v i j :
  is_Some (get2 v i j) → is_Some (incr_at v i j).
Proof.
  unfold get2, incr_at. intros [x Hx].
  destruct (v !! i) as [row|]; [|done]. simpl in *. rewrite Hx. by eexists.
Qed.

Lemma get2_zeros_like {A} (m : list (list A)) i j :
  get2 (zeros_like m) i j = (λ _, 0) <$> get2 m i j.
Proof.
  unfold get2, zeros_like. rewrite list_lookup_fmap.
  destruct (m !! i) as [row|]; [simpl|done].
  destruct (row !! j) eqn:Hj.
  - rewrite lookup_replicate_2; [done|]. by eapply lookup_lt_Some.
  - apply lookup_replicate_None. apply lookup_ge_None in Hj. lia.
Qed.

Lemma bump_bump b1 b2 x :
  b1 && b2 = false → bump b1 (bump b2 x) = bump (b1 || b2) x.
Proof. by destruct b1, b2. Qed.

Lemma prefix_snoc_NoDup (pre : list nat) i l :
  pre ++ [i] `prefix_of` l → NoDup l → i ∉ pre.
Proof.
  intros [rest ->] Hnd. rewrite <- app_assoc in Hnd.
  apply NoDup_app in Hnd as (_ & Hdis & _).
  intros Hin. apply (Hdis i Hin). apply elem_of_cons. by left.
Qed.

Ltac bool_cases :=
  repeat case_bool_decide;
  rewrite ?elem_of_app, ?list_elem_of_singleton in *;
  simpl; try done; try tauto;
  try (exfalso; intuition (subst; eauto; done)).

(** One row of the validity scan: the cells [(i, j)] with [j] in [js] and
    [hit j] are incremented, all others keep their value. *)
Lemma scan_row_get2 (hit : nat → bool) i js v v' :
  NoDup js →
  for_each (λ j valid, if hit j then incr_at valid i j else Some valid) js v
    = Some v' →
  ∀ i' j', get2 v' i' j'
           = bump (bool_decide (i' = i ∧ j' ∈ js) && hit j') <$> get2 v i' j'.
Proof.
  intros Hnd Hrun.
  apply (for_each_inv
    (λ pre s, ∀ i' j', get2 s i' j'
       = bump (bool_decide (i' = i ∧ j' ∈ pre) && hit j') <$> get2 v i' j')
    _ _ _ _ Hrun).
  - intros i' j'. rewrite bool_decide_eq_false_2.
    + by destruct (get2 v i' j').
    + intros [_ H]. by apply elem_of_nil in H.
  - intros pre j s0 s1 Hpre HI Hbody i' j'.
    pose proof (prefix_snoc_NoDup _ _ _ Hpre Hnd) as Hfresh.
    assert (get2 s1 i' j'
            = bump (bool_decide (i' = i ∧ j' = j) && hit j') <$> get2 s0 i' j')
      as ->.
    { destruct (hit j) eqn:Hj.
      - rewrite (incr_at_get2 _ _ _ _ _ _ Hbody).
        destruct (bool_decide (i' = i ∧ j' = j)) eqn:Hd; [|done].
        apply bool_decide_eq_true in Hd as [_ ->]. by rewrite Hj.
      - injection Hbody as <-.
        destruct (bool_decide (i' = i ∧ j' = j)) eqn:Hd.
        + apply bool_decide_eq_true in Hd as [_ ->]. rewrite Hj.
          by destruct (get2 s0 i' j).
        + by destruct (get2 s0 i' j'). }
    rewrite HI. destruct (get2 v i' j') as [x|]; [simpl|done]. f_equal.
    rewrite bump_bump.
    + f_equal. destruct (hit j'); rewrite ?andb_false_r; [|done].
      rewrite !andb_true_r. bool_cases.
    + destruct (hit j'); rewrite ?andb_false_r; [|done].
      rewrite !andb_true_r. bool_cases.
Qed.

(** The whole scan. *)
Lemma scan_get2 (hit : nat → nat → bool) rows js v v' :
  NoDup rows → NoDup js →
  for_each
    (λ i, for_each (λ j valid, if hit i j then incr_at valid i j
                               else Some valid) js) rows v = Some v' →
  ∀ i' j', get2 v' i' j'
           = bump (bool_decide (i' ∈ rows ∧ j' ∈ js) && hit i' j')
               <$> get2 v i' j'.
Proof.
  intros Hndr Hnd Hrun.
  apply (for_each_inv
    (λ pre s, ∀ i' j', get2 s i' j'
       = bump (bool_decide (i' ∈ pre ∧ j' ∈ js) && hit i' j') <$> get2 v i' j')
    _ _ _ _ Hrun).
  - intros i' j'. rewrite bool_decide_eq_false_2.
    + by destruct (get2 v i' j').
    + intros [H _]. by apply elem_of_nil in H.
  - intros pre i s0 s1 Hpre HI Hbody i' j'.
    pose proof (prefix_snoc_NoDup _ _ _ Hpre Hndr) as Hfresh.
    rewrite (scan_row_get2 (hit i) i js s0 s1 Hnd Hbody), HI.
    destruct (get2 v i' j') as [x|]; [simpl|done]. f_equal.
    destruct (decide (i' = i)) as [->|Hne].
    + rewrite bump_bump.
      * f_equal. destruct (hit i j'); rewrite ?andb_false_r; [|done].
        rewrite !andb_true_r. bool_cases.
      * destruct (hit i j'); rewrite ?andb_false_r; [|done].
        rewrite !andb_true_r. bool_cases.
    + rewrite (bool_decide_eq_false_2 (i' = i ∧ _)) by (by intros [? _]).
      simpl. f_equal. f_equal. bool_cases.
Qed.

(** What the validity scan leaves in each cell of [valid]. *)
Lemma find_valid_get2 {A} (data : list (list A)) mask ps valid i j :
  find_valid data mask ps = Some valid →
  get2 valid i j
  = (λ _ : bool,
       if bool_decide (i < nrows data - ps ∧ j < ncols data - ps)
          && np_all (crop mask i j ps ps) then 1 else 0) <$> get2 mask i j.
Proof.
  unfold find_valid. intros Hrun.
  rewrite (scan_get2 (λ i j, np_all (crop mask i j ps ps)) _ _ _ _
             (NoDup_seq _ _) (NoDup_seq _ _) Hrun).
  rewrite get2_zeros_like. destruct (get2 mask i j); [simpl|done].
  f_equal. unfold bump.
  rewrite (bool_decide_ext _ (i < nrows data - ps ∧ j < ncols data - ps))
    by (rewrite !elem_of_seq; lia).
  by destruct (_ && _).
Qed.

(** ** [argwhere] *)

Lemma elem_of_argwhere v i j :
  (i, j) ∈ argwhere v ↔ ∃ x, get2 v i j = Some x ∧ 0 < x.
Proof.
  unfold argwhere. rewrite list_elem_of_bind. split.
  - intros (i' & (j' & Hin & _)%list_elem_of_bind & _).
    destruct (get2 v i' j') as [x|] eqn:Hx; [|by apply elem_of_nil in Hin].
    destruct (decide (0 < x)); [|by apply elem_of_nil in Hin].
    apply list_elem_of_singleton in Hin as [= -> ->]. eauto.
  - intros (x & Hx & Hpos). exists i.
    unfold get2 in Hx. destruct (v !! i) as [row|] eqn:Hrow; [|done].
    simpl in Hx. split.
    + apply list_elem_of_bind. exists j. split.
      * unfold get2. rewrite Hrow. simpl. rewrite Hx.
        rewrite decide_True by done. by apply list_elem_of_singleton.
      * simpl. apply elem_of_seq. apply lookup_lt_Some in Hx. lia.
    + apply elem_of_seq. apply lookup_lt_Some in Hrow. lia.
Qed.

Lemma NoDup_argwhere v : NoDup (argwhere v).
Proof.
  unfold argwhere.
  assert (∀ i p, p ∈ (seq 0 (from_option length 0 (v !! i)) ≫= λ j,
            match get2 v i j with
            | Some x => if decide (0 < x) then [(i, j)] else []
            | None => []
            end) → p.1 = i) as Hfst.
  { intros i p (j & Hin & _)%list_elem_of_bind.
    destruct (get2 v i j) as [x|]; [|by apply elem_of_nil in Hin].
    destruct (decide (0 < x)); [|by apply elem_of_nil in Hin].
    by apply list_elem_of_singleton in Hin as ->. }
  apply NoDup_bind; [| |apply NoDup_seq].
  - intros i1 i2 p _ _ H1 H2. apply Hfst in H1, H2. congruence.
  - intros i _. apply NoDup_bind; [| |apply NoDup_seq].
    + intros j1 j2 p _ _ H1 H2.
      destruct (get2 v i j1) as [x|]; [|by apply elem_of_nil in H1].
      destruct (decide (0 < x)); [|by apply elem_of_nil in H1].
      apply list_elem_of_singleton in H1 as ->.
      destruct (get2 v i j2) as [y|]; [|by apply elem_of_nil in H2].
      destruct (decide (0 < y)); [|by apply elem_of_nil in H2].
      by apply list_elem_of_singleton in H2 as [= ->].
    + intros j _. destruct (get2 v i j) as [x|]; [|apply NoDup_nil_2].
      destruct (decide (0 < x)); [apply NoDup_singleton|apply NoDup_nil_2].
Qed.

(** The candidate anchors of the masked extractor, characterised. *)
Lemma elem_of_valid_anchors {A} (data : list (list A)) mask ps idx i j :
  valid_anchors data mask ps = Some idx →
  (i, j) ∈ idx ↔
    i < nrows data - ps ∧ j < ncols data - ps ∧
    np_all (crop mask i j ps ps) = true ∧ is_Some (get2 mask i j).
Proof.
  unfold valid_anchors. destruct (find_valid data mask ps) as [v|] eqn:Hv;
    [|done]. intros [= <-]. rewrite elem_of_argwhere.
  rewrite (find_valid_get2 _ _ _ _ _ _ Hv).
  destruct (get2 mask i j) as [b|]; simpl.
  - destruct (bool_decide _) eqn:Hd; simpl.
    + apply bool_decide_eq_true in Hd. destruct (np_all _).
      * split; [intros _|intros _; exists 1; split; [done|lia]].
        destruct Hd. by repeat split.
      * split; [intros (x & [= <-] & ?); lia|]. by intros (_ & _ & ? & _).
    + apply bool_decide_eq_false in Hd.
      split; [intros (x & [= <-] & ?); lia|]. intros (? & ? & _). tauto.
  - split; [by intros (x & ? & _)|]. intros (_ & _ & _ & [? ?]). done.
Qed.

Lemma NoDup_valid_anchors {A} (data : list (list A)) mask ps idx :
  valid_anchors data mask ps = Some idx → NoDup idx.
Proof.
  unfold valid_anchors. destruct (find_valid data mask ps); [|done].
  intros [= <-]. apply NoDup_argwhere.
Qed.

(** ** Sampling without replacement *)

(** One step of the selection loop takes [pool[j]] out of the pool. *)
Lemma pool_step (pool : list nat) j x y :
  pool !! j = Some x → last pool = Some y →
  pool ≡ₚ x :: take (length pool - 1) (<[j:=y]> pool).
Proof.
  intros Hj [init ->]%last_Some.
  rewrite length_app. simpl. replace (length init + 1 - 1) with (length init) by lia.
  destruct (decide (j < length init)) as [Hlt|Hge].
  - rewrite insert_app_l by done.
    rewrite take_app_le by (by rewrite length_insert).
    rewrite firstn_all2 by (by rewrite length_insert).
    rewrite lookup_app_l in Hj by done.
    rewrite <- (take_drop_middle init j x Hj) at 1.
    rewrite (insert_take_drop init j y Hlt).
    rewrite <- !app_assoc. simpl.
    rewrite <- !Permutation_middle. by rewrite app_nil_r.
  - pose proof (lookup_lt_Some _ _ _ Hj) as Hlen. rewrite length_app in Hlen.
    simpl in Hlen. assert (j = length init) as -> by lia.
    rewrite lookup_app_r in Hj by done.
    replace (length init - length init) with 0 in Hj by lia.
    injection Hj as <-.
    rewrite list_insert_id by (by rewrite list_lookup_middle).
    rewrite take_app_le by done. rewrite firstn_all.
    by rewrite <- Permutation_cons_append.
Qed.

Lemma sample_pool_spec k : ∀ pool rnd,
  NoDup pool → k ≤ length pool →
  length (sample_pool pool k rnd) = k ∧
  NoDup (sample_pool pool k rnd) ∧
  ∀ x, x ∈ sample_pool pool k rnd → x ∈ pool.
Proof.
  induction k as [|k IH]; intros pool rnd Hnd Hk; simpl.
  { split; [done|]. split; [apply NoDup_nil_2|]. by intros x ?%elem_of_nil. }
  assert (rnd 0 `mod` length pool < length pool) as Hj
    by (apply Nat.mod_upper_bound; lia).
  destruct (lookup_lt_is_Some_2 _ _ Hj) as [x Hx]. rewrite Hx.
  destruct (last pool) as [y|] eqn:Hy.
  2:{ apply last_None in Hy. subst. simpl in Hk. lia. }
  pose proof (pool_step _ _ _ _ Hx Hy) as Hperm.
  set (pool' := take (length pool - 1) (<[_:=y]> pool)) in *.
  assert (NoDup (x :: pool')) as Hnd' by (by rewrite <- Hperm).
  apply NoDup_cons in Hnd' as [Hfresh Hnd'].
  assert (k ≤ length pool') as Hk'.
  { apply Permutation_length in Hperm. simpl in Hperm. lia. }
  destruct (IH pool' (λ i, rnd (S i)) Hnd' Hk') as (Hlen & Hnd'' & Hsub).
  split; [simpl; by rewrite Hlen|]. split.
  - apply NoDup_cons. split; [|done]. intros Hin. by apply Hfresh, Hsub.
  - intros z. rewrite elem_of_cons. rewrite Hperm, elem_of_cons.
    intros [->|Hz]; [by left|right; by apply Hsub].
Qed.

Lemma sample_Some population k rnd picks :
  sample population k rnd = Some picks → NoDup population →
  k ≤ length population ∧ length picks = k ∧ NoDup picks ∧
  ∀ x, x ∈ picks → x ∈ population.
Proof.
  unfold sample. case_decide; [|done]. intros [= <-] Hnd.
  split; [done|]. by apply sample_pool_spec.
Qed.

Lemma sample_None population k rnd :
  sample population k rnd = None ↔ length population < k.
Proof. unfold sample. case_decide; split; (done || lia). Qed.

(** Drawing rows of an index array: the rows come out pairwise distinct
    when the array has no repeated row. *)
Lemma sample_rows_Some {A} (idx : list A) num rnd out :
  sample_rows idx num rnd = Some out → NoDup idx →
  0 < num ∧ num ≤ length idx ∧ length out = num ∧ NoDup out ∧
  ∀ x, x ∈ out → x ∈ idx.
Proof.
  unfold sample_rows. intros H Hnd.
  destruct (sample _ num rnd) as [picks|] eqn:Hs; [|done]. simpl in H.
  case_decide; [done|].
  apply sample_Some in Hs as (Hk & Hlen & Hndp & Hsub); [|apply NoDup_seq].
  rewrite length_seq in Hk. split; [lia|]. split; [done|].
  pose proof (length_mapM _ _ _ H) as Hlen'.
  apply mapM_Some_1 in H. split; [lia|]. split.
  - apply NoDup_alt. intros a b p Ha Hb.
    destruct (Forall2_lookup_r _ _ _ _ _ H Ha) as (sa & Hsa & Hia).
    destruct (Forall2_lookup_r _ _ _ _ _ H Hb) as (sb & Hsb & Hib).
    pose proof (proj1 (NoDup_alt idx) Hnd sa sb p Hia Hib) as ->.
    exact (proj1 (NoDup_alt picks) Hndp a b sb Hsa Hsb).
  - intros p (a & Ha)%list_elem_of_lookup.
    destruct (Forall2_lookup_r _ _ _ _ _ H Ha) as (sa & Hsa & Hia).
    by eapply list_elem_of_lookup_2.
Qed.

Lemma sample_rows_None {A} (idx : list A) num rnd :
  length idx < num → sample_rows idx num rnd = None.
Proof.
  intros Hlt. unfold sample_rows.
  assert (sample (seq 0 (length idx)) num rnd = None) as ->; [|done].
  apply sample_None. by rewrite length_seq.
Qed.

Lemma sample_rows_is_Some {A} (idx : list A) num rnd :
  0 < num → num ≤ length idx → is_Some (sample_rows idx num rnd).
Proof.
  intros Hpos Hle. unfold sample_rows, sample.
  rewrite decide_True by (by rewrite length_seq). simpl.
  rewrite decide_False by lia. apply mapM_is_Some, Forall_forall.
  intros s Hs. simpl. apply lookup_lt_is_Some_2.
  destruct (sample_pool_spec num (seq 0 (length idx)) rnd (NoDup_seq _ _))
    as (_ & _ & Hsub); [by rewrite length_seq|].
  apply Hsub, elem_of_seq in Hs. lia.
Qed.

(** ** Shapes and crops *)

Lemma rect_get2 {A} R C (m : list (list A)) i j :
  rect R C m → i < R → j < C → is_Some (get2 m i j).
Proof.
  intros [Hlen Hrows] Hi Hj. unfold get2.
  destruct (lookup_lt_is_Some_2 m i ltac:(lia)) as [row Hrow].
  rewrite Hrow. simpl. apply lookup_lt_is_Some_2.
  rewrite Forall_lookup in Hrows. rewrite (Hrows _ _ Hrow). done.
Qed.

Lemma rect_nrows {A} R C (m : list (list A)) : rect R C m → nrows m = R.
Proof. by intros [? _]. Qed.

Lemma rect_ncols {A} R C (m : list (list A)) :
  rect R C m → 0 < R → ncols m = C.
Proof.
  intros [Hlen Hrows] HR. unfold ncols. destruct m as [|row m]; simpl in *.
  - lia.
  - by apply Forall_inv in Hrows.
Qed.

Lemma get2_crop {A} (m : list (list A)) i j h w di dj :
  di < h → dj < w → get2 (crop m i j h w) di dj = get2 m (i + di) (j + dj).
Proof.
  intros Hi Hj. unfold get2, crop.
  rewrite list_lookup_fmap, lookup_take_lt, lookup_drop by done.
  destruct (m !! (i + di)); [simpl|done].
  by rewrite lookup_take_lt, lookup_drop.
Qed.

Lemma rect_crop {A} R C (m : list (list A)) i j h w :
  rect R C m → i + h ≤ R → j + w ≤ C → rect h w (crop m i j h w).
Proof.
  intros [Hlen Hrows] Hi Hj. unfold crop, rect.
  rewrite length_fmap, length_take, length_drop. split; [lia|].
  apply Forall_fmap, Forall_take, Forall_drop.
  eapply Forall_impl; [exact Hrows|]. intros row Hrow. unfold compose. simpl in *.
  rewrite length_take, length_drop, Hrow. lia.
Qed.

Lemma np_all_get2 m i j b :
  np_all m = true → get2 m i j = Some b → b = true.
Proof.
  unfold np_all, get2. intros Hall H.
  destruct (m !! i) as [row|] eqn:Hrow; [|done]. simpl in H.
  rewrite forallb_forall in Hall.
  apply list_elem_of_lookup_2, list_elem_of_In, Hall in Hrow.
  rewrite forallb_forall in Hrow.
  by apply list_elem_of_lookup_2, list_elem_of_In, Hrow in H.
Qed.

Lemma broadcast_axis_exact {A} n (l : list A) :
  length l = n → broadcast_axis n l = Some l.
Proof. intros H. unfold broadcast_axis. by rewrite decide_True. Qed.

(** A value of exactly the shape of the slot is stored as it is. *)
Lemma broadcast_to_exact {A} h w (m : list (list A)) :
  rect h w m → broadcast_to h w m = Some m.
Proof.
  intros [Hlen Hrows]. unfold broadcast_to.
  rewrite broadcast_axis_exact by done. simpl.
  apply mapM_Some, Forall2_same_length_lookup. split; [done|].
  intros k x y Hx Hy. assert (x = y) as -> by congruence.
  apply broadcast_axis_exact. rewrite Forall_lookup in Hrows. by eapply Hrows.
Qed.

(** ** The copy loop *)

Lemma copy_patches_Some {A} (data : list (list A)) ps idx np arr out :
  copy_patches data ps idx np arr = Some out → length arr = np →
  length out = np ∧
  ∀ k, k < np → ∃ a b patch,
    idx !! k = Some (a, b) ∧
    broadcast_to ps ps (crop data a b ps ps) = Some patch ∧
    out !! k = Some patch.
Proof.
  unfold copy_patches. intros Hrun Hlen.
  cut (length out = np ∧ ∀ k, k ∈ seq 0 np → ∃ a b patch,
         idx !! k = Some (a, b) ∧
         broadcast_to ps ps (crop data a b ps ps) = Some patch ∧
         out !! k = Some patch).
  { intros [? H]. split; [done|]. intros k Hk. apply H, elem_of_seq. lia. }
  apply (for_each_inv
    (λ pre s, length s = np ∧ ∀ k, k ∈ pre → ∃ a b patch,
       idx !! k = Some (a, b) ∧
       broadcast_to ps ps (crop data a b ps ps) = Some patch ∧
       s !! k = Some patch) _ _ _ _ Hrun).
  - split; [done|]. by intros k ?%elem_of_nil.
  - intros pre i s0 s1 Hpre [Hl HI] Hbody.
    assert (i < np) as Hi.
    { destruct Hpre as [rest Hpre].
      assert (i ∈ seq 0 np) as Hin; [|apply elem_of_seq in Hin; lia].
      rewrite Hpre, !elem_of_app, list_elem_of_singleton. auto. }
    destruct (idx !! i) as [[a b]|] eqn:Hidx; [|done]. simpl in Hbody.
    destruct (broadcast_to _ _ _) as [patch|] eqn:Hbc; [|done].
    simpl in Hbody. injection Hbody as <-.
    split; [by rewrite length_insert|]. intros k Hk.
    destruct (decide (k = i)) as [->|Hne].
    + exists a, b, patch. rewrite list_lookup_insert_eq by lia. done.
    + rewrite list_lookup_insert_ne by done. apply HI.
      rewrite elem_of_app, list_elem_of_singleton in Hk. tauto.
Qed.

Lemma copy_patches_is_Some {A} (data : list (list A)) ps idx np arr :
  (∀ k, k < np → ∃ a b, idx !! k = Some (a, b) ∧
     is_Some (broadcast_to ps ps (crop data a b ps ps))) →
  is_Some (copy_patches data ps idx np arr).
Proof.
  intros Hall. unfold copy_patches.
  destruct (for_each_is_Some (λ _ _, True)
    (λ i arr, '(a, b) ← idx !! i;
       patch ← broadcast_to ps ps (crop data a b ps ps);
       Some (<[i:=patch]> arr)) (seq 0 np) arr I) as (out & -> & _);
    [|by eexists].
  intros pre i s0 [rest Hpre] _.
  assert (i ∈ seq 0 np) as Hin.
  { rewrite Hpre, !elem_of_app, list_elem_of_singleton. auto. }
  apply elem_of_seq in Hin.
  destruct (Hall i ltac:(lia)) as (a & b & Hi & [patch Hp]).
  rewrite Hi. simpl. rewrite Hp. simpl. eauto.
Qed.

(** ** The masked extractor *)

Lemma patch_extractor_with_mask_Some {A} (zero : A) data mask np ps rnd
    patches :
  patch_extractor_with_mask zero data mask np ps rnd = Some patches →
  ∃ idx anchors,
    valid_anchors data mask ps = Some idx ∧
    sample_rows idx np rnd = Some anchors ∧
    sampled_anchors data mask np ps rnd = Some anchors ∧
    copy_patches data ps anchors np
      (replicate np (replicate ps (replicate ps zero))) = Some patches.
Proof.
  unfold patch_extractor_with_mask, sampled_anchors. intros H.
  destruct (valid_anchors data mask ps) as [idx|] eqn:Hv; [|done].
  simpl in *.
  destruct (sample_rows idx np rnd) as [anchors|] eqn:Hs; [|done].
  simpl in *. by exists idx, anchors.
Qed.

Lemma sampled_anchors_Some {A} (data : list (list A)) mask np ps rnd anchors :
  sampled_anchors data mask np ps rnd = Some anchors →
  ∃ idx, valid_anchors data mask ps = Some idx ∧
    0 < np ∧ np ≤ length idx ∧ length anchors = np ∧ NoDup anchors ∧
    ∀ p, p ∈ anchors → p ∈ idx.
Proof.
  unfold sampled_anchors. intros H.
  destruct (valid_anchors data mask ps) as [idx|] eqn:Hv; [|done].
  simpl in H. exists idx. split; [done|].
  apply (sample_rows_Some _ _ _ _ H). by eapply NoDup_valid_anchors.
Qed.

(** The validity scan never indexes out of range when the mask has the
    shape of the image. *)
Lemma find_valid_is_Some {A} R C (data : list (list A)) mask ps :
  rect R C data → rect R C mask → is_Some (find_valid data mask ps).
Proof.
  intros Hd Hm. unfold find_valid.
  set (Inv := λ (_ : list nat) (s : list (list nat)),
         ∀ i j, i < R → j < C → is_Some (get2 s i j)).
  assert (Inv [] (zeros_like mask)) as H0.
  { intros i j Hi Hj. rewrite get2_zeros_like.
    destruct (rect_get2 _ _ _ _ _ Hm Hi Hj) as [b ->]. by eexists. }
  destruct (for_each_is_Some Inv
    (λ i, for_each (λ j valid,
        if np_all (crop mask i j ps ps) then incr_at valid i j
        else Some valid) (seq 0 (ncols data - ps)))
    (seq 0 (nrows data - ps)) _ H0) as (v & -> & _); [|by eexists].
  intros pre i s0 [rest Hpre] HI.
  assert (i ∈ seq 0 (nrows data - ps)) as Hi.
  { rewrite Hpre, !elem_of_app, list_elem_of_singleton. auto. }
  apply elem_of_seq in Hi. rewrite (rect_nrows _ _ _ Hd) in Hi.
  rewrite (rect_ncols _ _ _ Hd) by lia.
  apply (for_each_is_Some (λ _, Inv pre)); [done|].
  intros pre' j s1 [rest' Hpre'] HI'.
  assert (j ∈ seq 0 (C - ps)) as Hj.
  { rewrite Hpre', !elem_of_app, list_elem_of_singleton. auto. }
  apply elem_of_seq in Hj.
  destruct (np_all _); [|by exists s1].
  destruct (incr_at_is_Some s1 i j) as [s2 Hs2]; [apply HI'; lia|].
  exists s2. split; [done|]. intros i' j' Hi' Hj'.
  rewrite (incr_at_get2 _ _ _ _ _ _ Hs2).
  destruct (HI' i' j' Hi' Hj') as [x ->]. by eexists.
Qed.

(** With an image and a mask of one shape, the masked extractor returns as
    soon as there are at least [num_patches >= 1] candidate anchors. *)
Lemma patch_extractor_with_mask_returns {A} (zero : A) R C data mask np ps
    rnd :
  rect R C data → rect R C mask →
  ∃ idx, valid_anchors data mask ps = Some idx ∧
    (0 < np → np ≤ length idx →
     is_Some (patch_extractor_with_mask zero data mask np ps rnd)).
Proof.
  intros Hd Hm. destruct (find_valid_is_Some _ _ _ _ ps Hd Hm) as [v Hv].
  assert (valid_anchors data mask ps = Some (argwhere v)) as Hidx.
  { unfold valid_anchors. by rewrite Hv. }
  exists (argwhere v). split; [done|]. intros Hpos Hle.
  destruct (sample_rows_is_Some (argwhere v) np rnd Hpos Hle)
    as [anchors Hs].
  unfold patch_extractor_with_mask, sampled_anchors. rewrite Hidx. simpl.
  rewrite Hs. simpl.
  destruct (sample_rows_Some _ _ _ _ Hs (NoDup_argwhere v))
    as (_ & _ & Hlen & _ & Hsub).
  apply copy_patches_is_Some. intros k Hk.
  destruct (lookup_lt_is_Some_2 anchors k ltac:(lia)) as [[a b] Hab].
  exists a, b. split; [done|].
  assert ((a, b) ∈ argwhere v) as Hin
    by (by eapply Hsub, list_elem_of_lookup_2).
  apply (elem_of_valid_anchors _ _ _ _ _ _ Hidx) in Hin as (Ha & Hb & _).
  rewrite (rect_nrows _ _ _ Hd) in Ha.
  rewrite (rect_ncols _ _ _ Hd) in Hb by lia.
  rewrite (broadcast_to_exact ps ps); [by eexists|].
  apply (rect_crop R C); [done|lia..].
Qed.

(** C2: every patch the masked extractor returns lies inside the validity
    mask.  For every sampled anchor [(a, b)] the mask window
    [mask[a:a+patch_size, b:b+patch_size]] is true everywhere (cell by cell
    when the mask has the shape of the image), and the patch returned at
    the position of that anchor is the crop
    [data[a:a+patch_size, b:b+patch_size]]. *)
Theorem patch_extractor_with_mask_inside_mask {A} (zero : A) R C
    (data : list (list A)) mask np ps rnd patches :
  rect R C data →
  patch_extractor_with_mask zero data mask np ps rnd = Some patches →
  ∃ anchors,
    sampled_anchors data mask np ps rnd = Some anchors ∧
    length anchors = np ∧ length patches = np ∧
    ∀ k a b, anchors !! k = Some (a, b) →
      np_all (crop mask a b ps ps) = true ∧
      patches !! k = Some (crop data a b ps ps) ∧
      (rect R C mask → ∀ di dj, di < ps → dj < ps →
         get2 mask (a + di) (b + dj) = Some true).
Proof.
  intros Hd (idx & anchors & Hidx & Hs & Hsa & Hcp)%patch_extractor_with_mask_Some.
  exists anchors. split; [done|].
  destruct (sampled_anchors_Some _ _ _ _ _ _ Hsa)
    as (idx' & Hidx' & Hpos & Hle & Hlen & Hnd & Hsub).
  assert (idx' = idx) as -> by congruence.
  apply copy_patches_Some in Hcp as [Hlenp Hcp];
    [|by rewrite length_replicate].
  split; [done|]. split; [done|]. intros k a b Hk.
  assert (k < np) as Hknp by (apply lookup_lt_Some in Hk; lia).
  apply list_elem_of_lookup_2 in Hk as Hin. apply Hsub in Hin.
  apply (elem_of_valid_anchors _ _ _ _ _ _ Hidx) in Hin
    as (Ha & Hb & Hall & Hcell).
  rewrite (rect_nrows _ _ _ Hd) in Ha.
  rewrite (rect_ncols _ _ _ Hd) in Hb by lia.
  split; [done|]. split.
  - destruct (Hcp k Hknp) as (a' & b' & patch & Hk' & Hbc & Hout).
    rewrite Hk in Hk'. injection Hk' as <- <-.
    rewrite (broadcast_to_exact ps ps) in Hbc
      by (apply (rect_crop R C); [done|lia..]).
    by injection Hbc as <-.
  - intros Hm di dj Hdi Hdj.
    destruct (rect_get2 _ _ _ (a + di) (b + dj) Hm) as [x Hx]; [lia..|].
    rewrite Hx. f_equal. apply (np_all_get2 _ di dj _ Hall).
    by rewrite get2_crop.
Qed.

Lemma patch_extractor_with_mask_inside_mask_witness :
  let data := (λ i, (λ j, 10 * i + j) <$> seq 0 4) <$> seq 0 4 in
  let mask := [[true; true; true; true]; [true; true; true; true];
               [true; true; false; true]; [true; true; true; true]] in
  ∃ anchors,
    sampled_anchors data mask 2 2 (λ i, 5 * i + 1) = Some anchors ∧
    length anchors = 2 ∧
    length [[[1; 2]; [11; 12]]; [[0; 1]; [10; 11]]] = 2 ∧
    ∀ k a b, anchors !! k = Some (a, b) →
      np_all (crop mask a b 2 2) = true ∧
      [[[1; 2]; [11; 12]]; [[0; 1]; [10; 11]]] !! k
        = Some (crop data a b 2 2) ∧
      (rect 4 4 mask → ∀ di dj, di < 2 → dj < 2 →
         get2 mask (a + di) (b + dj) = Some true).
Proof.
  intros data mask.
  apply (patch_extractor_with_mask_inside_mask 0 4 4 data mask 2 2
           (λ i, 5 * i + 1)).
  - split; [reflexivity|]. repeat constructor.
  - vm_compute. reflexivity.
Defined.

(** ** The anchors both extractors draw *)

Lemma sampled_anchors_unmasked_Some {A} (data : list (list A)) np ps rnd
    anchors :
  sampled_anchors_unmasked data np ps rnd = Some anchors →
  0 < np ∧ np ≤ length (valid_anchors_unmasked data ps) ∧
  length anchors = np ∧ NoDup anchors ∧
  ∀ p, p ∈ anchors → p ∈ valid_anchors_unmasked data ps.
Proof.
  intros H. apply (sample_rows_Some _ _ _ _ H). apply NoDup_argwhere.
Qed.

Lemma fully_false_get2 mask i j b :
  fully_false mask → get2 mask i j = Some b → b = false.
Proof.
  unfold fully_false, get2. intros Hff H.
  destruct (mask !! i) as [row|] eqn:Hrow; [|done]. simpl in H.
  rewrite Forall_lookup in Hff. specialize (Hff _ _ Hrow).
  rewrite Forall_lookup in Hff. exact (Hff _ _ H).
Qed.

(** On a fully-false mask no window of positive size is all true. *)
Lemma fully_false_no_anchor {A} (data : list (list A)) mask ps idx :
  fully_false mask → 0 < ps →
  valid_anchors data mask ps = Some idx → idx = [].
Proof.
  intros Hff Hps Hidx. destruct idx as [|[a b] rest]; [done|].
  assert ((a, b) ∈ (a, b) :: rest) as Hin by (apply elem_of_cons; by left).
  apply (elem_of_valid_anchors _ _ _ _ _ _ Hidx) in Hin
    as (_ & _ & Hall & [x Hx]).
  pose proof (fully_false_get2 _ _ _ _ Hff Hx) as ->.
  assert (get2 (crop mask a b ps ps) 0 0 = Some false) as Hc.
  { rewrite get2_crop by done. by rewrite !Nat.add_0_r. }
  by apply (np_all_get2 _ _ _ _ Hall) in Hc.
Qed.

(** C3, as stated, fails in its example: with [patch_size = 0] every mask
    window is empty, [np.all] of it is true, and the request for one patch
    on a fully-false mask returns one empty patch. *)
Lemma fully_false_mask_may_return : ¬ fully_false_mask_fails.
Proof.
  intros H.
  specialize (H nat 0 [[5]] [[false]] 0 (λ _, 0)).
  assert (fully_false [[false]]) as Hff by (repeat constructor).
  specialize (H Hff). vm_compute in H. discriminate H.
Qed.

(** C3 (amended): both extractors sample anchors without replacement (the
    sampled anchors are pairwise distinct and there are [num_patches] of
    them), and a request for more patches than there are valid anchors
    fails instead of truncating; in particular a fully-false mask with one
    requested patch fails for every patch size of at least 1. *)
Theorem patch_sampling_without_replacement {A} (zero : A)
    (data : list (list A)) mask np ps rnd :
  (∀ anchors, sampled_anchors data mask np ps rnd = Some anchors →
     NoDup anchors ∧ length anchors = np) ∧
  (∀ anchors, sampled_anchors_unmasked data np ps rnd = Some anchors →
     NoDup anchors ∧ length anchors = np) ∧
  (∀ idx, valid_anchors data mask ps = Some idx → length idx < np →
     patch_extractor_with_mask zero data mask np ps rnd = None) ∧
  (length (valid_anchors_unmasked data ps) < np →
     patch_extractor zero data np ps rnd = None) ∧
  (fully_false mask → 0 < ps →
     patch_extractor_with_mask zero data mask 1 ps rnd = None).
Proof.
  split; [|split; [|split; [|split]]].
  - intros anchors (idx & _ & _ & _ & ? & ? & _)%sampled_anchors_Some. done.
  - intros anchors (_ & _ & ? & ? & _)%sampled_anchors_unmasked_Some. done.
  - intros idx Hidx Hlt. unfold patch_extractor_with_mask, sampled_anchors.
    rewrite Hidx. simpl. by rewrite sample_rows_None.
  - intros Hlt. unfold patch_extractor, sampled_anchors_unmasked.
    by rewrite sample_rows_None.
  - intros Hff Hps. unfold patch_extractor_with_mask, sampled_anchors.
    destruct (valid_anchors data mask ps) as [idx|] eqn:Hidx; [|done].
    by rewrite (fully_false_no_anchor _ _ _ _ Hff Hps Hidx).
Qed.

Lemma patch_sampling_without_replacement_witness :
  patch_extractor_with_mask 0 (replicate 10 (replicate 10 7))
    (replicate 10 (replicate 10 false)) 1 16 (λ _, 0) = None.
Proof.
  apply (patch_sampling_without_replacement 0 (replicate 10 (replicate 10 7))
           (replicate 10 (replicate 10 false)) 1 16 (λ _, 0)).
  - unfold fully_false. repeat constructor.
  - lia.
Defined.

(** C10: the validity scan of the masked extractor runs over the rows
    [0 .. rows - patch_size) and the columns [0 .. cols - patch_size) only.
    An anchor in row [rows - patch_size] or column [cols - patch_size] is
    never a candidate and never sampled, even when its footprint fits in
    the image and the mask is true all over it: in a 3 x 3 image under an
    all-true mask and with 2 x 2 patches, [(0, 0)] is the only candidate,
    although the patches anchored at [(0, 1)], [(1, 0)] and [(1, 1)] fit. *)
Theorem masked_anchors_exclude_last_row_and_column :
  (∀ (A : Type) (data : list (list A)) mask ps idx a b,
     valid_anchors data mask ps = Some idx →
     ((a, b) ∈ idx ↔
        a < nrows data - ps ∧ b < ncols data - ps ∧
        np_all (crop mask a b ps ps) = true ∧ is_Some (get2 mask a b)) ∧
     (a = nrows data - ps ∨ b = ncols data - ps → (a, b) ∉ idx)) ∧
  (∀ (A : Type) (data : list (list A)) mask np ps rnd anchors a b,
     sampled_anchors data mask np ps rnd = Some anchors →
     (a, b) ∈ anchors → a ≠ nrows data - ps ∧ b ≠ ncols data - ps) ∧
  (let data := [[0; 1; 2]; [10; 11; 12]; [20; 21; 22]] in
   let mask := replicate 3 (replicate 3 true) in
   valid_anchors data mask 2 = Some [(0, 0)] ∧
   nrows data - 2 = 1 ∧ ncols data - 2 = 1 ∧
   rect 2 2 (crop data 1 1 2 2) ∧ np_all (crop mask 1 1 2 2) = true ∧
   ∀ rnd, patch_extractor_with_mask 0 data mask 2 2 rnd = None).
Proof.
  split; [|split].
  - intros A data mask ps idx a b Hidx.
    pose proof (elem_of_valid_anchors data mask ps idx a b Hidx) as Hiff.
    split; [done|]. intros Hlast Hin. apply Hiff in Hin. lia.
  - intros A data mask np ps rnd anchors a b Hs Hin.
    destruct (sampled_anchors_Some _ _ _ _ _ _ Hs)
      as (idx & Hidx & _ & _ & _ & _ & Hsub).
    apply Hsub, (elem_of_valid_anchors _ _ _ _ _ _ Hidx) in Hin. lia.
  - intros data mask. split; [vm_compute; reflexivity|].
    split; [reflexivity|]. split; [reflexivity|].
    split; [split; [reflexivity|repeat constructor]|].
    split; [reflexivity|]. intros rnd.
    unfold patch_extractor_with_mask, sampled_anchors.
    assert (valid_anchors data mask 2 = Some [(0, 0)]) as ->
      by (vm_compute; reflexivity).
    reflexivity.
Qed.

(** ** Band resampling *)

Lemma assign_masked_length {A} (mask : list bool) : ∀ (out vals : list A),
  length (assign_masked mask out vals) = length out.
Proof.
  induction mask as [|[] mask IH]; intros [|x out] vals; simpl; try done.
  - destruct vals; simpl; f_equal; apply IH.
  - f_equal; apply IH.
Qed.

(** The rows the mask rejects are not written. *)
Lemma assign_masked_false {A} (mask : list bool) : ∀ (out vals : list A) p,
  mask !! p = Some false → assign_masked mask out vals !! p = out !! p.
Proof.
  induction mask as [|[] mask IH]; intros [|x out] vals p Hp; simpl;
    try done.
  - destruct p as [|p]; simpl in Hp; [done|].
    destruct vals; simpl; by apply IH.
  - destruct p as [|p]; simpl in Hp; [done|]. simpl. by apply IH.
Qed.

Lemma assign_masked_Forall {A} (P : A → Prop) (mask : list bool) :
  ∀ (out vals : list A),
  Forall P out → Forall P vals → Forall P (assign_masked mask out vals).
Proof.
  induction mask as [|[] mask IH]; intros out vals Hout Hvals; [done|..];
    destruct Hout as [|x out Hx Hout]; simpl; try done.
  - destruct Hvals as [|v vals Hv Hvals]; constructor; try done;
      apply IH; by try constructor.
  - constructor; [done|]. by apply IH.
Qed.

Lemma chunks_length {A} k n : ∀ l : list A, length (chunks k n l) = n.
Proof. induction n as [|n IH]; intros l; simpl; [done|]. by rewrite IH. Qed.

Lemma chunks_Forall {A} k n : ∀ l : list A,
  length l = n * k → Forall (λ c, length c = k) (chunks k n l).
Proof.
  induction n as [|n IH]; intros l Hl; simpl; constructor.
  - rewrite length_take. lia.
  - apply IH. rewrite length_drop. lia.
Qed.

(** Cutting a concatenation of equally long rows gives the rows back. *)
Lemma chunks_concat {A} k (m : list (list A)) :
  Forall (λ row, length row = k) m → chunks k (length m) (concat m) = m.
Proof.
  induction 1 as [|row m Hrow Hm IH]; simpl; [done|].
  rewrite take_app_length', drop_app_length' by done. by rewrite IH.
Qed.

Lemma size2_uniform {A} k (m : list (list A)) :
  Forall (λ row, length row = k) m → size2 m = length m * k.
Proof.
  unfold size2. induction 1 as [|row m Hrow Hm IH]; simpl; [done|].
  rewrite length_app. lia.
Qed.

Lemma lookup_concat_rect {A} R C (m : list (list A)) r c :
  rect R C m → c < C → concat m !! (r * C + c) = get2 m r c.
Proof.
  intros [_ Hrows] Hc. clear R. revert r.
  induction Hrows as [|row m Hrow Hm IH]; intros r; [done|].
  unfold get2. simpl. destruct r as [|r]; simpl.
  - rewrite lookup_app_l by lia. done.
  - rewrite lookup_app_r by lia.
    replace (C + r * C + c - length row) with (r * C + c) by lia. apply IH.
Qed.

Lemma rect_concat_length {A} R C (m : list (list A)) :
  rect R C m → length (concat m) = R * C.
Proof.
  intros Hm. change (size2 m = R * C). destruct Hm as [<- Hrows].
  by apply size2_uniform.
Qed.

Lemma mapM_broadcast_axis_Forall {A} k (vals vals' : list (list A)) :
  mapM (broadcast_axis k) vals = Some vals' →
  Forall (λ row, length row = k) vals'.
Proof.
  intros H%mapM_Some_1. induction H as [|v v' vals vals' Hv _ IH];
    constructor; [|done].
  unfold broadcast_axis in Hv. case_decide; [by injection Hv as <-|].
  destruct v as [|x [|? ?]]; try done. injection Hv as <-.
  by rewrite length_replicate.
Qed.

Lemma mapM_broadcast_axis_exact {A} k (vals : list (list A)) :
  Forall (λ row, length row = k) vals →
  mapM (broadcast_axis k) vals = Some vals.
Proof.
  intros H. apply mapM_Some. induction H; constructor; [|done].
  by apply broadcast_axis_exact.
Qed.

Section resample_facts.

Context {V : Type}.
Variable zero : V.
Variable add : V → V → V.
Variable mul : V → V → V.
Variable isnan : V → bool.
Variable BandResampler :
  list V → list V → list V → list V → option (list (list V)).

Lemma nan_to_zero_length out :
  length (nan_to_zero zero isnan out) = length out.
Proof. unfold nan_to_zero. by rewrite length_fmap. Qed.

Lemma nan_to_zero_size2 out : size2 (nan_to_zero zero isnan out) = size2 out.
Proof.
  unfold size2, nan_to_zero. induction out as [|row out IH]; [done|].
  rewrite fmap_cons. simpl. by rewrite !length_app, IH, length_fmap.
Qed.

Lemma nan_to_zero_Forall k out :
  Forall (λ row, length row = k) out →
  Forall (λ row, length row = k) (nan_to_zero zero isnan out).
Proof.
  intros H. unfold nan_to_zero. apply Forall_fmap.
  eapply Forall_impl; [exact H|]. intros row Hrow. simpl.
  by rewrite length_fmap.
Qed.

Lemma nan_to_zero_zeros k :
  (λ x, if isnan x then zero else x) <$> replicate k zero
  = replicate k zero.
Proof.
  induction k as [|k IH]; [done|]. rewrite replicate_S, fmap_cons, IH.
  by destruct (isnan zero).
Qed.

Lemma matmul_Some matrix n px out :
  matmul zero add mul matrix n px = Some out →
  length out = length px ∧ Forall (λ row, length row = length matrix) out.
Proof.
  unfold matmul. case_decide; [|done]. intros [= <-].
  rewrite length_fmap. split; [done|]. apply Forall_fmap, Forall_forall.
  intros p _. simpl. by rewrite length_fmap.
Qed.

Lemma matmul_is_Some matrix K n px :
  rect K n matrix → is_Some (matmul zero add mul matrix n px).
Proof. intros [_ H]. unfold matmul. rewrite decide_True by done. by eexists. Qed.

(** What a returned cube is made of. *)
Lemma band_resample_Some data b1 b2 f1 f2 mask res :
  band_resample_hsi_cube zero add mul isnan BandResampler data b1 b2 f1 f2
    mask = Some res →
  ∃ out,
    size2 out = height data * width data * length b2 ∧
    res = Cube (height data) (width data) (length b2)
               (chunks (length b2) (height data * width data)
                  (concat (nan_to_zero zero isnan out))) ∧
    match mask with
    | None => True
    | Some m => ∃ vals,
        Forall (λ row, length row = length b2) vals ∧
        out = assign_masked (concat m)
                (replicate (length (pixels data))
                   (replicate (length b2) zero)) vals
    end.
Proof.
  unfold band_resample_hsi_cube. intros H.
  destruct (BandResampler b1 b2 f1 f2) as [matrix|]; [|done]. simpl in H.
  case_decide; [done|].
  destruct (match mask with Some _ => _ | None => _ end) as [out|] eqn:Hout;
    [|done]. simpl in H. unfold reshape3 in H. case_decide as Hsz; [|done].
  injection H as <-. exists out. split.
  { by rewrite nan_to_zero_size2 in Hsz. }
  split; [done|]. destruct mask as [m|]; [|done].
  case_decide; [|done].
  destruct (matmul _ _ _ _ _ _) as [vals0|]; [|done]. simpl in Hout.
  destruct (mapM _ vals0) as [vals|] eqn:Hbc; [|done]. simpl in Hout.
  injection Hout as <-. exists vals. split; [|done].
  by eapply mapM_broadcast_axis_Forall.
Qed.

End resample_facts.

Section resample_facts.

Context {V : Type}.
Variable zero : V.
Variable add : V → V → V.
Variable mul : V → V → V.
Variable isnan : V → bool.
Variable BandResampler :
  list V → list V → list V → list V → option (list (list V)).

Local Abbreviation resample :=
  (band_resample_hsi_cube zero add mul isnan BandResampler).

(** C4: when [band_resample_hsi_cube] is called with a mask, every band
    value of the output is zero at every pixel position where the mask is
    false. *)
Theorem band_resample_zero_outside_mask data b1 b2 f1 f2 mask res r c :
  wf_cube data →
  rect (height data) (width data) mask →
  resample data b1 b2 f1 f2 (Some mask) = Some res →
  get2 mask r c = Some false →
  spectrum_at res r c = Some (replicate (length b2) zero).
Proof.
  intros [Hlen Hpx] Hm Hres Hcell.
  destruct (band_resample_Some _ _ _ _ _ _ _ _ _ _ _ _ Hres)
    as (out & Hsz & -> & vals & Hvals & ->).
  assert (r < height data ∧ c < width data) as [Hr Hc].
  { unfold get2 in Hcell. destruct Hm as [HmR HmC].
    destruct (mask !! r) as [row|] eqn:Hrow; [|done]. simpl in Hcell.
    rewrite Forall_lookup in HmC. rewrite <- (HmC _ _ Hrow), <- HmR.
    split; by eapply lookup_lt_Some. }
  unfold spectrum_at. simpl. rewrite decide_True by done.
  set (zeros := replicate (length (pixels data)) (replicate (length b2) zero)).
  assert (Forall (λ row : list V, length row = length b2)
            (assign_masked (concat mask) zeros vals)) as Hrows.
  { apply assign_masked_Forall; [|done]. apply Forall_replicate.
    by rewrite length_replicate. }
  assert (length (assign_masked (concat mask) zeros vals)
          = height data * width data) as Hcount.
  { rewrite assign_masked_length. unfold zeros.
    by rewrite length_replicate. }
  rewrite <- Hcount at 1. rewrite <- (nan_to_zero_length zero isnan).
  rewrite chunks_concat by (by apply nan_to_zero_Forall).
  unfold nan_to_zero. rewrite list_lookup_fmap.
  rewrite assign_masked_false
    by (by rewrite (lookup_concat_rect _ _ _ _ _ Hm Hc)).
  unfold zeros. rewrite lookup_replicate_2 by (rewrite Hlen; nia).
  simpl. by rewrite nan_to_zero_zeros.
Qed.

(** C8: a cube returned by [band_resample_hsi_cube] has the spatial
    dimensions of the input cube and as many bands as there are target
    band centers; and for a consistent configuration (the library's matrix
    has one row per target band and one column per source band, the cube
    has the source band count, a mask has the spatial shape of the cube)
    the call does return. *)
Theorem band_resample_shape data b1 b2 f1 f2 mask :
  wf_cube data →
  (∀ res, resample data b1 b2 f1 f2 mask = Some res →
     height res = height data ∧ width res = width data ∧
     bands res = length b2 ∧ wf_cube res) ∧
  (∀ matrix,
     BandResampler b1 b2 f1 f2 = Some matrix →
     rect (length b2) (length b1) matrix →
     length b1 = bands data → 0 < bands data →
     from_option (rect (height data) (width data)) True mask →
     is_Some (resample data b1 b2 f1 f2 mask)).
Proof.
  intros [Hlen Hpx]. split.
  - intros res Hres.
    destruct (band_resample_Some _ _ _ _ _ _ _ _ _ _ _ _ Hres)
      as (out & Hsz & -> & _). simpl. repeat split; try done.
    + apply chunks_length.
    + apply chunks_Forall.
      change (size2 (nan_to_zero zero isnan out)
              = height data * width data * length b2).
      by rewrite nan_to_zero_size2.
  - intros matrix Hmat Hshape Hb Hpos Hmask.
    unfold band_resample_hsi_cube. rewrite Hmat. simpl.
    rewrite decide_False by lia. rewrite <- Hb.
    assert (∀ px, ∃ out, matmul zero add mul matrix (length b1) px = Some out
              ∧ length out = length px
              ∧ Forall (λ row, length row = length b2) out) as Hmm.
    { intros px. destruct (matmul_is_Some zero add mul _ _ _ px Hshape)
        as [out Hout]. exists out. split; [done|].
      destruct (matmul_Some _ _ _ _ _ _ _ Hout) as [? H].
      split; [done|]. by rewrite (proj1 Hshape) in H. }
    assert (∀ out, length out = height data * width data →
              Forall (λ row : list V, length row = length b2) out →
              is_Some (reshape3 (nan_to_zero zero isnan out) (height data)
                         (width data) (length b2))) as Hreshape.
    { intros out Hn Hrows. unfold reshape3.
      rewrite decide_True; [by eexists|].
      rewrite nan_to_zero_size2, (size2_uniform _ _ Hrows). lia. }
    destruct mask as [m|]; simpl in Hmask.
    + rewrite decide_True by (by rewrite (rect_concat_length _ _ _ Hmask)).
      destruct (Hmm (select_masked (concat m) (pixels data)))
        as (vals & -> & _ & Hvals). simpl.
      rewrite (mapM_broadcast_axis_exact _ _ Hvals). simpl.
      apply Hreshape.
      * by rewrite assign_masked_length, length_replicate.
      * apply assign_masked_Forall; [|done]. apply Forall_replicate.
        by rewrite length_replicate.
    + destruct (Hmm (pixels data)) as (out & -> & Hn & Hrows). simpl.
      apply Hreshape; [lia|done].
Qed.

End resample_facts.

Lemma band_resample_zero_outside_mask_witness :
  spectrum_at
    (Cube 2 2 2 [[3; 1]; [0; 0]; [9; 7]; [12; 10]]%Z) 0 1
  = Some (replicate 2 0%Z).
Proof.
  apply (band_resample_zero_outside_mask 0%Z Z.add Z.mul (λ _, false)
           nearest_band_matrix demo_cube [10; 20; 30]%Z [30; 10]%Z [] []
           [[true; false]; [true; true]]).
  - split; [reflexivity|]. repeat constructor.
  - split; [reflexivity|]. repeat constructor.
  - vm_compute. reflexivity.
  - reflexivity.
Defined.

Lemma band_resample_shape_witness :
  is_Some (band_resample_hsi_cube 0%Z Z.add Z.mul (λ _, false)
             nearest_band_matrix demo_cube [10; 20; 30]%Z [30; 10]%Z [] []
             None).
Proof.
  assert (wf_cube demo_cube) as Hwf
    by (split; [reflexivity|repeat constructor]).
  apply (proj2 (band_resample_shape 0%Z Z.add Z.mul (λ _, false)
                  nearest_band_matrix demo_cube [10; 20; 30]%Z [30; 10]%Z
                  [] [] None Hwf)
           [[0; 0; 1]; [1; 0; 0]]%Z).
  - reflexivity.
  - split; [reflexivity|repeat constructor].
  - reflexivity.
  - simpl. lia.
  - exact I.
Defined.

(** ** Hyperion cube assembly *)

Lemma calIdx_lookup k :
  k < 198 →
  calIdx !! k = Some (if decide (k < 50) then 7 + k else 76 + (k - 50)).
Proof.
  intros Hk. unfold calIdx. case_decide.
  - rewrite lookup_app_l by (rewrite length_seq; lia).
    by rewrite lookup_seq_lt.
  - rewrite lookup_app_r by (rewrite length_seq; lia).
    rewrite length_seq, lookup_seq_lt by lia. done.
Qed.

#[local] Instance name_le_dec : RelDecision name_le.
Proof. intros f g. unfold name_le. apply _. Defined.

#[local] Instance name_le_total : Total name_le.
Proof.
  intros f g. unfold name_le.
  destruct (String.leb_total f.1 g.1) as [->| ->]; auto.
Qed.

Lemma sorted_files_spec files :
  Sorted name_le (sorted_files files) ∧ sorted_files files ≡ₚ files.
Proof.
  split; [apply (Sorted_merge_sort name_le)|apply merge_sort_Permutation].
Qed.

Lemma broadcast_axis_length {A} n (l l' : list A) :
  broadcast_axis n l = Some l' → length l' = n.
Proof.
  unfold broadcast_axis. case_decide; [by intros [= <-]|].
  destruct l as [|x [|? ?]]; try done. intros [= <-].
  by rewrite length_replicate.
Qed.

Lemma broadcast_to_rect {A} h w (m m' : list (list A)) :
  broadcast_to h w m = Some m' → rect h w m'.
Proof.
  unfold broadcast_to. intros H.
  destruct (broadcast_axis h m) as [rows|] eqn:Hrows; [|done]. simpl in H.
  split.
  - rewrite <- (length_mapM _ _ _ H). by eapply broadcast_axis_length.
  - apply mapM_Some_1 in H. clear Hrows.
    induction H as [|? ? ? ? Hx _ IH]; constructor; [|done].
    by eapply broadcast_axis_length.
Qed.

Lemma get2_zip_with {A B C} (f : A → B → C) (d : list (list A))
    (m : list (list B)) r c :
  get2 (zip_with (zip_with f) d m) r c
  = px ← get2 d r c; x ← get2 m r c; Some (f px x).
Proof.
  unfold get2. rewrite lookup_zip_with.
  destruct (d !! r) as [drow|]; [simpl|done].
  destruct (m !! r) as [mrow|]; simpl.
  - rewrite lookup_zip_with. by destruct (drow !! c).
  - by destruct (drow !! c).
Qed.

Lemma rect_zip_with {A B C} (f : A → B → C) R C0 (d : list (list A))
    (m : list (list B)) :
  rect R C0 d → rect R C0 m → rect R C0 (zip_with (zip_with f) d m).
Proof.
  intros [Hd Hdr] [Hm Hmr]. split; [rewrite length_zip_with; lia|].
  apply Forall_lookup. intros i row. rewrite lookup_zip_with.
  destruct (d !! i) as [drow|] eqn:Hdi; [simpl|done].
  destruct (m !! i) as [mrow|] eqn:Hmi; [simpl|done]. intros [= <-].
  rewrite Forall_lookup in Hdr. rewrite Forall_lookup in Hmr.
  rewrite length_zip_with, (Hdr _ _ Hdi), (Hmr _ _ Hmi). lia.
Qed.

Lemma rect_get2_Some {A} R C (m : list (list A)) i j x :
  rect R C m → get2 m i j = Some x → i < R ∧ j < C.
Proof.
  intros [Hlen Hrows] H. unfold get2 in H.
  destruct (m !! i) as [row|] eqn:Hrow; [|done]. simpl in H.
  rewrite Forall_lookup in Hrows. rewrite <- (Hrows _ _ Hrow), <- Hlen.
  split; by eapply lookup_lt_Some.
Qed.

(** Dividing the bands [lo .. hi) of a pixel. *)
Lemma scale_lookup {V} (f : V → V) lo hi (px : list V) k :
  lo ≤ hi → hi ≤ length px →
  (take lo px ++ (f <$> take (hi - lo) (drop lo px)) ++ drop hi px) !! k
  = if decide (lo ≤ k < hi) then f <$> px !! k else px !! k.
Proof.
  intros Hlo Hhi. destruct (decide (k < lo)) as [Hk|Hk].
  - rewrite lookup_app_l by (rewrite length_take; lia).
    rewrite lookup_take_lt by done. by rewrite decide_False by lia.
  - rewrite lookup_app_r by (rewrite length_take; lia).
    rewrite length_take, Nat.min_l by lia.
    destruct (decide (k < hi)) as [Hk'|Hk'].
    + rewrite lookup_app_l
        by (rewrite length_fmap, length_take, length_drop; lia).
      rewrite list_lookup_fmap, lookup_take_lt, lookup_drop by lia.
      rewrite decide_True by lia. do 2 f_equal. lia.
    + rewrite lookup_app_r
        by (rewrite length_fmap, length_take, length_drop; lia).
      rewrite length_fmap, length_take, length_drop, lookup_drop.
      rewrite decide_False by lia. f_equal. lia.
Qed.

Lemma scale_length {V} (f : V → V) lo hi (px : list V) :
  lo ≤ hi → hi ≤ length px →
  length (take lo px ++ (f <$> take (hi - lo) (drop lo px)) ++ drop hi px)
  = length px.
Proof.
  intros. rewrite !length_app, length_fmap, !length_take, !length_drop. lia.
Qed.

Lemma rect_replicate {A} R C (x : A) : rect R C (replicate R (replicate C x)).
Proof.
  split; [by rewrite length_replicate|]. apply Forall_replicate.
  by rewrite length_replicate.
Qed.

Lemma get2_replicate {A} R C (x y : A) r c :
  get2 (replicate R (replicate C x)) r c = Some y → y = x.
Proof.
  unfold get2. intros H.
  destruct (replicate R _ !! r) as [row|] eqn:Hrow; [|done]. simpl in H.
  apply lookup_replicate in Hrow as [-> _].
  by apply lookup_replicate in H as [-> _].
Qed.

Lemma get2_fmap {A B} (f : A → B) (m : list (list A)) r c :
  get2 ((λ row : list A, f <$> row) <$> m) r c = f <$> get2 m r c.
Proof.
  unfold get2. rewrite list_lookup_fmap.
  destruct (m !! r) as [row|]; [simpl|done]. by rewrite list_lookup_fmap.
Qed.

Lemma rect_fmap {A B} (f : A → B) R C (m : list (list A)) :
  rect R C m → rect R C ((λ row : list A, f <$> row) <$> m).
Proof.
  intros [Hlen Hrows]. split; [by rewrite length_fmap|].
  apply Forall_fmap. eapply Forall_impl; [exact Hrows|].
  intros row Hrow. simpl. by rewrite length_fmap.
Qed.

Section hyperion_facts.

Context {V : Type}.
Variable zero : V.
Variable cast : Z → V.
Variable divide : V → Z → V.

Lemma set_band_Some R C data i img data' :
  set_band cast R C data i img = Some data' → rect R C data →
  ∃ img', broadcast_to R C img = Some img' ∧ rect R C data' ∧
    ∀ r c px, get2 data' r c = Some px →
      ∃ px0 x, get2 data r c = Some px0 ∧ get2 img' r c = Some x ∧
               px = <[i:=cast x]> px0.
Proof.
  unfold set_band. intros H Hd.
  destruct (broadcast_to R C img) as [img'|] eqn:Hbc; [|done].
  simpl in H. injection H as <-. exists img'. split; [done|].
  pose proof (broadcast_to_rect _ _ _ _ Hbc) as Hi.
  split; [by apply rect_zip_with|]. intros r c px.
  rewrite get2_zip_with.
  destruct (get2 data r c) as [px0|]; [simpl|done].
  destruct (get2 img' r c) as [x|]; [simpl|done]. intros [= <-]. eauto.
Qed.

Lemma set_band_is_Some R C data i img :
  rect R C img → is_Some (set_band cast R C data i img).
Proof.
  intros Hi. unfold set_band. rewrite (broadcast_to_exact _ _ _ Hi).
  by eexists.
Qed.

(** The cube before calibration: band [k] of every pixel is the sample of
    file [calIdx[k]] of the sorted listing. *)
Lemma stacked_bands (dataFN : list (string * raster)) R C d0 d1 name0 tmp :
  dataFN !! 7 = Some (name0, tmp) →
  set_band cast R C (replicate R (replicate C (replicate 198 zero))) 0 tmp
    = Some d0 →
  for_each
    (λ i data, idx ← calIdx !! i; '(_, img) ← dataFN !! idx;
               set_band cast R C data i img) (seq 1 197) d0 = Some d1 →
  rect R C d1 ∧
  ∀ r c px, get2 d1 r c = Some px →
    length px = 198 ∧
    ∀ k, k < 198 → ∃ idx name img img' x,
      calIdx !! k = Some idx ∧ dataFN !! idx = Some (name, img) ∧
      broadcast_to R C img = Some img' ∧ get2 img' r c = Some x ∧
      px !! k = Some (cast x).
Proof.
  intros Hfirst H0 Hloop.
  set (Inv := λ (pre : list nat) (s : list (list (list V))),
    rect R C s ∧
    ∀ r c px, get2 s r c = Some px →
      length px = 198 ∧
      ∀ k, k ∈ 0 :: pre → ∃ idx name img img' x,
        calIdx !! k = Some idx ∧ dataFN !! idx = Some (name, img) ∧
        broadcast_to R C img = Some img' ∧ get2 img' r c = Some x ∧
        px !! k = Some (cast x)).
  assert (Inv (seq 1 197) d1) as [Hrect HI].
  { apply (for_each_inv Inv _ _ _ _ Hloop).
    - destruct (set_band_Some _ _ _ _ _ _ H0 (rect_replicate _ _ _))
        as (img' & Hbc & Hrect & Hcells).
      split; [done|]. intros r c px Hpx.
      destruct (Hcells _ _ _ Hpx) as (px0 & x & Hpx0 & Hx & ->).
      apply get2_replicate in Hpx0 as ->.
      rewrite length_insert, length_replicate. split; [done|].
      intros k ->%list_elem_of_singleton.
      exists 7, name0, tmp, img', x.
      repeat split; try done;
        try (apply list_lookup_insert_eq; rewrite length_replicate; lia).
    - intros pre i s0 s1 Hpre [Hrect HI] Hbody.
      assert (i ∈ seq 1 197) as Hi.
      { destruct Hpre as [rest ->].
        rewrite !elem_of_app, list_elem_of_singleton. auto. }
      apply elem_of_seq in Hi.
      destruct (calIdx !! i) as [idx|] eqn:Hidx; [|done]. simpl in Hbody.
      destruct (dataFN !! idx) as [[name img]|] eqn:Hfile; [|done].
      simpl in Hbody.
      destruct (set_band_Some _ _ _ _ _ _ Hbody Hrect)
        as (img' & Hbc & Hrect' & Hcells).
      split; [done|]. intros r c px Hpx.
      destruct (Hcells _ _ _ Hpx) as (px0 & x & Hpx0 & Hx & ->).
      destruct (HI _ _ _ Hpx0) as [Hlen Hbands].
      rewrite length_insert. split; [done|]. intros k Hk.
      destruct (decide (k = i)) as [->|Hne].
      + exists idx, name, img, img', x.
        repeat split; try done; try (apply list_lookup_insert_eq; lia).
      + rewrite list_lookup_insert_ne by done. apply Hbands.
        rewrite !elem_of_cons, elem_of_app, list_elem_of_singleton in Hk.
        rewrite elem_of_cons. tauto. }
  split; [done|]. intros r c px Hpx. destruct (HI _ _ _ Hpx) as [Hlen Hb].
  split; [done|]. intros k Hk. apply Hb. rewrite elem_of_cons, elem_of_seq.
  lia.
Qed.

Lemma scale_bands_get2 lo hi z data r c :
  get2 (scale_bands divide lo hi z data) r c
  = (λ px, take lo px ++ ((λ x, divide x z) <$> take (hi - lo) (drop lo px))
             ++ drop hi px) <$> get2 data r c.
Proof. unfold scale_bands. apply get2_fmap. Qed.

(** C7: the cube [read_hyperion_HSI_data] returns has 198 bands.  Band
    [k] of every pixel is the sample of the file at index [7 + k] (for
    [k < 50]) or [76 + (k - 50)] (for [50 <= k < 198]) of the
    lexicographically sorted listing, divided by 40 in the first block of
    50 bands and by 80 in the remaining 148. *)
Theorem read_hyperion_bands files data :
  read_hyperion_HSI_data zero cast divide files = Some data →
  Sorted name_le (sorted_files files) ∧ sorted_files files ≡ₚ files ∧
  ∃ name0 tmp,
    sorted_files files !! 7 = Some (name0, tmp) ∧
    rect (nrows tmp) (ncols tmp) data ∧
    ∀ r c px, get2 data r c = Some px →
      length px = 198 ∧
      ∀ k, k < 198 → ∃ name img img' x,
        sorted_files files
          !! (if decide (k < 50) then 7 + k else 76 + (k - 50))
          = Some (name, img) ∧
        broadcast_to (nrows tmp) (ncols tmp) img = Some img' ∧
        get2 img' r c = Some x ∧
        px !! k
          = Some (divide (cast x) (if decide (k < 50) then 40%Z else 80%Z)).
Proof.
  intros H. destruct (sorted_files_spec files) as [Hsorted Hperm].
  split; [done|]. split; [done|].
  unfold read_hyperion_HSI_data in H.
  apply bind_Some in H as (i0 & [= <-] & H).
  apply bind_Some in H as ([name0 tmp] & Hfirst & H).
  apply bind_Some in H as (d0 & H0 & H).
  apply bind_Some in H as (d1 & Hloop & [= <-]).
  exists name0, tmp. split; [done|].
  destruct (stacked_bands _ _ _ _ _ _ _ Hfirst H0 Hloop) as [Hrect Hcells].
  split. { unfold scale_bands. by do 2 apply rect_fmap. }
  intros r c px. rewrite !scale_bands_get2.
  intros (px1 & (px0 & Hpx0 & ->)%fmap_Some & ->)%fmap_Some.
  destruct (Hcells _ _ _ Hpx0) as [Hlen Hbands].
  rewrite !scale_length by (rewrite ?scale_length; lia).
  split; [done|]. intros k Hk.
  destruct (Hbands k Hk) as (idx & name & img & img' & x & Hidx & Hfile
                             & Hbc & Hx & Hk0).
  rewrite calIdx_lookup in Hidx by done. injection Hidx as <-.
  exists name, img, img', x. repeat split; try done.
  rewrite scale_lookup by (rewrite ?scale_length; lia).
  rewrite scale_lookup by lia. rewrite Hk0.
  destruct (decide (k < 50)).
  - rewrite decide_False by lia. by rewrite decide_True by lia.
  - rewrite decide_True by lia. by rewrite decide_False by lia.
Qed.

(** With at least 224 files of one common shape the assembly returns. *)
Lemma read_hyperion_returns files R C :
  224 ≤ length files →
  Forall (λ f : string * raster, rect R C f.2) files →
  0 < R →
  is_Some (read_hyperion_HSI_data zero cast divide files).
Proof.
  intros Hn Hshape HR. destruct (sorted_files_spec files) as [_ Hperm].
  assert (length (sorted_files files) = length files) as Hlen
    by (by apply Permutation_length).
  assert (Forall (λ f : string * raster, rect R C f.2) (sorted_files files))
    as Hshape' by (by rewrite Hperm).
  rewrite Forall_lookup in Hshape'.
  destruct (lookup_lt_is_Some_2 (sorted_files files) 7 ltac:(lia))
    as [[name0 tmp] Hfirst].
  pose proof (Hshape' _ _ Hfirst) as Htmp. simpl in Htmp.
  destruct (set_band_is_Some R C
    (replicate R (replicate C (replicate 198 zero))) 0 tmp Htmp)
    as [d0 H0].
  destruct (for_each_is_Some (λ _ _, True)
    (λ i data, idx ← calIdx !! i; '(_, img) ← sorted_files files !! idx;
               set_band cast R C data i img) (seq 1 197) d0 I)
    as (d1 & Hloop & _).
  { intros pre i s0 [rest Hpre] _.
    assert (i ∈ seq 1 197) as Hi.
    { rewrite Hpre, !elem_of_app, list_elem_of_singleton. auto. }
    apply elem_of_seq in Hi.
    destruct (lookup_lt_is_Some_2 (sorted_files files)
      (if decide (i < 50) then 7 + i else 76 + (i - 50))
      ltac:(case_decide; lia)) as [[name img] Hfile].
    destruct (set_band_is_Some R C s0 i img (Hshape' _ _ Hfile))
      as [s1 Hs1].
    exists s1. split; [|done]. apply bind_Some.
    eexists. split; [by apply calIdx_lookup; lia|].
    apply bind_Some. by exists (name, img). }
  unfold read_hyperion_HSI_data. eexists.
  apply bind_Some. exists 7. split; [done|].
  apply bind_Some. exists (name0, tmp). split; [done|].
  rewrite (rect_nrows _ _ _ Htmp), (rect_ncols _ _ _ Htmp) by done.
  apply bind_Some. exists d0. split; [done|].
  apply bind_Some. exists d1. split; [done|]. done.
Qed.

End hyperion_facts.

Lemma read_hyperion_bands_witness :
  Sorted name_le (sorted_files hyperion_demo_files) ∧
  sorted_files hyperion_demo_files ≡ₚ hyperion_demo_files ∧
  ∃ name0 tmp,
    sorted_files hyperion_demo_files !! 7 = Some (name0, tmp) ∧
    rect (nrows tmp) (ncols tmp) hyperion_demo_cube ∧
    ∀ r c px, get2 hyperion_demo_cube r c = Some px →
      length px = 198 ∧
      ∀ k, k < 198 → ∃ name img img' x,
        sorted_files hyperion_demo_files
          !! (if decide (k < 50) then 7 + k else 76 + (k - 50))
          = Some (name, img) ∧
        broadcast_to (nrows tmp) (ncols tmp) img = Some img' ∧
        get2 img' r c = Some x ∧
        px !! k = Some (x, (1 * (if decide (k < 50)%nat then 40 else 80))%Z).
Proof.
  apply (read_hyperion_bands (0%Z, 1%Z) (λ x, (x, 1%Z))
           (λ v k, (v.1, (v.2 * k)%Z)) hyperion_demo_files).
  vm_compute. reflexivity.
Defined.

(** ** Per-class split *)

Lemma Qceiling_fraction_bounds (q : Q) (n : Z) :
  Qle_bool q 0 = false → Qle_bool 1 q = false → (0 ≤ n)%Z →
  (0 ≤ Qceiling (q * inject_Z n) ≤ n)%Z.
Proof.
  intros H0 H1 Hn.
  assert (0 < q)%Q as Hq0.
  { apply Qnot_le_lt. intros H%Qle_bool_iff. congruence. }
  assert (q < 1)%Q as Hq1.
  { apply Qnot_le_lt. intros H%Qle_bool_iff. congruence. }
  assert (0 <= inject_Z n)%Q as Hn'.
  { change 0%Q with (inject_Z 0). by rewrite <- Zle_Qle. }
  split.
  - change 0%Z with (Qceiling (inject_Z 0)).
    apply Qceiling_resp_le. change (inject_Z 0) with 0%Q.
    apply Qmult_le_0_compat; [by apply Qlt_le_weak|done].
  - rewrite <- (Qceiling_Z n) at 2. apply Qceiling_resp_le.
    rewrite <- (Qmult_1_l (inject_Z n)) at 2.
    apply Qmult_le_compat_r; [by apply Qlt_le_weak|done].
Qed.

Lemma Qfloor_fraction_bounds (q : Q) (n : Z) :
  Qle_bool q 0 = false → Qle_bool 1 q = false → (0 ≤ n)%Z →
  (0 ≤ Qfloor (q * inject_Z n) ≤ n)%Z.
Proof.
  intros H0 H1 Hn.
  assert (0 < q)%Q as Hq0.
  { apply Qnot_le_lt. intros H%Qle_bool_iff. congruence. }
  assert (q < 1)%Q as Hq1.
  { apply Qnot_le_lt. intros H%Qle_bool_iff. congruence. }
  assert (0 <= inject_Z n)%Q as Hn'.
  { change 0%Q with (inject_Z 0). by rewrite <- Zle_Qle. }
  split.
  - change 0%Z with (Qfloor (inject_Z 0)).
    apply Qfloor_resp_le. change (inject_Z 0) with 0%Q.
    apply Qmult_le_0_compat; [by apply Qlt_le_weak|done].
  - rewrite <- (Qfloor_Z n) at 2. apply Qfloor_resp_le.
    rewrite <- (Qmult_1_l (inject_Z n)) at 2.
    apply Qmult_le_compat_r; [by apply Qlt_le_weak|done].
Qed.

Lemma part_size_bounds (round : Q → Z) (n : Z) (s : split_size) :
  (∀ q, Qle_bool q 0 = false → Qle_bool 1 q = false →
        (0 ≤ round (q * inject_Z n)%Q ≤ n)%Z) →
  size_ok n (Some s) = true → (0 ≤ part_size round n s ≤ n)%Z.
Proof.
  intros Hround. destruct s as [k|q]; simpl; intros [Ha Hb]%andb_prop.
  - lia.
  - apply Hround; [by destruct (Qle_bool q 0)|by destruct (Qle_bool 1 q)].
Qed.

(** The two parts never exceed the samples, and they cover them as soon as
    one of the two sizes is left to be the complement of the other. *)
Lemma validate_shuffle_split_Some n test_size train_size n_train n_test :
  validate_shuffle_split n test_size train_size = Some (n_train, n_test) →
  n_train + n_test ≤ n ∧
  (test_size = None ∨ train_size = None → n_train + n_test = n).
Proof.
  unfold validate_shuffle_split.
  destruct (_ && _) eqn:Hok; [|done].
  apply andb_prop in Hok as [Hok Hfr]. apply andb_prop in Hok as [Hte Htr].
  destruct (_ || _) eqn:Hbad; [done|].
  apply orb_false_elim in Hbad as [Hsum Hzero].
  apply Z.ltb_ge in Hsum. apply Z.eqb_neq in Hzero.
  assert (∀ s, size_ok (Z.of_nat n) (Some s) = true →
            (0 ≤ part_size Qceiling (Z.of_nat n) s ≤ Z.of_nat n)%Z)
    as Hceil.
  { intros s. apply part_size_bounds. intros q ? ?.
    apply Qceiling_fraction_bounds; [done..|lia]. }
  assert (∀ s, size_ok (Z.of_nat n) (Some s) = true →
            (0 ≤ part_size Qfloor (Z.of_nat n) s ≤ Z.of_nat n)%Z)
    as Hfloor.
  { intros s. apply part_size_bounds. intros q ? ?.
    apply Qfloor_fraction_bounds; [done..|lia]. }
  destruct test_size as [te|], train_size as [tr|]; cbn [from_option] in *.
  - specialize (Hceil _ Hte). specialize (Hfloor _ Htr).
    revert Hsum Hzero Hceil Hfloor.
    generalize (part_size Qceiling (Z.of_nat n) te).
    generalize (part_size Qfloor (Z.of_nat n) tr).
    intros a b ? ? ? ? [= <- <-]. split; [lia|]. by intros [?|?].
  - specialize (Hceil _ Hte). revert Hsum Hzero Hceil.
    generalize (part_size Qceiling (Z.of_nat n) te).
    intros b ? ? ? [= <- <-]. split; [lia|]. intros _. lia.
  - specialize (Hfloor _ Htr). revert Hsum Hzero Hfloor.
    generalize (part_size Qfloor (Z.of_nat n) tr).
    intros a ? ? ? [= <- <-]. split; [lia|]. intros _. lia.
  - specialize (Hceil _ Hte). revert Hsum Hzero Hceil.
    generalize (part_size Qceiling (Z.of_nat n) (Fraction (1 # 4))).
    intros b ? ? ? [= <- <-]. split; [lia|]. intros _. lia.
Qed.

Lemma mapM_lookup_Some {A} (l : list A) (idx : list nat) (out : list A) :
  mapM (λ i, l !! i) idx = Some out →
  length out = length idx ∧ ∀ x, x ∈ out → x ∈ l.
Proof.
  intros H. split; [symmetry; by eapply length_mapM|].
  apply mapM_Some_1 in H. intros x (k & Hk)%list_elem_of_lookup.
  destruct (Forall2_lookup_r _ _ _ _ _ H Hk) as (i & _ & Hi).
  by eapply list_elem_of_lookup_2.
Qed.

Lemma train_test_split_Some {A B} (X : list A) (y : list B) te tr rnd
    X_train X_test y_train y_test :
  train_test_split X y te tr rnd = Some (X_train, X_test, y_train, y_test) →
  length X_train = length y_train ∧ length X_test = length y_test ∧
  length y_train + length y_test ≤ length y ∧
  (te = None ∨ tr = None → length y_train + length y_test = length y) ∧
  (∀ l, l ∈ y_train → l ∈ y) ∧ (∀ l, l ∈ y_test → l ∈ y) ∧
  (∀ x, x ∈ X_train → x ∈ X) ∧ (∀ x, x ∈ X_test → x ∈ X).
Proof.
  unfold train_test_split. case_decide as Hlen; [|done]. intros H.
  apply bind_Some in H as ([n_train n_test] & Hv & H).
  apply bind_Some in H as (Xtr & HXtr & H).
  apply bind_Some in H as (Xte & HXte & H).
  apply bind_Some in H as (ytr & Hytr & H).
  apply bind_Some in H as (yte & Hyte & [= <- <- <- <-]).
  apply validate_shuffle_split_Some in Hv as [Hle Heq].
  apply mapM_lookup_Some in HXtr as [HXtr ?], HXte as [HXte ?],
    Hytr as [Hytr ?], Hyte as [Hyte ?].
  destruct (sample_pool_spec (length X) (seq 0 (length X)) rnd
              (NoDup_seq _ _)) as (Hplen & _ & _);
    [by rewrite length_seq|].
  rewrite length_take, length_drop, Hplen in Hytr, HXtr.
  rewrite length_take, Hplen in Hyte, HXte.
  repeat split; try done; try lia. intros Hc. specialize (Heq Hc). lia.
Qed.

Lemma mapM_lookup_paired {A B} (X : list A) (y : list B) (idx : list nat)
    Xs ys :
  mapM (λ i, X !! i) idx = Some Xs → mapM (λ i, y !! i) idx = Some ys →
  Forall2 (λ x l, (x, l) ∈ zip X y) Xs ys.
Proof.
  intros HX Hy. apply Forall2_same_length_lookup. split.
  - rewrite <- (length_mapM _ _ _ HX). by eapply length_mapM.
  - apply mapM_Some_1 in HX, Hy. intros j x l Hx Hl.
    destruct (Forall2_lookup_r _ _ _ _ _ HX Hx) as (i & Hi & HXi).
    destruct (Forall2_lookup_r _ _ _ _ _ Hy Hl) as (i' & Hi' & Hyi).
    assert (i' = i) as -> by congruence.
    apply list_elem_of_lookup. exists i. rewrite lookup_zip_with.
    by rewrite HXi, Hyi.
Qed.

Lemma train_test_split_paired {A B} (X : list A) (y : list B) te tr rnd
    X_train X_test y_train y_test :
  train_test_split X y te tr rnd = Some (X_train, X_test, y_train, y_test) →
  Forall2 (λ x l, (x, l) ∈ zip X y) X_train y_train ∧
  Forall2 (λ x l, (x, l) ∈ zip X y) X_test y_test.
Proof.
  unfold train_test_split. case_decide as Hlen; [|done]. intros H.
  apply bind_Some in H as ([n_train n_test] & Hv & H).
  apply bind_Some in H as (Xtr & HXtr & H).
  apply bind_Some in H as (Xte & HXte & H).
  apply bind_Some in H as (ytr & Hytr & H).
  apply bind_Some in H as (yte & Hyte & [= <- <- <- <-]).
  split; by eapply mapM_lookup_paired.
Qed.

(** [y[y == c]] is the sub-list of the labels equal to [c]. *)
Lemma select_masked_labels (c : Z) (y : list Z) :
  select_masked ((λ l, bool_decide (l = c)) <$> y) y = filter (λ l, l = c) y.
Proof.
  induction y as [|l y IH]; [done|]. rewrite fmap_cons. simpl.
  rewrite filter_cons. case_bool_decide; rewrite IH.
  - by rewrite decide_True.
  - by rewrite decide_False.
Qed.

Lemma select_masked_zip {A B} (mask : list bool) : ∀ (X : list A) (y : list B),
  ∀ p, p ∈ zip (select_masked mask X) (select_masked mask y) → p ∈ zip X y.
Proof.
  induction mask as [|b mask IH]; intros [|x X] [|l y] p; simpl;
    try (by intros ?%elem_of_nil).
  - destruct b; simpl; [|destruct (select_masked mask X); simpl];
      by intros ?%elem_of_nil.
  - destruct b; simpl; rewrite ?elem_of_cons.
    + intros [->|H]; [by left|right; by apply IH].
    + intros H. right. by apply IH.
Qed.

Lemma count_label_app c (l1 l2 : list Z) :
  count_label c (l1 ++ l2) = count_label c l1 + count_label c l2.
Proof. unfold count_label. by rewrite filter_app, length_app. Qed.

Lemma count_label_all c (l : list Z) :
  Forall (λ x, x = c) l → count_label c l = length l.
Proof.
  unfold count_label. induction 1 as [|x l -> _ IH]; [done|].
  rewrite filter_cons, decide_True by done. simpl. by rewrite IH.
Qed.

Lemma count_label_none c (l : list Z) :
  Forall (λ x, x ≠ c) l → count_label c l = 0.
Proof.
  unfold count_label. induction 1 as [|x l Hx _ IH]; [done|].
  by rewrite filter_cons, decide_False.
Qed.

Lemma prefix_seq_snoc (pre : list nat) i n :
  pre ++ [i] `prefix_of` seq 0 n → i = length pre ∧ i < n.
Proof.
  intros [rest Heq].
  assert (seq 0 n !! length pre = Some i) as H.
  { rewrite Heq, <- app_assoc. by apply list_lookup_middle. }
  apply lookup_seq in H. lia.
Qed.

Lemma StronglySorted_constant (c : Z) (l : list Z) :
  Forall (λ x, x = c) l → StronglySorted Z.le l.
Proof.
  induction 1 as [|x l -> Hl IH]; constructor; [done|].
  eapply Forall_impl; [exact Hl|]. intros y ->. simpl. lia.
Qed.

Lemma count_label_absent c (l : list Z) : c ∉ l → count_label c l = 0.
Proof.
  intros Hc. apply count_label_none, Forall_forall. by intros x Hx ->.
Qed.

(** One class: what the split of class [i] appends. *)
Lemma class_split_facts {A} (X : list A) (y : list Z) te tr rnd (i : nat)
    Xa Xb ya yb :
  train_test_split
    (select_masked ((λ l, bool_decide (l = Z.of_nat i)) <$> y) X)
    (select_masked ((λ l, bool_decide (l = Z.of_nat i)) <$> y) y)
    te tr rnd = Some (Xa, Xb, ya, yb) →
  Forall (λ l, l = Z.of_nat i) ya ∧ Forall (λ l, l = Z.of_nat i) yb ∧
  length ya + length yb ≤ count_label (Z.of_nat i) y ∧
  (te = None ∨ tr = None →
     length ya + length yb = count_label (Z.of_nat i) y) ∧
  Forall2 (λ x l, (x, l) ∈ zip X y) Xa ya ∧
  Forall2 (λ x l, (x, l) ∈ zip X y) Xb yb.
Proof.
  intros H. destruct (train_test_split_paired _ _ _ _ _ _ _ _ _ H)
    as [Hpa Hpb].
  apply train_test_split_Some in H
    as (_ & _ & Hle & Heq & Hya & Hyb & _ & _).
  rewrite select_masked_labels in Hle, Heq, Hya, Hyb.
  fold (count_label (Z.of_nat i) y) in Hle, Heq.
  assert (∀ l, l ∈ filter (λ l, l = Z.of_nat i) y → l = Z.of_nat i) as Hf.
  { by intros l [? _]%list_elem_of_filter. }
  repeat split; try done.
  - apply Forall_forall. intros l Hl. by apply Hf, Hya.
  - apply Forall_forall. intros l Hl. by apply Hf, Hyb.
  - eapply Forall2_impl; [exact Hpa|]. intros x l. apply select_masked_zip.
  - eapply Forall2_impl; [exact Hpb|]. intros x l. apply select_masked_zip.
Qed.

(** C6, as stated, fails: scikit-learn leaves out the samples that neither
    size covers.  Ten samples of class 0 with [train_size = 0.5] and
    [test_size = 0.2] give 5 train and 2 test labels. *)
Lemma split_may_drop_samples : ¬ split_keeps_class_counts.
Proof.
  intros H.
  specialize (H nat (seq 0 10) (replicate 10 0%Z)
                (Some (Fraction (1 # 2))) (Some (Fraction (1 # 5)))
                (λ _ _, 0) [8; 7; 6; 5; 4] [0; 9]
                (replicate 5 0%Z) (replicate 2 0%Z) 0%Z).
  vm_compute in H. specialize (H eq_refl). discriminate H.
Qed.

(** C6 (amended): for every class the train labels and the test labels of
    that class together are at most the input labels of that class, and
    exactly as many whenever one of [train_size] and [test_size] is not
    given (the missing part is then the complement; with both given,
    scikit-learn leaves the samples neither size covers out).  The outputs
    are grouped by class in increasing order of the class, and each
    returned sample stands at the position of its own label. *)
Theorem train_test_split_per_class_stratified {A} (X : list A) y
    train_size test_size rnd X_train X_test y_train y_test :
  train_test_split_per_class X y train_size test_size rnd
    = Some (X_train, X_test, y_train, y_test) →
  (∀ c, count_label c y_train + count_label c y_test ≤ count_label c y) ∧
  (train_size = None ∨ test_size = None →
     ∀ c, count_label c y_train + count_label c y_test = count_label c y) ∧
  StronglySorted Z.le y_train ∧ StronglySorted Z.le y_test ∧
  Forall2 (λ x l, (x, l) ∈ zip X y) X_train y_train ∧
  Forall2 (λ x l, (x, l) ∈ zip X y) X_test y_test.
Proof.
  unfold train_test_split_per_class. intros H.
  apply bind_Some in H as (counts & Hcounts & Hloop).
  destruct (bincount_Some _ _ _ Hcounts) as (Hnn & _ & Hlt).
  set (Inv := λ (pre : list nat) (s : list A * list A * list Z * list Z),
    let '(Xtr, Xte, ytr, yte) := s in
    Forall (λ l, 0 ≤ l < Z.of_nat (length pre))%Z ytr ∧
    Forall (λ l, 0 ≤ l < Z.of_nat (length pre))%Z yte ∧
    StronglySorted Z.le ytr ∧ StronglySorted Z.le yte ∧
    (∀ c, count_label c ytr + count_label c yte ≤ count_label c y) ∧
    (train_size = None ∨ test_size = None →
       ∀ c, (0 ≤ c < Z.of_nat (length pre))%Z →
         count_label c ytr + count_label c yte = count_label c y) ∧
    Forall2 (λ x l, (x, l) ∈ zip X y) Xtr ytr ∧
    Forall2 (λ x l, (x, l) ∈ zip X y) Xte yte).
  assert (Inv (seq 0 (length counts)) (X_train, X_test, y_train, y_test))
    as (_ & _ & Hs1 & Hs2 & Hle & Heq & Hp1 & Hp2).
  { apply (for_each_inv Inv _ _ _ _ Hloop).
    - unfold Inv. split_and!; try constructor.
      + intros c. change (count_label c []) with 0. lia.
      + intros _ c Hc. simpl in Hc. lia.
    - intros pre i [[[Xtr Xte] ytr] yte] [[[Xtr' Xte'] ytr'] yte'] Hpre
        (Hr1 & Hr2 & Hs1 & Hs2 & Hle & Heq & Hp1 & Hp2) Hbody.
      apply prefix_seq_snoc in Hpre as [-> Hi].
      case_decide as Hlen; [|done].
      apply bind_Some in Hbody as ([[[Xa Xb] ya] yb] & Hsplit & [= <- <- <- <-]).
      apply class_split_facts in Hsplit
        as (Hya & Hyb & Hle' & Heq' & Hpa & Hpb).
      set (k := length pre) in *.
      assert (∀ l : list Z, Forall (λ x, 0 ≤ x < Z.of_nat k)%Z l →
                count_label (Z.of_nat k) l = 0) as Hzero.
      { intros l Hl. apply count_label_none.
        eapply Forall_impl; [exact Hl|]. intros x Hx. simpl in Hx. lia. }
      assert (∀ c (l : list Z), c ≠ Z.of_nat k →
                Forall (λ x, x = Z.of_nat k) l → count_label c l = 0)
        as Hother.
      { intros c l Hc Hl. apply count_label_none.
        eapply Forall_impl; [exact Hl|]. intros x ->. done. }
      unfold Inv. rewrite length_app. simpl.
      assert (∀ old new : list Z,
                Forall (λ l, 0 ≤ l < Z.of_nat k)%Z old →
                Forall (λ l, l = Z.of_nat k) new →
                Forall (λ l, 0 ≤ l < Z.of_nat (k + 1))%Z (old ++ new))
        as Hrange.
      { intros old new Ho Hn. apply Forall_app. split.
        - eapply Forall_impl; [exact Ho|]. intros x Hx. simpl in Hx. lia.
        - eapply Forall_impl; [exact Hn|]. intros x ->. lia. }
      assert (∀ old new : list Z,
                Forall (λ l, 0 ≤ l < Z.of_nat k)%Z old →
                StronglySorted Z.le old →
                Forall (λ l, l = Z.of_nat k) new →
                StronglySorted Z.le (old ++ new)) as Hsorted.
      { intros old new Ho Hso Hn. apply StronglySorted_app_2; [|done|].
        - rewrite Forall_forall in Ho. rewrite Forall_forall in Hn.
          intros x1 x2 H1%Ho ->%Hn. lia.
        - by eapply StronglySorted_constant. }
      split; [by apply Hrange|]. split; [by apply Hrange|].
      split; [by apply Hsorted|]. split; [by apply Hsorted|].
      split; [|split; [|split; by apply Forall2_app]].
      + intros c. rewrite !count_label_app.
        destruct (decide (c = Z.of_nat k)) as [->|Hc].
        * rewrite (Hzero ytr), (Hzero yte) by done.
          rewrite (count_label_all _ ya), (count_label_all _ yb) by done.
          lia.
        * rewrite (Hother c ya), (Hother c yb) by done.
          specialize (Hle c). lia.
      + intros Hcompl c Hc. rewrite !count_label_app.
        destruct (decide (c = Z.of_nat k)) as [->|Hne].
        * rewrite (Hzero ytr), (Hzero yte) by done.
          rewrite (count_label_all _ ya), (count_label_all _ yb) by done.
          apply Heq'. tauto.
        * rewrite (Hother c ya), (Hother c yb) by done.
          rewrite <- (Heq Hcompl c) by lia. lia. }
  split; [done|]. split; [|done]. intros Hcompl c.
  rewrite length_seq in Heq.
  destruct (decide (0 ≤ c < Z.of_nat (length counts))%Z) as [Hc|Hc].
  - by apply Heq.
  - assert (count_label c y = 0) as H0.
    { apply count_label_absent. intros Hin.
      rewrite Forall_forall in Hnn. specialize (Hnn _ Hin).
      specialize (Hlt _ Hin). simpl in Hnn. lia. }
    specialize (Hle c). lia.
Qed.

Lemma train_test_split_per_class_stratified_witness :
  let y := [0; 1; 0; 1; 1; 0; 0; 1; 0; 0]%Z in
  (∀ c, count_label c [0; 0; 0; 0; 1; 1; 1]%Z
        + count_label c [0; 0; 1]%Z ≤ count_label c y) ∧
  (@None split_size = None ∨ @None split_size = None →
     ∀ c, count_label c [0; 0; 0; 0; 1; 1; 1]%Z
          + count_label c [0; 0; 1]%Z = count_label c y) ∧
  StronglySorted Z.le [0; 0; 0; 0; 1; 1; 1]%Z ∧
  StronglySorted Z.le [0; 0; 1]%Z ∧
  Forall2 (λ x l, (x, l) ∈ zip (seq 100 10) y)
    [105; 109; 108; 102; 107; 104; 101] [0; 0; 0; 0; 1; 1; 1]%Z ∧
  Forall2 (λ x l, (x, l) ∈ zip (seq 100 10) y)
    [100; 106; 103] [0; 0; 1]%Z.
Proof.
  intros y.
  apply (train_test_split_per_class_stratified (seq 100 10) y None None
           (λ i k, 3 * k + i)).
  vm_compute. reflexivity.
Defined.

(** ** The store: which arrays an operation writes *)

(** ** Programs over the store *)

Section store_facts.

Context {T : Type}.
Implicit Types σ : Mem.store T.

Lemma bind_run {A B} (m : Mem.M T A) (k : A → Mem.M T B) σ r σ' :
  (m ≫= k) σ = Some (r, σ') ↔
  ∃ a σ1, m σ = Some (a, σ1) ∧ k a σ1 = Some (r, σ').
Proof.
  unfold mbind, Mem.M_bind. destruct (m σ) as [[a σ1]|]; split.
  - intros H. by exists a, σ1.
  - by intros (? & ? & [= <- <-] & ?).
  - done.
  - by intros (? & ? & ? & _).
Qed.

Lemma ret_run {A} (a r : A) σ σ' :
  (mret a : Mem.M T A) σ = Some (r, σ') ↔ r = a ∧ σ' = σ.
Proof. unfold mret, Mem.M_ret. split; [by intros [= <- <-]|]. by intros [-> ->]. Qed.

Lemma lift_run {A} (o : option A) r σ σ' :
  Mem.lift o σ = Some (r, σ') ↔ o = Some r ∧ σ' = σ.
Proof.
  unfold Mem.lift. destruct o as [a|]; simpl; split; try done.
  - by intros [= <- <-].
  - by intros [[= <-] ->].
  - by intros [? _].
Qed.

Lemma alloc_run (a : Mem.array T) l σ σ' :
  Mem.alloc a σ = Some (l, σ') ↔
  l = length (Mem.heap σ) ∧
  σ' = Mem.Store (Mem.heap σ ++ [a]) (Mem.environ σ).
Proof. unfold Mem.alloc. split; [by intros [= <- <-]|]. by intros [-> ->]. Qed.

Lemma load_as_run {X} (proj : Mem.array T → option X) l x σ σ' :
  Mem.load_as proj l σ = Some (x, σ') ↔
  (∃ a, Mem.heap σ !! l = Some a ∧ proj a = Some x) ∧ σ' = σ.
Proof.
  unfold Mem.load_as. rewrite bind_run. unfold Mem.load. split.
  - intros (a & σ1 & H1 & H2). apply lift_run in H2 as [? ->].
    destruct (Mem.heap σ !! l) as [a'|]; [|done]. simpl in H1.
    injection H1 as <- <-. eauto.
  - intros [(a & Ha & Hx) ->]. exists a, σ. rewrite Ha. simpl.
    split; [done|]. by apply lift_run.
Qed.

Lemma update_run l (f : Mem.array T → option (Mem.array T)) u σ σ' :
  Mem.update l f σ = Some (u, σ') ↔
  ∃ a a', Mem.heap σ !! l = Some a ∧ f a = Some a' ∧
          σ' = Mem.Store (<[l:=a']> (Mem.heap σ)) (Mem.environ σ).
Proof.
  unfold Mem.update. split.
  - intros H. destruct (Mem.heap σ !! l) as [a|]; [|done]. simpl in H.
    destruct (f a) as [a'|] eqn:Hf; [|done]. simpl in H.
    exists a, a'. split; [done|]. split; [done|]. congruence.
  - intros (a & a' & -> & Hf & ->). simpl. rewrite Hf. simpl.
    by destruct u.
Qed.

Lemma grows_refl n σ : Mem.grows n σ σ.
Proof. by repeat split. Qed.

Lemma grows_trans n σ1 σ2 σ3 :
  Mem.grows n σ1 σ2 → Mem.grows n σ2 σ3 → Mem.grows n σ1 σ3.
Proof.
  intros (H1 & H2 & H3) (H4 & H5 & H6). repeat split; [congruence|lia|].
  congruence.
Qed.

(** Allocation leaves every array below [n] alone and returns the next
    free location. *)
Lemma alloc_grows n (a : Mem.array T) l σ σ' :
  n ≤ length (Mem.heap σ) → Mem.alloc a σ = Some (l, σ') →
  Mem.grows n σ σ' ∧ l = length (Mem.heap σ) ∧
  length (Mem.heap σ') = S l.
Proof.
  intros Hn [-> ->]%alloc_run. unfold Mem.grows. simpl.
  rewrite length_app, take_app_le by done. simpl. repeat split; (done || lia).
Qed.

(** An update at or above [n] leaves every array below [n] alone. *)
Lemma update_grows n l (f : Mem.array T → option (Mem.array T)) u σ σ' :
  n ≤ l → Mem.update l f σ = Some (u, σ') →
  Mem.grows n σ σ' ∧ length (Mem.heap σ') = length (Mem.heap σ) ∧
  l < length (Mem.heap σ).
Proof.
  intros Hn (a & a' & Ha & _ & ->)%update_run. unfold Mem.grows. simpl.
  rewrite length_insert, take_insert, decide_False by lia.
  apply lookup_lt_Some in Ha. repeat split; (done || lia).
Qed.

Lemma load_as_grows {X} n (proj : Mem.array T → option X) l x σ σ' :
  Mem.load_as proj l σ = Some (x, σ') → Mem.grows n σ σ'.
Proof. intros [_ ->]%load_as_run. apply grows_refl. Qed.

Lemma lift_grows {A} n (o : option A) r σ σ' :
  Mem.lift o σ = Some (r, σ') → Mem.grows n σ σ'.
Proof. intros [_ ->]%lift_run. apply grows_refl. Qed.

(** A loop keeps what each of its iterations keeps. *)
Lemma forM_inv (I : Mem.store T → Prop) (body : nat → Mem.M T ())
    (l : list nat) :
  (∀ i u σ σ', i ∈ l → I σ → body i σ = Some (u, σ') → I σ') →
  ∀ u σ σ', I σ → Mem.forM l body σ = Some (u, σ') → I σ'.
Proof.
  induction l as [|i l IH]; intros Hbody u σ σ' HI; simpl.
  - by intros [_ ->]%ret_run.
  - intros (u1 & σ1 & H1 & H2)%bind_run.
    apply (IH (λ j u0 s s' Hj, Hbody j u0 s s'
                 ltac:(apply elem_of_cons; by right)) u σ1 σ'); [|done].
    eapply Hbody; [|done..]. apply elem_of_cons. by left.
Qed.

Lemma foldM_inv {S} (I : S → Mem.store T → Prop)
    (body : nat → S → Mem.M T S) (l : list nat) :
  (∀ i s s' σ σ', I s σ → body i s σ = Some (s', σ') → I s' σ') →
  ∀ s s' σ σ', I s σ → Mem.foldM body l s σ = Some (s', σ') → I s' σ'.
Proof.
  intros Hbody. induction l as [|i l IH]; intros s s' σ σ' HI; simpl.
  - by intros [-> ->]%ret_run.
  - intros (s1 & σ1 & H1 & H2)%bind_run.
    apply (IH s1 s' σ1 σ'); [|done]. by eapply Hbody.
Qed.

(** From the length of the caller's heap on, [grows] is the frame
    property. *)
Lemma grows_unchanged σ σ' :
  Mem.grows (length (Mem.heap σ)) σ σ' → Mem.unchanged σ σ'.
Proof.
  intros (Htake & _ & Henv). split; [|done]. intros l a Hl.
  pose proof (lookup_lt_Some _ _ _ Hl) as Hlt.
  rewrite <- (lookup_take_lt _ _ _ Hlt), Htake.
  by rewrite lookup_take_lt.
Qed.

End store_facts.

Section loop_facts.

Context {T : Type}.
Implicit Types σ : Mem.store T.

(** A loop whose iterations leave the arrays below [n] alone leaves them
    alone. *)
Lemma forM_grows n (body : nat → Mem.M T ()) (l : list nat) u σ σ' :
  (∀ i v s s', n ≤ length (Mem.heap s) → body i s = Some (v, s') →
     Mem.grows n s s') →
  n ≤ length (Mem.heap σ) →
  Mem.forM l body σ = Some (u, σ') → Mem.grows n σ σ'.
Proof.
  intros Hbody Hn Hrun.
  apply (forM_inv (λ s, Mem.grows n σ s) body l) with (u := u) (σ := σ);
    [|apply grows_refl|done].
  intros i v s s' _ Hs Hi. eapply grows_trans; [exact Hs|].
  eapply Hbody; [|done]. destruct Hs as (_ & ? & _). lia.
Qed.

End loop_facts.

(** The end of a frame argument: the chain of stores from [σ] to [σ']. *)
Ltac st_grows := unfold Mem.grows; repeat split; (congruence || lia).

Ltac st_done :=
  unfold Mem.fresh; repeat split;
  try (apply grows_unchanged; st_grows); try lia.

(** Running through a program that returned: every statement gives its
    effect on the arrays below [n], on the length of the heap and on the
    environment. *)
Ltac st_run n H :=
  cbv beta in H;
  lazymatch type of H with
  | (let '(_, _) := ?x in _) _ = Some _ => destruct x; st_run n H
  | (if ?c then _ else _) _ = Some _ => destruct c; st_run n H
  | (match ?m with Some _ => _ | None => _ end) _ = Some _ =>
      destruct m; st_run n H
  | (_ ≫= _) _ = Some _ =>
      let H1 := fresh "Hrun" in
      apply bind_run in H as (? & ? & H1 & H); st_run n H1; st_run n H
  | mret _ _ = Some _ => apply ret_run in H as [? ?]; simplify_eq
  | Mem.lift _ _ = Some _ => apply lift_run in H as [? ?]; subst; try done
  | Mem.load_as _ _ _ = Some _ => apply load_as_run in H as [_ ?]; subst
  | Mem.alloc _ _ = Some _ =>
      apply (alloc_grows n) in H as ((? & ? & ?) & ? & ?); [|lia]
  | Mem.update _ _ _ = Some _ =>
      apply (update_grows n) in H as ((? & ? & ?) & ? & ?); [|lia]
  | Mem.forM _ _ _ = Some _ =>
      apply (forM_grows n) in H as (? & ? & ?);
      [| let H' := fresh "Hbody" in
         intros ? ? ? ? ? H'; st_run n H'; st_grows
       | lia]
  | _ => idtac
  end.

Section frame.

Context {T : Type}.
Implicit Types σ : Mem.store T.

Lemma class_weights_st_frame labels mu numClasses σ r σ' :
  class_weights_st labels mu numClasses σ = Some (r, σ') →
  Mem.unchanged σ σ' ∧ Mem.fresh σ σ' r.
Proof.
  unfold class_weights_st, Mem.fresh. intros H.
  st_run (length (Mem.heap σ)) H. st_done.
Qed.

Lemma band_resample_hsi_cube_st_frame zero add mul isnan BandResampler
    data bands1 bands2 fwhm1 fwhm2 mask σ r σ' :
  band_resample_hsi_cube_st zero add mul isnan BandResampler
    data bands1 bands2 fwhm1 fwhm2 mask σ = Some (r, σ') →
  Mem.unchanged σ σ' ∧ Mem.fresh σ σ' r.
Proof.
  unfold band_resample_hsi_cube_st, Mem.fresh. intros H.
  st_run (length (Mem.heap σ)) H; st_done.
Qed.

Lemma readENVIHeader_st_frame read_envi_header fName σ centers fwhm σ' :
  readENVIHeader_st read_envi_header fName σ = Some ((centers, fwhm), σ') →
  Mem.unchanged σ σ' ∧ Mem.fresh σ σ' centers ∧ Mem.fresh σ σ' fwhm.
Proof.
  unfold readENVIHeader_st, Mem.fresh. intros H.
  st_run (length (Mem.heap σ)) H. st_done.
Qed.

Lemma read_hyperion_HSI_data_st_frame zero cast divide files σ r σ' :
  read_hyperion_HSI_data_st zero cast divide files σ = Some (r, σ') →
  Mem.unchanged σ σ' ∧ Mem.fresh σ σ' r.
Proof.
  unfold read_hyperion_HSI_data_st, Mem.fresh. intros H.
  st_run (length (Mem.heap σ)) H. st_done.
Qed.

Lemma patch_extractor_with_mask_st_frame zero data mask np ps rnd σ r σ' :
  patch_extractor_with_mask_st zero data mask np ps rnd σ = Some (r, σ') →
  Mem.unchanged σ σ' ∧ Mem.fresh σ σ' r.
Proof.
  unfold patch_extractor_with_mask_st, Mem.fresh. intros H.
  st_run (length (Mem.heap σ)) H. st_done.
Qed.

Lemma patch_extractor_st_frame zero data np ps rnd σ r σ' :
  patch_extractor_st zero data np ps rnd σ = Some (r, σ') →
  Mem.unchanged σ σ' ∧ Mem.fresh σ σ' r.
Proof.
  unfold patch_extractor_st, Mem.fresh. intros H.
  st_run (length (Mem.heap σ)) H. st_done.
Qed.

End frame.

Section frame_split.

Context {T : Type}.
Implicit Types σ : Mem.store T.

Lemma train_test_split_per_class_st_frame X y train_size test_size rnd
    σ X_train X_test y_train y_test σ' :
  train_test_split_per_class_st X y train_size test_size rnd σ
    = Some ((X_train, X_test, y_train, y_test), σ') →
  Mem.unchanged σ σ' ∧
  Mem.fresh σ σ' X_train ∧ Mem.fresh σ σ' X_test ∧
  Mem.fresh σ σ' y_train ∧ Mem.fresh σ σ' y_test.
Proof.
  unfold train_test_split_per_class_st. intros H.
  set (n := length (Mem.heap σ)).
  st_run n H.
  match type of H with
  | Mem.foldM ?body ?l ?s0 ?σ1 = _ =>
      apply (foldM_inv
        (λ (names : Mem.loc * Mem.loc * Mem.loc * Mem.loc)
           (σ2 : Mem.store T),
           let '(a, b, c, d) := names in
           Mem.grows n σ1 σ2 ∧
           (n ≤ a < length (Mem.heap σ2)) ∧ (n ≤ b < length (Mem.heap σ2)) ∧
           (n ≤ c < length (Mem.heap σ2)) ∧ (n ≤ d < length (Mem.heap σ2)))
        body l) in H
  end.
  - destruct H as ((? & ? & ?) & ? & ? & ? & ?). subst n. st_done.
  - clear H. intros i [[[a b] c] d] [[[a' b'] c'] d'] s1 s2
      ((? & ? & ?) & ? & ? & ? & ?) Hbody.
    st_run n Hbody. subst n. repeat split; (congruence || lia).
  - subst n. repeat split; (congruence || lia).
Qed.

(** [set_gpu] writes one variable of the environment and no array. *)
Lemma set_gpu_st_effect (dev : option device) σ u σ' :
  set_gpu_st (T:=T) dev σ = Some (u, σ') →
  Mem.heap σ' = Mem.heap σ ∧
  Mem.environ σ'
  = <["CUDA_VISIBLE_DEVICES" := default "" (str <$> dev)]> (Mem.environ σ).
Proof.
  unfold set_gpu_st, Mem.setenv. intros H.
  assert (σ' = Mem.Store (Mem.heap σ)
                (<["CUDA_VISIBLE_DEVICES" := default "" (str <$> dev)]>
                   (Mem.environ σ))) as -> by congruence.
  done.
Qed.

(** The frame property is not true of every program: an assignment into
    an argument breaks it. *)
Lemma write_to_argument_is_seen (a a' : Mem.array T) :
  a ≠ a' →
  ∃ σ σ', Mem.update 0 (λ _, Some a') σ = Some ((), σ') ∧
          ¬ Mem.unchanged σ σ'.
Proof.
  intros Hne. exists (Mem.Store [a] ∅), (Mem.Store [a'] ∅).
  split; [done|]. intros [H _]. specialize (H 0 a eq_refl). simpl in H.
  congruence.
Qed.

End frame_split.


Section symbolic.

Context {T : Type}.
Implicit Types σ : Mem.store T.
Implicit Types ls : list (Mem.array T).

Lemma ext_nil σ : σ = ext σ [].
Proof. destruct σ. unfold ext. simpl. by rewrite app_nil_r. Qed.

Lemma ext_lookup_arg σ ls l a :
  Mem.heap σ !! l = Some a → Mem.heap (ext σ ls) !! l = Some a.
Proof. intros H. simpl. by apply lookup_app_l_Some. Qed.

Lemma ext_lookup_mono σ ls ls' l a :
  Mem.heap (ext σ ls) !! l = Some a →
  Mem.heap (ext σ (ls ++ ls')) !! l = Some a.
Proof.
  simpl. intros H. rewrite app_assoc. by apply lookup_app_l_Some.
Qed.

Lemma ext_lookup_last σ ls a :
  Mem.heap (ext σ (ls ++ [a])) !! (length (Mem.heap σ) + length ls) = Some a.
Proof.
  simpl. rewrite app_assoc. apply list_lookup_middle.
  by rewrite length_app.
Qed.

Lemma ext_lookup_local σ ls j :
  Mem.heap (ext σ ls) !! (length (Mem.heap σ) + j) = ls !! j.
Proof. simpl. rewrite lookup_app_r by lia. f_equal. lia. Qed.

Lemma run_ret {R} (r : R) σ : (mret r : Mem.M T R) σ = Some (r, σ).
Proof. done. Qed.

Lemma run_lift {A R} (o : option A) (k : A → Mem.M T R) σ :
  (Mem.lift o ≫= k) σ = o ≫= λ a, k a σ.
Proof. unfold mbind at 1, Mem.M_bind, Mem.lift. by destruct o. Qed.

Lemma run_alloc {R} (a : Mem.array T) (k : Mem.loc → Mem.M T R) σ ls :
  (Mem.alloc a ≫= k) (ext σ ls)
  = k (length (Mem.heap σ) + length ls) (ext σ (ls ++ [a])).
Proof.
  unfold mbind, Mem.M_bind, Mem.alloc, ext. simpl.
  by rewrite length_app, <- app_assoc.
Qed.

Lemma run_load {X R} (proj : Mem.array T → option X) l a x
    (k : X → Mem.M T R) σ' :
  Mem.heap σ' !! l = Some a → proj a = Some x →
  (Mem.load_as proj l ≫= k) σ' = k x σ'.
Proof.
  intros Ha Hx. unfold mbind, Mem.M_bind, Mem.load_as, Mem.load, Mem.lift.
  unfold mbind, Mem.M_bind. rewrite Ha. simpl. by rewrite Hx.
Qed.

Lemma run_update_local {R} j (f : Mem.array T → option (Mem.array T)) a
    (k : () → Mem.M T R) σ ls :
  ls !! j = Some a →
  (Mem.update (length (Mem.heap σ) + j) f ≫= k) (ext σ ls)
  = a' ← f a; k () (ext σ (<[j:=a']> ls)).
Proof.
  intros Ha. unfold mbind at 1, Mem.M_bind, Mem.update.
  rewrite ext_lookup_local, Ha. simpl. destruct (f a) as [a'|]; [|done].
  simpl. unfold ext. simpl. by rewrite insert_app_r.
Qed.

End symbolic.

Section symbolic_loops.

Context {T : Type}.
Implicit Types σ : Mem.store T.
Implicit Types ls : list (Mem.array T).

Lemma run_assoc {A B R} (m : Mem.M T A) (f : A → Mem.M T B)
    (k : B → Mem.M T R) σ :
  ((m ≫= f) ≫= k) σ = (m ≫= λ x, f x ≫= k) σ.
Proof.
  unfold mbind, Mem.M_bind. by destruct (m σ) as [[x σ']|].
Qed.

Lemma run_ret_bind {A R} (x : A) (k : A → Mem.M T R) σ :
  (mret x ≫= k) σ = k x σ.
Proof. done. Qed.

Lemma bind_ret_r {R} (m : Mem.M T R) σ : (m ≫= mret) σ = m σ.
Proof. unfold mbind, Mem.M_bind. by destruct (m σ) as [[r σ']|]. Qed.

(** A loop of in-place updates of the local array [j] is one update by the
    loop of the updates. *)
Lemma run_forM_local_last {X} (inj : X → Mem.array T) j
    (body : nat → Mem.M T ()) (f : nat → X → option X) (l : list nat) σ ls :
  j < length ls →
  (∀ i x1, body i (ext σ (<[j:=inj x1]> ls))
           = x2 ← f i x1; Some ((), ext σ (<[j:=inj x2]> ls))) →
  ∀ x, Mem.forM l body (ext σ (<[j:=inj x]> ls))
       = x' ← for_each f l x; Some ((), ext σ (<[j:=inj x']> ls)).
Proof.
  intros Hj Hbody. induction l as [|i l IH]; intros x; [done|].
  cbn [Mem.forM for_each]. unfold mbind at 1, Mem.M_bind.
  rewrite Hbody. destruct (f i x) as [x2|]; [|done].
  cbn [mbind option_bind]. apply IH.
Qed.

Lemma run_forM_local {X R} (inj : X → Mem.array T) j
    (body : nat → Mem.M T ()) (f : nat → X → option X) (l : list nat)
    (k : () → Mem.M T R) σ ls x :
  ls !! j = Some (inj x) →
  (∀ i x1, body i (ext σ (<[j:=inj x1]> ls))
           = x2 ← f i x1; Some ((), ext σ (<[j:=inj x2]> ls))) →
  (Mem.forM l body ≫= k) (ext σ ls)
  = x' ← for_each f l x; k () (ext σ (<[j:=inj x']> ls)).
Proof.
  intros Hx Hbody. rewrite <- (list_insert_id ls j (inj x) Hx) at 1.
  unfold mbind at 1, Mem.M_bind.
  rewrite (run_forM_local_last inj j body f l σ ls
             (lookup_lt_Some _ _ _ Hx) Hbody).
  by destruct (for_each f l x).
Qed.

Lemma run_update_local_last j (f : Mem.array T → option (Mem.array T)) a
    σ ls :
  ls !! j = Some a →
  Mem.update (length (Mem.heap σ) + j) f (ext σ ls)
  = a' ← f a; Some ((), ext σ (<[j:=a']> ls)).
Proof.
  intros Ha. rewrite <- bind_ret_r. by rewrite (run_update_local j f a).
Qed.

End symbolic_loops.

Lemma on_inj {T X} (proj : Mem.array T → option X) (inj : X → Mem.array T)
    (f : X → option X) (x : X) :
  proj (inj x) = Some x → Mem.on proj inj f (inj x) = inj <$> f x.
Proof. intros H. unfold Mem.on. by rewrite H. Qed.

Lemma obind_Some {A B} (f : A → option B) (x : A) : Some x ≫= f = f x.
Proof. done. Qed.

Lemma ofmap_Some {A B} (f : A → B) (x : A) : f <$> Some x = Some (f x).
Proof. done. Qed.

Ltac sym_norm :=
  repeat progress
    (cbn beta iota;
     rewrite ?ofmap_Some, ?obind_Some, ?run_assoc, ?run_ret_bind;
     rewrite ?on_inj by reflexivity);
  cbn [length app insert list_insert].

(** A cell that an earlier statement of a loop body has written. *)
Ltac sym_lookup :=
  first [ eassumption | apply ext_lookup_last
        | apply ext_lookup_mono; sym_lookup ].

(** One statement of symbolic execution on a store [ext σ ls]. *)
Ltac sym_step :=
  first
  [ rewrite run_lift
  | rewrite run_alloc
  | erewrite run_load;
      [| first [ apply ext_lookup_arg; eassumption
               | rewrite ext_lookup_local; reflexivity
               | sym_lookup ]
       | reflexivity ]
  | erewrite run_update_local; [|reflexivity]
  | erewrite run_update_local_last; [|reflexivity]
  | rewrite run_ret ];
  sym_norm.

Section refinement.

Context {T : Type}.
Implicit Types σ : Mem.store T.

Lemma class_weights_st_refines labels mu numClasses σ l :
  Mem.heap σ !! labels = Some (Mem.Ints l) →
  refines (class_weights_st labels mu numClasses σ)
    (class_weights l mu numClasses)
    (λ r σ' w, Mem.heap σ' !! r = Some (Mem.Floats w)).
Proof.
  intros Hl. rewrite (ext_nil σ) at 1.
  unfold class_weights_st, class_weights.
  do 2 sym_step.
  destruct (match numClasses with Some n => Some n | None => _ end)
    as [n|]; [|done]. sym_norm.
  do 2 sym_step.
  destruct (bincount l n) as [counts|]; [|done]. sym_norm.
  repeat sym_step.
  eexists _, _. split; [reflexivity|]. by rewrite ext_lookup_local.
Qed.

Lemma patch_extractor_with_mask_st_refines zero data mask np ps rnd σ d m :
  Mem.heap σ !! data = Some (Mem.Mat d) →
  Mem.heap σ !! mask = Some (Mem.Mask m) →
  refines (patch_extractor_with_mask_st zero data mask np ps rnd σ)
    (patch_extractor_with_mask zero d m np ps rnd)
    (λ r σ' patches, Mem.heap σ' !! r = Some (Mem.Ten patches)).
Proof.
  intros Hd Hm. rewrite (ext_nil σ) at 1.
  unfold patch_extractor_with_mask_st.
  do 4 sym_step.
  set (ls := [Mem.Ten (replicate np (replicate ps (replicate ps zero)));
              Mem.Counts (zeros_like m)]).
  rewrite (run_forM_local Mem.Counts 1 _
    (λ i, for_each (λ j valid,
            if np_all (crop m i j ps ps) then incr_at valid i j
            else Some valid) (seq 0 (ncols d - ps)))
    _ _ σ ls (zeros_like m) eq_refl).
  2:{ intros i x1.
      apply (run_forM_local_last Mem.Counts 1 _
        (λ j valid, if np_all (crop m i j ps ps) then incr_at valid i j
                    else Some valid) _ σ ls); [simpl; lia|].
      intros j x2. subst ls. sym_norm. sym_step.
      destruct (np_all _); [|done]. sym_step.
      by destruct (incr_at x2 i j). }
  fold (find_valid d m ps).
  unfold patch_extractor_with_mask, sampled_anchors, valid_anchors.
  destruct (find_valid d m ps) as [valid|]; [|done].
  subst ls. sym_norm. do 3 sym_step.
  destruct (sample_rows (argwhere valid) np rnd) as [rows|]; [|done].
  sym_norm. do 2 sym_step.
  set (ls := [Mem.Ten (replicate np (replicate ps (replicate ps zero)));
              Mem.Counts valid; Mem.Index (argwhere valid); Mem.Index rows]).
  rewrite (run_forM_local Mem.Ten 0 _
    (λ i arr, '(a, b) ← rows !! i;
              patch ← broadcast_to ps ps (crop d a b ps ps);
              Some (<[i:=patch]> arr))
    _ _ σ ls (replicate np (replicate ps (replicate ps zero))) eq_refl).
  2:{ intros i x1. subst ls. sym_norm. do 3 sym_step.
      destruct (rows !! i) as [[a b]|]; [|done]. sym_norm. sym_step.
      destruct (broadcast_to _ _ _) as [patch|]; [|done]. sym_norm.
      by sym_step. }
  fold (copy_patches d ps rows np
          (replicate np (replicate ps (replicate ps zero)))).
  destruct (copy_patches _ _ _ _ _) as [patches|]; [|done].
  subst ls. sym_norm. sym_step.
  eexists _, _. split; [reflexivity|]. by rewrite ext_lookup_local.
Qed.

Lemma patch_extractor_st_refines zero data np ps rnd σ d :
  Mem.heap σ !! data = Some (Mem.Mat d) →
  refines (patch_extractor_st zero data np ps rnd σ)
    (patch_extractor zero d np ps rnd)
    (λ r σ' patches, Mem.heap σ' !! r = Some (Mem.Ten patches)).
Proof.
  intros Hd. rewrite (ext_nil σ) at 1.
  unfold patch_extractor_st, patch_extractor, sampled_anchors_unmasked,
    valid_anchors_unmasked.
  do 7 sym_step.
  destruct (sample_rows _ np rnd) as [rows|]; [|done].
  sym_norm. do 2 sym_step.
  match goal with
  | |- context [ext σ ?l] => set (ls := l)
  end.
  rewrite (run_forM_local Mem.Ten 0 _
    (λ i arr, '(a, b) ← rows !! i;
              patch ← broadcast_to ps ps (crop d a b ps ps);
              Some (<[i:=patch]> arr))
    _ _ σ ls (replicate np (replicate ps (replicate ps zero))) eq_refl).
  2:{ intros i x1. subst ls. sym_norm. do 3 sym_step.
      destruct (rows !! i) as [[a b]|]; [|done]. sym_norm. sym_step.
      destruct (broadcast_to _ _ _) as [patch|]; [|done]. sym_norm.
      by sym_step. }
  fold (copy_patches d ps rows np
          (replicate np (replicate ps (replicate ps zero)))).
  destruct (copy_patches _ _ _ _ _) as [patches|]; [|done].
  subst ls. sym_norm. sym_step.
  eexists _, _. split; [reflexivity|]. by rewrite ext_lookup_local.
Qed.

Lemma read_hyperion_HSI_data_st_refines zero cast divide files σ :
  refines (read_hyperion_HSI_data_st zero cast divide files σ)
    (read_hyperion_HSI_data zero cast divide files)
    (λ r σ' cube, Mem.heap σ' !! r = Some (Mem.Ten cube)).
Proof.
  rewrite (ext_nil σ) at 1.
  unfold read_hyperion_HSI_data_st, read_hyperion_HSI_data.
  sym_step. destruct (calIdx !! 0) as [i0|]; [|done]. sym_norm. sym_step.
  destruct (sorted_files files !! i0) as [[name0 tmp]|]; [|done].
  sym_norm. do 2 sym_step.
  destruct (set_band cast _ _ _ 0 tmp) as [d0|]; [|done]. sym_norm.
  rewrite (run_forM_local Mem.Ten 0 _
    (λ i data, idx ← calIdx !! i;
               '(_, img) ← sorted_files files !! idx;
               set_band cast (nrows tmp) (ncols tmp) data i img)
    _ _ σ [Mem.Ten d0] d0 eq_refl).
  2:{ intros i x1. sym_norm. sym_step.
      destruct (calIdx !! i) as [idx|]; [|done]. sym_norm. sym_step.
      destruct (sorted_files files !! idx) as [[name img]|]; [|done].
      sym_norm. sym_step. by destruct (set_band _ _ _ _ _ _). }
  destruct (for_each _ _ d0) as [d1|]; [|done]. sym_norm.
  repeat sym_step.
  eexists _, _. split; [reflexivity|]. by rewrite ext_lookup_local.
Qed.

Lemma readENVIHeader_st_refines read_envi_header fName σ :
  refines (readENVIHeader_st read_envi_header fName σ)
    (read_envi_header fName)
    (λ r σ' hdr, Mem.heap σ' !! r.1 = Some (Mem.Vec hdr.1) ∧
                 Mem.heap σ' !! r.2 = Some (Mem.Vec hdr.2)).
Proof.
  rewrite (ext_nil σ) at 1. unfold readENVIHeader_st. sym_step.
  destruct (read_envi_header fName) as [[w f]|]; [|done]. sym_norm.
  repeat sym_step. eexists _, _. split; [reflexivity|].
  simpl fst. simpl snd. by rewrite !ext_lookup_local.
Qed.

End refinement.

Section refinement_more.
Context {T : Type}.
Implicit Types σ : Mem.store T.

Lemma band_resample_hsi_cube_st_refines zero add mul isnan BandResampler
    data bands1 bands2 fwhm1 fwhm2 mask (σ : Mem.store T) c b1 b2 f1 f2 mk :
  Mem.heap σ !! data = Some (Mem.Spec c) →
  Mem.heap σ !! bands1 = Some (Mem.Vec b1) →
  Mem.heap σ !! bands2 = Some (Mem.Vec b2) →
  Mem.heap σ !! fwhm1 = Some (Mem.Vec f1) →
  Mem.heap σ !! fwhm2 = Some (Mem.Vec f2) →
  option_Forall2 (λ l m, Mem.heap σ !! l = Some (Mem.Mask m)) mask mk →
  refines
    (band_resample_hsi_cube_st zero add mul isnan BandResampler
       data bands1 bands2 fwhm1 fwhm2 mask σ)
    (band_resample_hsi_cube zero add mul isnan BandResampler
       c b1 b2 f1 f2 mk)
    (λ r σ' res, ∃ o, Mem.heap σ' !! r = Some (Mem.Mat o) ∧
       reshape3 o (height c) (width c) (length b2) = Some res).
Proof.
  intros Hc H1 H2 H3 H4 Hm. rewrite (ext_nil σ) at 1.
  unfold band_resample_hsi_cube_st, band_resample_hsi_cube.
  do 5 sym_step.
  destruct (BandResampler b1 b2 f1 f2) as [matrix|]; [|done].
  sym_norm. do 2 sym_step.
  destruct (decide (bands c = 0)); [done|].
  destruct Hm as [l m Hl|].
  - sym_norm. do 4 sym_step.
    destruct (decide (length (concat m) = length (pixels c))); [|done].
    sym_norm. do 2 sym_step.
    destruct (matmul _ _ _ _ _ _) as [vals|]; [|done]. sym_norm. sym_step.
    destruct (mapM _ vals) as [vals'|]; [|done]. sym_norm.
    repeat sym_step.
    destruct (reshape3 _ _ _ _) as [res|] eqn:Hres; [|done]. sym_norm.
    eexists _, _. split; [reflexivity|].
    eexists. by rewrite ext_lookup_local.
  - sym_norm. do 3 sym_step.
    destruct (matmul _ _ _ _ _ _) as [o|]; [|done]. sym_norm.
    repeat sym_step.
    destruct (reshape3 _ _ _ _) as [res|] eqn:Hres; [|done]. sym_norm.
    eexists _, _. split; [reflexivity|].
    eexists. by rewrite ext_lookup_local.
Qed.


Lemma train_test_split_per_class_st_refines X y train_size test_size rnd
    (σ : Mem.store T) xs ys :
  Mem.heap σ !! X = Some (Mem.Vec xs) →
  Mem.heap σ !! y = Some (Mem.Ints ys) →
  refines (train_test_split_per_class_st X y train_size test_size rnd σ)
    (train_test_split_per_class xs ys train_size test_size rnd)
    (λ r σ' v, split_in_store σ' r v).
Proof.
  intros HX Hy. rewrite (ext_nil σ) at 1.
  unfold train_test_split_per_class_st, train_test_split_per_class.
  do 4 sym_step. destruct (bincount ys 0) as [counts|]; [|done].
  sym_norm. do 5 sym_step.
  match goal with
  | |- refines (Mem.foldM _ _ ?s (ext σ ?l)) (for_each _ _ ?v) _ =>
      assert (split_in_store (ext σ l) s v) as Hinv
        by (unfold split_in_store; by rewrite !ext_lookup_local);
      generalize dependent v; generalize dependent s;
      generalize dependent l
  end.
  induction (seq 0 (length counts)) as [|i rest IH]; intros ls s v Hinv.
  { eexists _, _. by split. }
  destruct s as [[[a b] c] d], v as [[[xa xb] yc] yd].
  destruct Hinv as (Ha & Hb & Hc & Hd).
  cbn [Mem.foldM for_each]. sym_norm. do 2 sym_step.
  destruct (decide (length ys = length xs)); [|done].
  sym_norm. sym_step.
  destruct (train_test_split _ _ _ _ _) as [[[[Xtr Xte] ytr] yte]|]; [|done].
  sym_norm. do 8 sym_step.
  apply IH. unfold split_in_store. repeat split; sym_lookup.
Qed.

End refinement_more.

(** ** The operations and their arguments *)

(** C9: every operation of the module that returns leaves each array of
    the caller's store as it was, in particular its arguments, and leaves
    the environment as it was; each location it returns was allocated
    during the call.  [set_gpu] is the exception: it always returns, the
    heap after it is the heap before it, and the environment differs by the
    variable [CUDA_VISIBLE_DEVICES], set to [str(device)] or to the empty
    string.  The library functions ([BandResampler], [read_envi_header],
    the raster reader, [train_test_split]) are taken as functions of their
    arguments; a view ([reshape], [ravel]) is the location it views. *)
Theorem operations_leave_inputs_unchanged {T} (σ σ' : Mem.store T) :
  (∀ zero add mul isnan BandResampler data bands1 bands2 fwhm1 fwhm2 mask r,
     band_resample_hsi_cube_st zero add mul isnan BandResampler
       data bands1 bands2 fwhm1 fwhm2 mask σ = Some (r, σ') →
     Mem.unchanged σ σ' ∧ Mem.fresh σ σ' r) ∧
  (∀ read_envi_header fName centers fwhm,
     readENVIHeader_st read_envi_header fName σ
       = Some ((centers, fwhm), σ') →
     Mem.unchanged σ σ' ∧ Mem.fresh σ σ' centers ∧ Mem.fresh σ σ' fwhm) ∧
  (∀ zero cast divide files r,
     read_hyperion_HSI_data_st zero cast divide files σ = Some (r, σ') →
     Mem.unchanged σ σ' ∧ Mem.fresh σ σ' r) ∧
  (∀ zero data mask num_patches patch_size rnd r,
     patch_extractor_with_mask_st zero data mask num_patches patch_size rnd σ
       = Some (r, σ') →
     Mem.unchanged σ σ' ∧ Mem.fresh σ σ' r) ∧
  (∀ zero data num_patches patch_size rnd r,
     patch_extractor_st zero data num_patches patch_size rnd σ
       = Some (r, σ') →
     Mem.unchanged σ σ' ∧ Mem.fresh σ σ' r) ∧
  (∀ labels mu numClasses r,
     class_weights_st labels mu numClasses σ = Some (r, σ') →
     Mem.unchanged σ σ' ∧ Mem.fresh σ σ' r) ∧
  (∀ X y train_size test_size rnd X_train X_test y_train y_test,
     train_test_split_per_class_st X y train_size test_size rnd σ
       = Some ((X_train, X_test, y_train, y_test), σ') →
     Mem.unchanged σ σ' ∧
     Mem.fresh σ σ' X_train ∧ Mem.fresh σ σ' X_test ∧
     Mem.fresh σ σ' y_train ∧ Mem.fresh σ σ' y_test) ∧
  (∀ device, ∃ σ'',
     set_gpu_st device σ = Some ((), σ'') ∧
     Mem.heap σ'' = Mem.heap σ ∧
     Mem.environ σ''
     = <["CUDA_VISIBLE_DEVICES" := default "" (str <$> device)]>
         (Mem.environ σ)).
Proof.
  repeat apply conj; intros.
  - by eapply band_resample_hsi_cube_st_frame.
  - by eapply readENVIHeader_st_frame.
  - by eapply read_hyperion_HSI_data_st_frame.
  - by eapply patch_extractor_with_mask_st_frame.
  - by eapply patch_extractor_st_frame.
  - by eapply class_weights_st_frame.
  - by eapply train_test_split_per_class_st_frame.
  - eexists. split; [reflexivity|]. by eapply set_gpu_st_effect.
Qed.

Lemma operations_leave_inputs_unchanged_witness :
  ∃ r σ',
    band_resample_hsi_cube_st 0%Z Z.add Z.mul (λ _, false)
      nearest_band_matrix 0 1 2 3 3 (Some 4) demo_store = Some (r, σ') ∧
    Mem.heap σ' !! r = Some (Mem.Mat [[3; 1]; [0; 0]; [9; 7]; [12; 10]]%Z) ∧
    Mem.unchanged demo_store σ' ∧ Mem.fresh demo_store σ' r.
Proof.
  eexists _, _. split; [vm_compute; reflexivity|]. split; [reflexivity|].
  apply (proj1 (operations_leave_inputs_unchanged demo_store _)
           0%Z Z.add Z.mul (λ _, false) nearest_band_matrix
           0 1 2 3 3 (Some 4)).
  vm_compute. reflexivity.
Defined.

(** * Further properties

    Properties of the same functions beyond the ones above: what they
    return on the inputs they accept, where they raise, and what their
    results do not depend on. *)


(** ** More on class weights *)



Lemma filter_all {A} (P : A → Prop) `{∀ x, Decision (P x)} (l : list A) :
  Forall P l → filter P l = l.
Proof.
  induction 1 as [|x l Hx _ IH]; [done|].
  by rewrite filter_cons, decide_True, IH.
Qed.


Lemma bincount_length labels n counts :
  bincount labels n = Some counts →
  length counts
  = Z.to_nat (Z.max n (from_option (λ m, m + 1)%Z 0%Z (amax labels))).
Proof.
  unfold bincount. destruct (_ && _); [|done]. intros [= <-].
  rewrite length_fmap, length_seq. by destruct (amax labels).
Qed.

Lemma bincount_is_Some labels n :
  Forall (λ x, 0 ≤ x)%Z labels → (0 ≤ n)%Z → is_Some (bincount labels n).
Proof.
  intros Hnn Hn. unfold bincount.
  assert (forallb (λ x, 0 <=? x)%Z labels = true) as ->.
  { apply forallb_forall. intros x Hx%list_elem_of_In.
    rewrite Forall_forall in Hnn. specialize (Hnn x Hx). simpl in Hnn. lia. }
  assert ((0 <=? n)%Z = true) as -> by lia. by eexists.
Qed.

Lemma bincount_negative labels n x :
  x ∈ labels → (x < 0)%Z → bincount labels n = None.
Proof.
  intros Hx Hneg. destruct (bincount labels n) as [counts|] eqn:Hb; [|done].
  destruct (bincount_Some _ _ _ Hb) as (Hnn & _).
  rewrite Forall_forall in Hnn. specialize (Hnn x Hx). simpl in Hnn. lia.
Qed.







(** X3: [class_weights] raises on a negative label and on an empty label
    vector without [numClasses].  With labels that are not negative and not
    all missing it returns one weight per class up to the largest label:
    [max(labels) + 1] weights without [numClasses], and with a positive
    [numClasses] the larger of [numClasses] and [max(labels) + 1], so a
    label beyond [numClasses] lengthens the result instead of raising. *)
Theorem class_weights_returns labels mu :
  (∀ numClasses x, x ∈ labels → (x < 0)%Z →
     class_weights labels mu numClasses = None) ∧
  class_weights [] mu None = None ∧
  (∀ m, amax labels = Some m → Forall (λ x, 0 ≤ x)%Z labels →
     (∃ w, class_weights labels mu None = Some w ∧
           length w = Z.to_nat (m + 1)) ∧
     (∀ n, (0 < n)%Z →
        ∃ w, class_weights labels mu (Some n) = Some w ∧
             length w = Z.to_nat (Z.max n (m + 1)))).
Proof.
  split; [|split; [done|]].
  - intros numClasses x Hx Hneg. unfold class_weights.
    destruct (match numClasses with Some n => Some n | None => _ end)
      as [n|]; [|done]. simpl.
    by rewrite (bincount_negative _ _ _ Hx Hneg).
  - intros m Hm Hnn.
    assert (0 ≤ m)%Z as Hm0.
    { destruct labels as [|x l]; [done|]. injection Hm as <-.
      apply Forall_inv in Hnn.
      pose proof (amax_upper_bound x x l ltac:(apply elem_of_cons; by left)).
      lia. }
    assert (∀ n, (0 ≤ n)%Z → ∃ counts, bincount labels n = Some counts ∧
              length counts = Z.to_nat (Z.max n (m + 1))) as Hb.
    { intros n Hn. destruct (bincount_is_Some labels n Hnn Hn) as [counts Hc].
      exists counts. split; [done|].
      rewrite (bincount_length _ _ _ Hc), Hm. done. }
    split.
    + destruct (Hb (m + 1)%Z ltac:(lia)) as (counts & Hc & Hlen).
      eexists. unfold class_weights. rewrite Hm. simpl. rewrite Hc. simpl.
      split; [done|]. unfold clamp_below_one, guarded_ratio.
      rewrite !length_fmap, Hlen. f_equal. lia.
    + intros n Hn. destruct (Hb n ltac:(lia)) as (counts & Hc & Hlen).
      eexists. unfold class_weights. simpl. rewrite Hc. simpl.
      split; [done|]. unfold clamp_below_one, guarded_ratio.
      by rewrite !length_fmap.
Qed.

(** ** More on patch extraction *)

Lemma for_each_None_head {S} (body : nat → S → option S) i l s :
  body i s = None → for_each body (i :: l) s = None.
Proof. intros H. simpl. by rewrite H. Qed.

Lemma slice_stop_le len stop : slice_stop len stop ≤ len.
Proof. unfold slice_stop. case_decide; lia. Qed.

Lemma slice_stop_fits (len ps : nat) :
  ps ≤ len → slice_stop len (Z.of_nat len - Z.of_nat ps) = len - ps.
Proof. intros H. unfold slice_stop. rewrite decide_False by lia. lia. Qed.

Lemma slice_stop_wraps (len ps : nat) :
  len < ps → slice_stop len (Z.of_nat len - Z.of_nat ps) = 2 * len - ps.
Proof. intros H. unfold slice_stop. rewrite decide_True by lia. lia. Qed.

(** [valid[0:r, 0:c] = 1] writes the cells of the first [r] rows and [c]
    columns and no other. *)
Lemma get2_fill_ones r c (v : list (list nat)) i j :
  get2 (fill_ones r c v) i j
  = (λ x, if bool_decide (i < r ∧ j < c) then 1 else x) <$> get2 v i j.
Proof.
  unfold fill_ones, get2.
  destruct (decide (i < r)) as [Hi|Hi].
  - destruct (v !! i) as [row|] eqn:Hrow.
    + rewrite lookup_app_l
        by (rewrite length_fmap, length_take; apply lookup_lt_Some in Hrow; lia).
      rewrite list_lookup_fmap, lookup_take_lt, Hrow by done. simpl.
      destruct (decide (j < c)) as [Hj|Hj].
      * destruct (row !! j) as [x|] eqn:Hx.
        -- apply lookup_lt_Some in Hx as Hlt.
           rewrite lookup_app_l by (rewrite length_replicate; lia).
           rewrite lookup_replicate_2 by lia. simpl.
           by rewrite bool_decide_eq_true_2.
        -- apply lookup_ge_None in Hx. simpl. apply lookup_ge_None.
           rewrite length_app, length_replicate, length_drop. lia.
      * destruct (decide (c ≤ length row)).
        -- rewrite lookup_app_r by (rewrite length_replicate; lia).
           rewrite length_replicate, lookup_drop.
           replace (c + (j - c `min` length row)) with j by lia.
           destruct (row !! j); [simpl|done].
           by rewrite bool_decide_eq_false_2 by lia.
        -- assert (row !! j = None) as -> by (apply lookup_ge_None; lia).
           simpl. apply lookup_ge_None.
           rewrite length_app, length_replicate, length_drop. lia.
    + apply lookup_ge_None in Hrow. simpl.
      match goal with
      | |- ?l !! i ≫= _ = _ =>
          assert (l !! i = None) as ->; [|done]
      end.
      apply lookup_ge_None.
      rewrite length_app, length_fmap, length_take, length_drop. lia.
  - destruct (decide (r ≤ length v)).
    + rewrite lookup_app_r by (rewrite length_fmap, length_take; lia).
      rewrite length_fmap, length_take, lookup_drop.
      replace (r + (i - r `min` length v)) with i by lia.
      destruct (v !! i) as [row|]; [simpl|done].
      destruct (row !! j); [simpl|done].
      by rewrite bool_decide_eq_false_2 by lia.
    + assert (v !! i = None) as -> by (apply lookup_ge_None; lia).
      simpl.
      match goal with
      | |- ?l !! i ≫= _ = _ =>
          assert (l !! i = None) as ->; [|done]
      end.
      apply lookup_ge_None.
      rewrite length_app, length_fmap, length_take, length_drop. lia.
Qed.

Lemma fill_ones_shape r c (v : list (list nat)) :
  length <$> fill_ones r c v = length <$> v.
Proof.
  unfold fill_ones. rewrite fmap_app, <- list_fmap_compose.
  rewrite <- (take_drop r v) at 3. rewrite fmap_app. f_equal.
  apply list_fmap_ext. intros k row _. simpl.
  rewrite length_app, length_replicate, length_drop. lia.
Qed.

Lemma zeros_like_shape {A} (m : list (list A)) :
  length <$> zeros_like m = length <$> m.
Proof.
  unfold zeros_like. rewrite <- list_fmap_compose.
  apply list_fmap_ext. intros k row _. simpl. by rewrite length_replicate.
Qed.

Lemma rect_shape {A} R C (m : list (list A)) :
  rect R C m ↔ length <$> m = replicate R C.
Proof.
  unfold rect. split.
  - intros [<- H]. induction H as [|row m Hrow _ IH]; [done|].
    rewrite fmap_cons. cbn [length replicate]. by rewrite Hrow, IH.
  - intros H. split.
    + apply (f_equal length) in H.
      by rewrite length_fmap, length_replicate in H.
    + apply Forall_forall. intros row (k & Hk)%list_elem_of_lookup.
      assert ((length <$> m) !! k = Some (length row)) as Hl
        by (by rewrite list_lookup_fmap, Hk).
      rewrite H in Hl. by apply lookup_replicate in Hl as [-> _].
Qed.

(** The candidate anchors of the unmasked extractor. *)
Lemma elem_of_valid_anchors_unmasked {A} (data : list (list A)) ps a b :
  (a, b) ∈ valid_anchors_unmasked data ps ↔
    a < slice_stop (nrows data) (Z.of_nat (nrows data) - Z.of_nat ps) ∧
    b < slice_stop (ncols data) (Z.of_nat (ncols data) - Z.of_nat ps) ∧
    is_Some (get2 data a b).
Proof.
  unfold valid_anchors_unmasked. rewrite elem_of_argwhere.
  setoid_rewrite get2_fill_ones. setoid_rewrite get2_zeros_like.
  destruct (get2 data a b) as [x|]; simpl.
  - case_bool_decide as Hab.
    + split; [intros _; split_and!; [lia..|by eexists]|].
      intros _. exists 1. split; [done|lia].
    + split; [intros (x' & [= <-] & ?); lia|]. intros (? & ? & _). lia.
  - split; [by intros (x' & ? & _)|]. by intros (_ & _ & [? ?]).
Qed.

Lemma NoDup_list_prod {A B} (l : list A) (k : list B) :
  NoDup l → NoDup k → NoDup (list_prod l k).
Proof.
  intros Hl Hk. induction Hl as [|x l Hx Hl IH]; simpl; [constructor|].
  apply NoDup_app. split; [|split; [|done]].
  - apply (NoDup_fmap_2 _). done.
  - intros [x' y] (y' & [= -> ->] & _)%list_elem_of_fmap.
    rewrite <- list_cprod_list_prod, list_elem_of_cprod. simpl. tauto.
Qed.

(** An image of [R] rows and [C] columns has [(R - ps) * (C - ps)]
    candidate anchors when the patch fits. *)
Lemma valid_anchors_unmasked_fitting {A} R C (data : list (list A)) ps :
  rect R C data → ps ≤ R → ps ≤ C →
  (∀ a b, (a, b) ∈ valid_anchors_unmasked data ps ↔ a < R - ps ∧ b < C - ps) ∧
  length (valid_anchors_unmasked data ps) = (R - ps) * (C - ps).
Proof.
  intros Hd HR HC.
  assert (∀ a b, (a, b) ∈ valid_anchors_unmasked data ps
                 ↔ a < R - ps ∧ b < C - ps) as Hin.
  { intros a b. rewrite elem_of_valid_anchors_unmasked.
    rewrite (rect_nrows _ _ _ Hd). destruct (decide (0 < R)) as [H0|H0].
    - rewrite (rect_ncols _ _ _ Hd H0), !slice_stop_fits by done.
      split; [tauto|]. intros [? ?]. split_and!; [done..|].
      apply (rect_get2 R C); [done|lia..].
    - assert (R = 0) as -> by lia. rewrite slice_stop_fits by done.
      split; intros; lia. }
  split; [done|].
  rewrite <- (length_seq (R - ps) 0), <- (length_seq (C - ps) 0).
  rewrite <- length_prod. apply Permutation_length, NoDup_Permutation.
  - apply NoDup_argwhere.
  - apply NoDup_list_prod; apply NoDup_seq.
  - intros [a b]. rewrite Hin, <- list_cprod_list_prod, list_elem_of_cprod.
    simpl. rewrite !elem_of_seq. lia.
Qed.

Lemma patch_extractor_Some {A} (zero : A) data np ps rnd patches :
  patch_extractor zero data np ps rnd = Some patches →
  ∃ anchors,
    sampled_anchors_unmasked data np ps rnd = Some anchors ∧
    copy_patches data ps anchors np
      (replicate np (replicate ps (replicate ps zero))) = Some patches.
Proof.
  unfold patch_extractor. intros H.
  destruct (sampled_anchors_unmasked data np ps rnd) as [anchors|]; [|done].
  by exists anchors.
Qed.

(** X4: on an image of [R] rows and [C] columns and with a patch that
    fits, [patch_extractor] has [(R - ps) * (C - ps)] candidate anchors,
    returns exactly when between 1 and that many patches are asked for,
    and every returned patch is the crop of the image at its anchor, an
    anchor in the rows below [R - ps] and the columns below [C - ps]. *)
Theorem patch_extractor_fitting {A} (zero : A) R C (data : list (list A))
    np ps rnd :
  rect R C data → ps ≤ R → ps ≤ C →
  length (valid_anchors_unmasked data ps) = (R - ps) * (C - ps) ∧
  (is_Some (patch_extractor zero data np ps rnd)
   ↔ 0 < np ≤ (R - ps) * (C - ps)) ∧
  ∀ patches, patch_extractor zero data np ps rnd = Some patches →
    ∃ anchors,
      sampled_anchors_unmasked data np ps rnd = Some anchors ∧
      length anchors = np ∧ length patches = np ∧
      ∀ k a b, anchors !! k = Some (a, b) →
        a < R - ps ∧ b < C - ps ∧
        patches !! k = Some (crop data a b ps ps) ∧
        rect ps ps (crop data a b ps ps).
Proof.
  intros Hd HR HC.
  destruct (valid_anchors_unmasked_fitting R C data ps Hd HR HC)
    as [Hin Hcount].
  assert (∀ a b, a < R - ps → b < C - ps → rect ps ps (crop data a b ps ps))
    as Hcrop by (intros a b ? ?; apply (rect_crop R C); [done|lia..]).
  assert (∀ patches, patch_extractor zero data np ps rnd = Some patches →
    ∃ anchors,
      sampled_anchors_unmasked data np ps rnd = Some anchors ∧
      length anchors = np ∧ length patches = np ∧
      ∀ k a b, anchors !! k = Some (a, b) →
        a < R - ps ∧ b < C - ps ∧
        patches !! k = Some (crop data a b ps ps) ∧
        rect ps ps (crop data a b ps ps)) as Hret.
  { intros patches (anchors & Hs & Hcp)%patch_extractor_Some.
    exists anchors. split; [done|].
    destruct (sampled_anchors_unmasked_Some _ _ _ _ _ Hs)
      as (_ & _ & Hlen & _ & Hsub).
    apply copy_patches_Some in Hcp as [Hlenp Hcp];
      [|by rewrite length_replicate].
    split; [done|]. split; [done|]. intros k a b Hk.
    assert (k < np) as Hknp by (apply lookup_lt_Some in Hk; lia).
    apply list_elem_of_lookup_2 in Hk as Hab. apply Hsub, Hin in Hab as [Ha Hb].
    split; [done|]. split; [done|]. split; [|by apply Hcrop].
    destruct (Hcp k Hknp) as (a' & b' & patch & Hk' & Hbc & Hout).
    rewrite Hk in Hk'. injection Hk' as <- <-.
    rewrite (broadcast_to_exact ps ps) in Hbc by (by apply Hcrop).
    by injection Hbc as <-. }
  split; [done|]. split; [|done]. split.
  - intros [patches (anchors & Hs & _)%patch_extractor_Some].
    destruct (sampled_anchors_unmasked_Some _ _ _ _ _ Hs) as (? & ? & _).
    lia.
  - intros [Hpos Hle]. rewrite <- Hcount in Hle.
    destruct (sample_rows_is_Some (valid_anchors_unmasked data ps) np rnd
                Hpos Hle) as [anchors Hs].
    unfold patch_extractor, sampled_anchors_unmasked. rewrite Hs. simpl.
    destruct (sample_rows_Some _ _ _ _ Hs (NoDup_argwhere _))
      as (_ & _ & Hlen & _ & Hsub).
    apply copy_patches_is_Some. intros k Hk.
    destruct (lookup_lt_is_Some_2 anchors k ltac:(lia)) as [[a b] Hab].
    exists a, b. split; [done|].
    apply list_elem_of_lookup_2, Hsub, Hin in Hab as [Ha Hb].
    rewrite (broadcast_to_exact ps ps) by (by apply Hcrop). by eexists.
Qed.

Lemma patch_extractor_fitting_witness :
  length (valid_anchors_unmasked
            ((λ i, (λ j, 10 * i + j) <$> seq 0 4) <$> seq 0 4) 2)
  = (4 - 2) * (4 - 2).
Proof.
  apply (patch_extractor_fitting 0 4 4
           ((λ i, (λ j, 10 * i + j) <$> seq 0 4) <$> seq 0 4) 2 2 (λ i, i)).
  - split; [reflexivity|]. repeat constructor.
  - lia.
  - lia.
Defined.

Lemma length_crop_rows {A} (m : list (list A)) i j h w :
  length (crop m i j h w) = h `min` (length m - i).
Proof. unfold crop. by rewrite length_fmap, length_take, length_drop. Qed.

(** A crop that runs over the end of an axis of the image is refused by
    the slot of the patch array, unless it is one pixel wide. *)
Lemma broadcast_to_short_crop {A} R C (data : list (list A)) a b ps :
  rect R C data →
  (ps < R - a + ps ∧ 2 ≤ R - a < ps) ∨
  (a + ps ≤ R ∧ 2 ≤ C - b < ps) →
  broadcast_to ps ps (crop data a b ps ps) = None.
Proof.
  intros [Hlen Hrows] [[_ Ha]|[Ha Hb]]; unfold broadcast_to.
  - assert (length (crop data a b ps ps) = R - a) as Hl
      by (rewrite length_crop_rows; lia).
    unfold broadcast_axis at 2. rewrite decide_False by lia.
    destruct (crop data a b ps ps) as [|r1 [|r2 rest]]; simpl in *;
      try done; lia.
  - assert (length (crop data a b ps ps) = ps) as Hl
      by (rewrite length_crop_rows; lia).
    rewrite broadcast_axis_exact by done. simpl.
    unfold crop in *. destruct (take ps (drop a data)) as [|row rest] eqn:Ht.
    { simpl in Hl. lia. }
    assert (row ∈ data) as Hrow.
    { assert (row ∈ take ps (drop a data)) as H
        by (rewrite Ht; apply elem_of_cons; by left).
      apply list_elem_of_lookup in H as (k & Hk).
      apply lookup_take_Some in Hk as [Hk _]. rewrite lookup_drop in Hk.
      by eapply list_elem_of_lookup_2. }
    rewrite Forall_forall in Hrows. specialize (Hrows row Hrow).
    rewrite fmap_cons. cbn [mapM].
    assert (broadcast_axis ps (take ps (drop b row)) = None) as ->; [|done].
    assert (length (take ps (drop b row)) = C - b) as Hl'
      by (rewrite length_take, length_drop; lia).
    unfold broadcast_axis. rewrite decide_False by lia.
    destruct (take ps (drop b row)) as [|x1 [|x2 rest']]; simpl in *;
      try done; lia.
Qed.

(** X5: a patch larger than the image makes both extractors raise,
    whatever the number of patches: the masked one finds no anchor to
    sample from; the unmasked one may find anchors, through the negative
    end of its slice, but then the crop does not fill the patch. *)
Theorem patch_larger_than_image_raises {A} (zero : A) R C
    (data : list (list A)) np ps rnd :
  rect R C data → R < ps ∨ C < ps →
  patch_extractor zero data np ps rnd = None ∧
  ∀ mask, patch_extractor_with_mask zero data mask np ps rnd = None.
Proof.
  intros Hd Hbig. split.
  - destruct (patch_extractor zero data np ps rnd) as [patches|] eqn:H;
      [exfalso|done].
    apply patch_extractor_Some in H as (anchors & Hs & Hcp).
    destruct (sampled_anchors_unmasked_Some _ _ _ _ _ Hs)
      as (Hpos & _ & Hlen & _ & Hsub).
    destruct (lookup_lt_is_Some_2 anchors 0 ltac:(lia)) as [[a b] Hab].
    apply list_elem_of_lookup_2 in Hab as Hin.
    apply Hsub, elem_of_valid_anchors_unmasked in Hin as (Ha & Hb & Hcell).
    rewrite (rect_nrows _ _ _ Hd) in Ha.
    assert (0 < R) as HR0 by (pose proof (slice_stop_le R
      (Z.of_nat R - Z.of_nat ps)); lia).
    rewrite (rect_ncols _ _ _ Hd HR0) in Hb.
    unfold copy_patches in Hcp. destruct np as [|np]; [lia|].
    change (seq 0 (S np)) with (0 :: seq 1 np) in Hcp.
    rewrite for_each_None_head in Hcp; [done|].
    rewrite Hab. simpl.
    rewrite (broadcast_to_short_crop R C); [done..|].
    destruct (decide (R < ps)) as [HR|HR].
    + left. rewrite slice_stop_wraps in Ha by done. lia.
    + right. destruct Hbig as [?|HC]; [lia|].
      rewrite slice_stop_fits in Ha by lia.
      rewrite slice_stop_wraps in Hb by done. lia.
  - intros mask. unfold patch_extractor_with_mask, sampled_anchors.
    destruct (valid_anchors data mask ps) as [idx|] eqn:Hidx; [|done].
    assert (idx = []) as ->.
    { destruct idx as [|[a b] rest]; [done|].
      assert ((a, b) ∈ (a, b) :: rest) as Hin
        by (apply elem_of_cons; by left).
      apply (elem_of_valid_anchors _ _ _ _ _ _ Hidx) in Hin as (Ha & Hb & _).
      rewrite (rect_nrows _ _ _ Hd) in Ha.
      rewrite (rect_ncols _ _ _ Hd) in Hb by lia. lia. }
    simpl. unfold sample_rows, sample. simpl.
    destruct np as [|np]; [done|]. by rewrite decide_False by lia.
Qed.

Lemma patch_larger_than_image_raises_witness :
  patch_extractor 0 (replicate 10 (replicate 10 7)) 1 16 (λ _, 0) = None ∧
  ∀ mask,
    patch_extractor_with_mask 0 (replicate 10 (replicate 10 7)) mask 1 16
      (λ _, 0) = None.
Proof.
  apply (patch_larger_than_image_raises 0 10 10).
  - apply rect_replicate.
  - lia.
Defined.

Lemma list_bind_ext_in {A B} (f g : A → list B) (l : list A) :
  (∀ x, x ∈ l → f x = g x) → l ≫= f = l ≫= g.
Proof.
  induction l as [|x l IH]; intros H; [done|].
  rewrite !bind_cons, (H x) by (apply elem_of_cons; by left).
  f_equal. apply IH. intros y Hy. apply H, elem_of_cons. by right.
Qed.

(** [np.argwhere(v > 0)] depends on the shape of [v] and on which of its
    cells are positive. *)
Lemma argwhere_ext (v1 v2 : list (list nat)) :
  length <$> v1 = length <$> v2 →
  (∀ i j x1 x2, get2 v1 i j = Some x1 → get2 v2 i j = Some x2 →
     (0 < x1 ↔ 0 < x2)) →
  argwhere v1 = argwhere v2.
Proof.
  intros Hshape Hpos. unfold argwhere.
  assert (length v1 = length v2) as Hlen.
  { apply (f_equal length) in Hshape. by rewrite !length_fmap in Hshape. }
  assert (∀ i, from_option length 0 (v1 !! i)
               = from_option length 0 (v2 !! i)) as Hrow.
  { intros i. apply (f_equal (λ l, l !! i)) in Hshape.
    rewrite !list_lookup_fmap in Hshape.
    destruct (v1 !! i), (v2 !! i); simpl in *; congruence. }
  rewrite Hlen. apply list_bind_ext_in. intros i _.
  rewrite Hrow. apply list_bind_ext_in. intros j Hj%elem_of_seq.
  unfold get2 in *. specialize (Hpos i j). specialize (Hrow i).
  destruct (v1 !! i) as [r1|], (v2 !! i) as [r2|]; simpl in *;
    try (exfalso; lia).
  destruct (lookup_lt_is_Some_2 r1 j ltac:(lia)) as [x1 H1].
  destruct (lookup_lt_is_Some_2 r2 j ltac:(lia)) as [x2 H2].
  rewrite H1, H2 in *. specialize (Hpos x1 x2 eq_refl eq_refl).
  destruct (decide (0 < x1)), (decide (0 < x2)); (done || lia).
Qed.

Lemma incr_at_shape v i j v' :
  incr_at v i j = Some v' → length <$> v' = length <$> v.
Proof.
  unfold incr_at. intros H.
  destruct (v !! i) as [row|] eqn:Hrow; [|done]. simpl in H.
  destruct (row !! j) as [x|]; [|done]. injection H as <-.
  rewrite list_fmap_insert, length_insert. apply list_insert_id.
  by rewrite list_lookup_fmap, Hrow.
Qed.

Lemma find_valid_shape {A} (data : list (list A)) mask ps valid :
  find_valid data mask ps = Some valid → length <$> valid = length <$> mask.
Proof.
  unfold find_valid. intros H. rewrite <- (zeros_like_shape mask).
  apply (for_each_inv
    (λ _ s, length <$> s = length <$> zeros_like mask) _ _ _ _ H); [done|].
  intros pre i s0 s1 _ Hs0 Hrow. rewrite <- Hs0.
  apply (for_each_inv (λ _ s, length <$> s = length <$> s0) _ _ _ _ Hrow);
    [done|].
  intros pre' j s2 s3 _ Hs2 Hcell. rewrite <- Hs2.
  destruct (np_all _); [by eapply incr_at_shape|by injection Hcell as <-].
Qed.

Lemma np_all_crop_true mask i j h w :
  Forall (Forall (λ b, b = true)) mask → np_all (crop mask i j h w) = true.
Proof.
  intros Hall. unfold np_all, crop. apply forallb_forall.
  intros row (row0 & -> & Hrow0)%list_elem_of_In%list_elem_of_fmap.
  apply forallb_forall. intros b Hb%list_elem_of_In.
  assert (row0 ∈ mask) as Hin.
  { apply list_elem_of_lookup in Hrow0 as (k & Hk).
    apply lookup_take_Some in Hk as [Hk _]. rewrite lookup_drop in Hk.
    by eapply list_elem_of_lookup_2. }
  rewrite Forall_forall in Hall. specialize (Hall _ Hin).
  rewrite Forall_forall in Hall. apply Hall.
  apply list_elem_of_lookup in Hb as (k & Hk).
  apply lookup_take_Some in Hk as [Hk _]. rewrite lookup_drop in Hk.
  by eapply list_elem_of_lookup_2.
Qed.

(** X6: under a mask of the shape of the image that is true everywhere the
    masked extractor is the unmasked one (same draws, patch that fits):
    same candidate anchors in the same order, same patches, same
    failures. *)
Theorem all_true_mask_is_no_mask {A} (zero : A) R C (data : list (list A))
    mask np ps rnd :
  rect R C data → rect R C mask → ps ≤ R → ps ≤ C →
  Forall (Forall (λ b, b = true)) mask →
  valid_anchors data mask ps = Some (valid_anchors_unmasked data ps) ∧
  patch_extractor_with_mask zero data mask np ps rnd
  = patch_extractor zero data np ps rnd.
Proof.
  intros Hd Hm HR HC Htrue.
  assert (valid_anchors data mask ps = Some (valid_anchors_unmasked data ps))
    as Hidx.
  { destruct (find_valid_is_Some R C data mask ps Hd Hm) as [v Hv].
    unfold valid_anchors. rewrite Hv. simpl. f_equal.
    unfold valid_anchors_unmasked. apply argwhere_ext.
    - rewrite (find_valid_shape _ _ _ _ Hv), fill_ones_shape,
        zeros_like_shape.
      apply rect_shape in Hd, Hm. congruence.
    - intros i j x1 x2. rewrite (find_valid_get2 _ _ _ _ _ _ Hv).
      rewrite get2_fill_ones, get2_zeros_like, np_all_crop_true by done.
      rewrite andb_true_r, (rect_nrows _ _ _ Hd).
      intros (b & Hb & ->)%fmap_Some.
      intros (x & (px & Hpx & ->)%fmap_Some & ->)%fmap_Some.
      assert (0 < R) as HR0.
      { destruct Hd as [<- _]. unfold get2 in Hpx.
        destruct (data !! i) eqn:Hrow; [|done].
        apply lookup_lt_Some in Hrow. lia. }
      rewrite (rect_ncols _ _ _ Hd HR0), !slice_stop_fits by done.
      destruct (bool_decide _); simpl; lia. }
  split; [done|].
  unfold patch_extractor_with_mask, patch_extractor, sampled_anchors,
    sampled_anchors_unmasked. by rewrite Hidx.
Qed.

Lemma all_true_mask_is_no_mask_witness :
  let data := (λ i, (λ j, 10 * i + j) <$> seq 0 4) <$> seq 0 4 in
  valid_anchors data (replicate 4 (replicate 4 true)) 2
  = Some (valid_anchors_unmasked data 2) ∧
  patch_extractor_with_mask 0 data (replicate 4 (replicate 4 true)) 2 2
    (λ i, 5 * i + 1)
  = patch_extractor 0 data 2 2 (λ i, 5 * i + 1).
Proof.
  intros data.
  apply (all_true_mask_is_no_mask 0 4 4 data (replicate 4 (replicate 4 true))
           2 2 (λ i, 5 * i + 1)).
  - split; [reflexivity|]. repeat constructor.
  - apply rect_replicate.
  - lia.
  - lia.
  - repeat constructor.
Defined.

(** X7: with an image and a mask of one shape the masked extractor returns
    exactly when between 1 and the number of candidate anchors patches are
    asked for; what it returns is [num_patches] patches of [ps] rows and
    [ps] columns. *)
Theorem patch_extractor_with_mask_returns_iff {A} (zero : A) R C
    (data : list (list A)) mask np ps rnd :
  rect R C data → rect R C mask →
  ∃ idx, valid_anchors data mask ps = Some idx ∧
    (is_Some (patch_extractor_with_mask zero data mask np ps rnd)
     ↔ 0 < np ≤ length idx) ∧
    ∀ patches,
      patch_extractor_with_mask zero data mask np ps rnd = Some patches →
      length patches = np ∧ Forall (rect ps ps) patches.
Proof.
  intros Hd Hm.
  destruct (patch_extractor_with_mask_returns zero R C data mask np ps rnd
              Hd Hm) as (idx & Hidx & Hret).
  exists idx. split; [done|]. split; [split|].
  - intros [patches (idx' & anchors & Hidx' & Hs & _)%patch_extractor_with_mask_Some].
    assert (idx' = idx) as -> by congruence.
    destruct (sample_rows_Some _ _ _ _ Hs (NoDup_valid_anchors _ _ _ _ Hidx))
      as (? & ? & _). lia.
  - intros [? ?]. by apply Hret.
  - intros patches Hp.
    destruct (patch_extractor_with_mask_Some _ _ _ _ _ _ _ Hp)
      as (idx' & anchors & Hidx' & Hs & _ & Hcp).
    assert (idx' = idx) as -> by congruence.
    destruct (sample_rows_Some _ _ _ _ Hs (NoDup_valid_anchors _ _ _ _ Hidx))
      as (_ & _ & Hlen & _ & Hsub).
    apply copy_patches_Some in Hcp as [Hlenp Hcp];
      [|by rewrite length_replicate].
    split; [done|]. apply Forall_forall.
    intros patch (k & Hk)%list_elem_of_lookup.
    assert (k < np) as Hknp by (apply lookup_lt_Some in Hk; lia).
    destruct (Hcp k Hknp) as (a & b & patch' & Hab & Hbc & Hout).
    assert (patch' = patch) as -> by congruence.
    by eapply broadcast_to_rect.
Qed.

Lemma patch_extractor_with_mask_returns_iff_witness :
  let data := (λ i, (λ j, 10 * i + j) <$> seq 0 4) <$> seq 0 4 in
  let mask := [[true; true; true; true]; [true; true; true; true];
               [true; true; false; true]; [true; true; true; true]] in
  ∃ idx, valid_anchors data mask 2 = Some idx ∧
    (is_Some (patch_extractor_with_mask 0 data mask 2 2 (λ i, 5 * i + 1))
     ↔ 0 < 2 ≤ length idx) ∧
    ∀ patches,
      patch_extractor_with_mask 0 data mask 2 2 (λ i, 5 * i + 1)
        = Some patches →
      length patches = 2 ∧ Forall (rect 2 2) patches.
Proof.
  intros data mask.
  apply (patch_extractor_with_mask_returns_iff 0 4 4 data mask 2 2
           (λ i, 5 * i + 1)).
  - split; [reflexivity|]. repeat constructor.
  - split; [reflexivity|]. repeat constructor.
Defined.

(** ** More on the Hyperion cube *)

Lemma for_each_None_at {S} (body : nat → S → option S) i l :
  i ∈ l → (∀ s, body i s = None) → ∀ s, for_each body l s = None.
Proof.
  intros Hi Hnone. induction l as [|j l IH]; intros s.
  - by apply elem_of_nil in Hi.
  - simpl. apply elem_of_cons in Hi as [<-|Hi]; [by rewrite Hnone|].
    destruct (body j s); [by apply IH|done].
Qed.

Lemma for_each_ext_in {S} (b1 b2 : nat → S → option S) l :
  (∀ i s, i ∈ l → b1 i s = b2 i s) →
  ∀ s, for_each b1 l s = for_each b2 l s.
Proof.
  induction l as [|j l IH]; intros H s; [done|]. simpl.
  rewrite (H j s) by (apply elem_of_cons; by left).
  destruct (b2 j s); [|done]. simpl. apply IH.
  intros i s' Hi. apply H, elem_of_cons. by right.
Qed.

Lemma ascii_compare_Lt a b :
  Ascii.compare a b = Lt ↔ (Ascii.N_of_ascii a < Ascii.N_of_ascii b)%N.
Proof. unfold Ascii.compare. apply N.compare_lt_iff. Qed.

Lemma ascii_compare_Gt a b :
  Ascii.compare a b = Gt ↔ (Ascii.N_of_ascii b < Ascii.N_of_ascii a)%N.
Proof. unfold Ascii.compare. apply N.compare_gt_iff. Qed.

Lemma ascii_compare_refl a : Ascii.compare a a = Eq.
Proof. unfold Ascii.compare. apply N.compare_refl. Qed.

Lemma string_leb_trans (s1 s2 s3 : string) :
  String.leb s1 s2 = true → String.leb s2 s3 = true →
  String.leb s1 s3 = true.
Proof.
  unfold String.leb. revert s2 s3.
  induction s1 as [|a s1 IH]; intros [|b s2] [|c s3]; simpl; try done.
  specialize (IH s2 s3).
  destruct (Ascii.compare a b) eqn:Hab; [| |done].
  - apply Ascii.compare_eq_iff in Hab as ->.
    destruct (Ascii.compare b c); [done|done|done].
  - destruct (Ascii.compare b c) eqn:Hbc; [| |by simpl].
    + apply Ascii.compare_eq_iff in Hbc as ->. by rewrite Hab.
    + apply (proj1 (ascii_compare_Lt _ _)) in Hab.
      apply (proj1 (ascii_compare_Lt _ _)) in Hbc.
      assert (Ascii.compare a c = Lt) as ->
        by (apply ascii_compare_Lt; lia).
      done.
Qed.

#[local] Instance name_le_trans : Transitive name_le.
Proof.
  intros f g h. unfold name_le. intros Hfg Hgh.
  apply Is_true_true in Hfg, Hgh. apply Is_true_true.
  by eapply string_leb_trans.
Qed.

(** Two sorted listings of the same files, no two of one name, are the
    same listing. *)
Lemma sorted_listing_unique (l1 l2 : list (string * raster)) :
  Sorted name_le l1 → Sorted name_le l2 → l1 ≡ₚ l2 → NoDup l1.*1 →
  l1 = l2.
Proof.
  intros H1%Sorted_StronglySorted H2%Sorted_StronglySorted;
    [|apply name_le_trans..].
  revert l2 H2. induction H1 as [|x l1 Hl1 IH Hx]; intros l2 H2 Hperm Hnd.
  { by apply Permutation_nil_l in Hperm. }
  destruct H2 as [|y l2 Hl2 Hy].
  { by apply Permutation_nil_r in Hperm. }
  rewrite fmap_cons in Hnd. apply NoDup_cons in Hnd as [Hxn Hnd].
  assert (x = y) as <-.
  { destruct (decide (x = y)) as [|Hne]; [done|exfalso].
    assert (x ∈ l2) as Hx2.
    { assert (x ∈ y :: l2) as H
        by (rewrite <- Hperm; apply elem_of_cons; by left).
      apply elem_of_cons in H as [?|?]; done. }
    assert (y ∈ l1) as Hy1.
    { assert (y ∈ x :: l1) as H
        by (rewrite Hperm; apply elem_of_cons; by left).
      apply elem_of_cons in H as [?|?]; [congruence|done]. }
    rewrite Forall_forall in Hx, Hy.
    specialize (Hx y Hy1). specialize (Hy x Hx2). unfold name_le in *.
    apply Is_true_true in Hx, Hy.
    pose proof (String.leb_antisym _ _ Hx Hy) as Heq.
    apply Hxn. simpl. rewrite Heq. apply list_elem_of_fmap. by exists y. }
  f_equal. apply IH; [done| |done]. by apply Permutation_cons_inv in Hperm.
Qed.

Section hyperion_more.

Context {V : Type}.
Variable zero : V.
Variable cast : Z → V.
Variable divide : V → Z → V.

(** X8: with fewer than 224 files matching the pattern the assembly
    raises: the last calibrated band is read from position 223 of the
    sorted listing. *)
Theorem read_hyperion_needs_224_files files :
  length files < 224 →
  read_hyperion_HSI_data zero cast divide files = None.
Proof.
  intros Hn. destruct (sorted_files_spec files) as [_ Hperm].
  assert (length (sorted_files files) < 224) as Hlen
    by (by rewrite (Permutation_length Hperm)).
  unfold read_hyperion_HSI_data.
  destruct (calIdx !! 0) as [i0|]; [cbn [mbind option_bind]|done].
  destruct (sorted_files files !! i0) as [[name0 tmp]|]; [cbn [mbind option_bind]|done].
  destruct (set_band _ _ _ _ _ _) as [d0|]; [cbn [mbind option_bind]|done].
  rewrite (for_each_None_at _ 197); [done| |].
  - apply elem_of_seq. lia.
  - intros s. rewrite calIdx_lookup by lia. simpl.
    rewrite (lookup_ge_None_2 _ 223) by lia. done.
Qed.

(** X9: the cube does not depend on the order in which the directory is
    listed (file names are distinct): the listing is sorted by name
    first. *)
Theorem read_hyperion_listing_order files files' :
  files ≡ₚ files' → NoDup files.*1 →
  sorted_files files = sorted_files files' ∧
  read_hyperion_HSI_data zero cast divide files
  = read_hyperion_HSI_data zero cast divide files'.
Proof.
  intros Hperm Hnd.
  assert (sorted_files files = sorted_files files') as Heq.
  { destruct (sorted_files_spec files) as [Hs Hp].
    destruct (sorted_files_spec files') as [Hs' Hp'].
    apply sorted_listing_unique; [done..| |].
    - by rewrite Hp, Hp'.
    - by rewrite Hp. }
  split; [done|]. unfold read_hyperion_HSI_data. by rewrite Heq.
Qed.

(** X10: only the rasters at the calibrated positions 7..56 and 76..223 of
    the sorted listing are read: two directories that agree there give the
    same cube, whatever their file names and their other files. *)
Theorem read_hyperion_reads_calibrated_bands_only files files' :
  (∀ k, k ∈ calIdx →
     snd <$> sorted_files files !! k = snd <$> sorted_files files' !! k) →
  read_hyperion_HSI_data zero cast divide files
  = read_hyperion_HSI_data zero cast divide files'.
Proof.
  intros Hsame. unfold read_hyperion_HSI_data.
  assert (∀ k i, calIdx !! k = Some i →
            (sorted_files files !! i ≫= λ '(_, img), Some img)
            = (sorted_files files' !! i ≫= λ '(_, img), Some img)) as Himg.
  { intros k i Hk. specialize (Hsame i (list_elem_of_lookup_2 _ _ _ Hk)).
    destruct (sorted_files files !! i) as [[? ?]|],
      (sorted_files files' !! i) as [[? ?]|]; simpl in *; congruence. }
  destruct (calIdx !! 0) as [i0|] eqn:H0; [cbn [mbind option_bind]|done].
  pose proof (Himg _ _ H0) as Hfirst.
  destruct (sorted_files files !! i0) as [[n0 tmp]|],
    (sorted_files files' !! i0) as [[n0' tmp']|]; cbn [mbind option_bind] in *; try done.
  injection Hfirst as <-.
  destruct (set_band _ _ _ _ _ _) as [d0|]; [cbn [mbind option_bind]|done].
  rewrite (for_each_ext_in _
    (λ i data, idx ← calIdx !! i; '(_, img) ← sorted_files files' !! idx;
               set_band cast (nrows tmp) (ncols tmp) data i img)); [done|].
  intros i s _. destruct (calIdx !! i) as [idx|] eqn:Hi; [cbn [mbind option_bind]|done].
  pose proof (Himg _ _ Hi) as Hi'.
  destruct (sorted_files files !! idx) as [[? ?]|],
    (sorted_files files' !! idx) as [[? ?]|]; simpl in *; congruence.
Qed.

End hyperion_more.

Lemma read_hyperion_needs_224_files_witness :
  read_hyperion_HSI_data 0%Z (λ x, x) Z.div (take 223 hyperion_demo_files)
  = None.
Proof.
  apply (read_hyperion_needs_224_files 0%Z (λ x, x) Z.div).
  vm_compute. lia.
Defined.

Lemma read_hyperion_listing_order_witness :
  sorted_files hyperion_demo_files
  = sorted_files (reverse hyperion_demo_files) ∧
  read_hyperion_HSI_data 0%Z (λ x, x) Z.div hyperion_demo_files
  = read_hyperion_HSI_data 0%Z (λ x, x) Z.div (reverse hyperion_demo_files).
Proof.
  apply (read_hyperion_listing_order 0%Z (λ x, x) Z.div).
  - symmetry. apply reverse_Permutation.
  - apply (bool_decide_unpack _). vm_compute. reflexivity.
Defined.

Lemma read_hyperion_reads_calibrated_bands_only_witness :
  read_hyperion_HSI_data 0%Z (λ x, x) Z.div hyperion_demo_files
  = read_hyperion_HSI_data 0%Z (λ x, x) Z.div
      (("EO1_B001_L1T.TIF", [[77%Z]]) :: take 241 hyperion_demo_files).
Proof.
  apply (read_hyperion_reads_calibrated_bands_only 0%Z (λ x, x) Z.div).
  intros k Hk.
  assert (k < 224) as Hlt.
  { unfold calIdx in Hk. apply elem_of_app in Hk as [H|H];
      apply elem_of_seq in H; lia. }
  assert (7 ≤ k) as Hge.
  { unfold calIdx in Hk. apply elem_of_app in Hk as [H|H];
      apply elem_of_seq in H; lia. }
  assert (Forall (λ k, snd <$> sorted_files hyperion_demo_files !! k
            = snd <$> sorted_files
                (("EO1_B001_L1T.TIF", [[77%Z]])
                 :: take 241 hyperion_demo_files) !! k) (seq 7 217)) as Hall.
  { apply (bool_decide_unpack _). vm_compute. reflexivity. }
  rewrite Forall_forall in Hall. apply Hall, elem_of_seq. lia.
Defined.

(** ** More on band resampling *)

(** The rows the mask accepts receive, in order, the values computed from
    the rows it selects. *)
Lemma assign_select_true {A B} (f : A → B) (mask : list bool) :
  ∀ (out : list B) (rows : list A) p,
  length out = length rows → mask !! p = Some true →
  assign_masked mask out (f <$> select_masked mask rows) !! p
  = f <$> rows !! p.
Proof.
  induction mask as [|b mask IH]; intros out rows p Hlen Hp; [done|].
  destruct out as [|o out], rows as [|x rows]; simpl in Hlen; try done.
  - by destruct b.
  - injection Hlen as Hlen. destruct b; simpl.
    + destruct p as [|p]; [done|]. simpl in *. by apply IH.
    + destruct p as [|p]; [done|]. simpl in *. by apply IH.
Qed.

Lemma select_masked_ext {A} (mask : list bool) : ∀ rows rows' : list A,
  length rows = length rows' →
  (∀ p, mask !! p = Some true → rows !! p = rows' !! p) →
  select_masked mask rows = select_masked mask rows'.
Proof.
  induction mask as [|b mask IH]; intros [|x rows] [|x' rows'] Hlen Hsame;
    try done.
  injection Hlen as Hlen. simpl.
  assert (select_masked mask rows = select_masked mask rows') as ->.
  { apply IH; [done|]. intros p Hp. apply (Hsame (S p) Hp). }
  destruct b; [|done]. f_equal. by injection (Hsame 0 eq_refl).
Qed.

Lemma chunks_Forall_elem {A} (P : A → Prop) k n : ∀ l : list A,
  Forall P l → Forall (Forall P) (chunks k n l).
Proof.
  induction n as [|n IH]; intros l Hl; simpl; constructor.
  - by apply Forall_take.
  - apply IH. by apply Forall_drop.
Qed.

Section resample_more.

Context {V : Type}.
Variable zero : V.
Variable add : V → V → V.
Variable mul : V → V → V.
Variable isnan : V → bool.
Variable BandResampler :
  list V → list V → list V → list V → option (list (list V)).

(** X11: a pixel the mask accepts, and every pixel when there is no mask,
    gets the product of the library's matrix (one row per target band)
    and its input spectrum, with every not-a-number replaced by zero. *)
Theorem band_resample_pixel data b1 b2 f1 f2 mask matrix res r c px :
  wf_cube data →
  BandResampler b1 b2 f1 f2 = Some matrix → length matrix = length b2 →
  band_resample_hsi_cube zero add mul isnan BandResampler
    data b1 b2 f1 f2 mask = Some res →
  from_option
    (λ m, rect (height data) (width data) m ∧ get2 m r c = Some true)
    True mask →
  spectrum_at data r c = Some px →
  spectrum_at res r c
  = Some ((λ v, if isnan v then zero else v)
            <$> ((λ row, dot zero add mul row px) <$> matrix)).
Proof.
  intros [Hlen Hpx] Hmat Hrows Hres Hmask Hin.
  unfold band_resample_hsi_cube in Hres. rewrite Hmat in Hres.
  cbn [mbind option_bind] in Hres. case_decide as Hb; [done|].
  unfold spectrum_at in *. case_decide as Hc; [|done].
  set (f := λ px : list V, (λ row, dot zero add mul row px) <$> matrix)
    in *.
  assert (∀ out, length out = height data * width data →
            Forall (λ row : list V, length row = length b2) out →
            out !! (r * width data + c) = Some (f px) →
            reshape3 (nan_to_zero zero isnan out) (height data)
              (width data) (length b2) = Some res →
            pixels res !! (r * width res + c)
            = Some ((λ v, if isnan v then zero else v) <$> f px)
            ∧ width res = width data) as Hfin.
  { intros out Hn Hk Hout Hr. unfold reshape3 in Hr.
    case_decide; [|done]. injection Hr as <-. simpl. split; [|done].
    rewrite <- Hn at 1. rewrite <- (nan_to_zero_length zero isnan).
    rewrite chunks_concat by (by apply nan_to_zero_Forall).
    unfold nan_to_zero. by rewrite list_lookup_fmap, Hout. }
  destruct mask as [m|]; simpl in Hmask.
  - destruct Hmask as [Hm Hcell]. case_decide as Hml; [|done].
    destruct (matmul _ _ _ _ _ _) as [vals|] eqn:Hvals; [|done].
    cbn [mbind option_bind] in Hres.
    unfold matmul in Hvals. case_decide; [|done]. injection Hvals as <-.
    rewrite mapM_broadcast_axis_exact in Hres.
    2:{ apply Forall_fmap, Forall_forall. intros p _. simpl.
        by rewrite length_fmap. }
    cbn [mbind option_bind] in Hres.
    assert (Forall (λ row : list V, length row = length b2)
              (f <$> select_masked (concat m) (pixels data))) as Hvals.
    { apply Forall_fmap, Forall_forall. intros p _. simpl. unfold f.
      by rewrite length_fmap. }
    eapply Hfin in Hres as [-> Hw].
    + rewrite Hw. by rewrite decide_True.
    + by rewrite assign_masked_length, length_replicate.
    + apply assign_masked_Forall; [|done].
      apply Forall_replicate. by rewrite length_replicate.
    + rewrite (assign_select_true f); [by rewrite Hin| |].
      * by rewrite length_replicate.
      * by rewrite (lookup_concat_rect _ _ _ _ _ Hm Hc).
  - destruct (matmul _ _ _ _ _ _) as [out|] eqn:Hout; [|done].
    cbn [mbind option_bind] in Hres.
    unfold matmul in Hout. case_decide; [|done]. injection Hout as <-.
    eapply Hfin in Hres as [-> Hw].
    + rewrite Hw. by rewrite decide_True.
    + by rewrite length_fmap.
    + apply Forall_fmap, Forall_forall. intros p _. simpl.
      by rewrite length_fmap.
    + by rewrite list_lookup_fmap, Hin.
Qed.

(** X12: the cube the resampler returns holds no not-a-number, as long as
    the zero of the element type is not one. *)
Theorem band_resample_no_nan data b1 b2 f1 f2 mask res :
  isnan zero = false →
  band_resample_hsi_cube zero add mul isnan BandResampler
    data b1 b2 f1 f2 mask = Some res →
  Forall (Forall (λ v, isnan v = false)) (pixels res).
Proof.
  intros Hz Hres.
  destruct (band_resample_Some _ _ _ _ _ _ _ _ _ _ _ _ Hres)
    as (out & _ & -> & _). simpl.
  apply chunks_Forall_elem, Forall_concat. unfold nan_to_zero.
  apply Forall_fmap, Forall_forall. intros row _. simpl.
  apply Forall_fmap, Forall_forall. intros v _. simpl.
  by destruct (isnan v) eqn:Hv.
Qed.

(** X13: a masked call never reads a pixel the mask rejects: two cubes of
    one shape that agree on the pixels the mask accepts give the same
    result. *)
Theorem band_resample_ignores_masked_out data data' b1 b2 f1 f2 mask :
  height data = height data' → width data = width data' →
  bands data = bands data' →
  length (pixels data) = length (pixels data') →
  (∀ p, concat mask !! p = Some true →
        pixels data !! p = pixels data' !! p) →
  band_resample_hsi_cube zero add mul isnan BandResampler
    data b1 b2 f1 f2 (Some mask)
  = band_resample_hsi_cube zero add mul isnan BandResampler
      data' b1 b2 f1 f2 (Some mask).
Proof.
  intros Hh Hw Hb Hn Hsame. unfold band_resample_hsi_cube.
  rewrite <- Hh, <- Hw, <- Hb, <- Hn.
  by rewrite (select_masked_ext (concat mask) (pixels data) (pixels data')).
Qed.

End resample_more.

Lemma band_resample_pixel_witness :
  spectrum_at (Cube 2 2 2 [[3; 1]; [0; 0]; [9; 7]; [12; 10]]%Z) 1 0
  = Some ((λ v : Z, if (λ _ : Z, false) v then 0%Z else v)
            <$> ((λ row, dot 0%Z Z.add Z.mul row [7; 8; 9]%Z)
                   <$> [[0; 0; 1]; [1; 0; 0]]%Z)).
Proof.
  apply (band_resample_pixel 0%Z Z.add Z.mul (λ _, false)
           nearest_band_matrix demo_cube [10; 20; 30]%Z [30; 10]%Z [] []
           (Some [[true; false]; [true; true]])).
  - split; [reflexivity|]. repeat constructor.
  - reflexivity.
  - reflexivity.
  - vm_compute. reflexivity.
  - split; [|reflexivity]. split; [reflexivity|]. repeat constructor.
  - reflexivity.
Defined.

Lemma band_resample_no_nan_witness :
  Forall (Forall (λ v : Z, (λ _ : Z, false) v = false))
    [[3; 1]; [0; 0]; [9; 7]; [12; 10]]%Z.
Proof.
  apply (band_resample_no_nan 0%Z Z.add Z.mul (λ _, false)
           nearest_band_matrix demo_cube [10; 20; 30]%Z [30; 10]%Z [] []
           (Some [[true; false]; [true; true]])
           (Cube 2 2 2 [[3; 1]; [0; 0]; [9; 7]; [12; 10]]%Z)).
  - reflexivity.
  - vm_compute. reflexivity.
Defined.

Lemma band_resample_ignores_masked_out_witness :
  band_resample_hsi_cube 0%Z Z.add Z.mul (λ _, false) nearest_band_matrix
    demo_cube [10; 20; 30]%Z [30; 10]%Z [] []
    (Some [[true; false]; [true; true]])
  = band_resample_hsi_cube 0%Z Z.add Z.mul (λ _, false) nearest_band_matrix
      (Cube 2 2 3 [[1; 2; 3]; [40; 50; 60]; [7; 8; 9]; [10; 11; 12]]%Z)
      [10; 20; 30]%Z [30; 10]%Z [] []
      (Some [[true; false]; [true; true]]).
Proof.
  apply (band_resample_ignores_masked_out 0%Z Z.add Z.mul (λ _, false)
           nearest_band_matrix demo_cube
           (Cube 2 2 3 [[1; 2; 3]; [40; 50; 60]; [7; 8; 9]; [10; 11; 12]]%Z));
    try reflexivity.
  intros [|[|[|[|p]]]] Hp; try reflexivity; discriminate Hp.
Defined.

(** ** More on the per-class split *)

Lemma length_select_masked_labels (c : Z) (y : list Z) :
  length (select_masked ((λ l, bool_decide (l = c)) <$> y) y)
  = count_label c y.
Proof. by rewrite select_masked_labels. Qed.

(** *** No sample is used twice *)

Lemma lookups_of_range {A} (l : list A) :
  (l !!.) <$> seq 0 (length l) = Some <$> l.
Proof.
  apply list_eq. intros i. rewrite !list_lookup_fmap.
  destruct (decide (i < length l)) as [Hi|Hi].
  - rewrite lookup_seq_lt by done. simpl.
    destruct (lookup_lt_is_Some_2 l i Hi) as [x Hx]. by rewrite Hx.
  - rewrite lookup_seq_ge by lia. by rewrite lookup_ge_None_2 by lia.
Qed.

(** Reading a list at distinct positions gives a part of the list: no
    element is taken more often than it occurs. *)
Lemma lookups_submseteq {A} (l : list A) (idx : list nat) (out : list A) :
  NoDup idx → Forall2 (λ i x, l !! i = Some x) idx out → out ⊆+ l.
Proof.
  intros Hnd Hout.
  destruct out as [|d out']; [apply submseteq_nil_l|].
  set (out := d :: out') in *.
  assert ((l !!.) <$> idx = Some <$> out) as Heq.
  { clearbody out. clear d out'.
    induction Hout as [|i x idx out Hx _ IH]; [done|].
    rewrite !fmap_cons, Hx. f_equal. apply IH. by apply NoDup_cons in Hnd as [_ ?]. }
  assert (idx ⊆+ seq 0 (length l)) as Hsub.
  { apply NoDup_submseteq; [done|]. intros i (k & Hk)%list_elem_of_lookup.
    destruct (Forall2_lookup_l _ _ _ _ _ Hout Hk) as (x & _ & Hx).
    apply lookup_lt_Some in Hx. apply elem_of_seq. lia. }
  apply (fmap_submseteq (l !!.)) in Hsub.
  rewrite Heq, lookups_of_range in Hsub.
  apply (fmap_submseteq (default d)) in Hsub.
  assert (∀ k : list A, default d <$> (Some <$> k) = k) as Hid.
  { intros k. rewrite <- list_fmap_compose.
    induction k as [|x k IH]; [done|]. by rewrite fmap_cons, IH. }
  by rewrite !Hid in Hsub.
Qed.

Lemma lookups_zip {A B} (X : list A) (y : list B) idx Xs ys :
  Forall2 (λ i x, X !! i = Some x) idx Xs →
  Forall2 (λ i l, y !! i = Some l) idx ys →
  Forall2 (λ i p, zip X y !! i = Some p) idx (zip Xs ys).
Proof.
  intros HX. revert ys.
  induction HX as [|i x idx Xs Hx _ IH]; intros ys Hy.
  - by apply Forall2_nil_inv_l in Hy as ->.
  - apply Forall2_cons_inv_l in Hy as (l & ys' & Hl & Hy & ->).
    simpl. constructor; [|by apply IH].
    by rewrite lookup_zip_with, Hx, Hl.
Qed.

(** One call of [train_test_split]: the two parts are read at distinct
    positions of the samples. *)
Lemma train_test_split_submseteq {A B} (X : list A) (y : list B) te tr rnd
    Xa Xb ya yb :
  train_test_split X y te tr rnd = Some (Xa, Xb, ya, yb) →
  zip Xa ya ++ zip Xb yb ⊆+ zip X y.
Proof.
  unfold train_test_split. case_decide as Hlen; [|done]. intros H.
  apply bind_Some in H as ([n_train n_test] & Hv & H).
  apply bind_Some in H as (Xtr & HXtr & H).
  apply bind_Some in H as (Xte & HXte & H).
  apply bind_Some in H as (ytr & Hytr & H).
  apply bind_Some in H as (yte & Hyte & [= <- <- <- <-]).
  apply mapM_Some_1 in HXtr, HXte, Hytr, Hyte.
  set (p := sample_pool (seq 0 (length X)) (length X) rnd) in *.
  apply (lookups_submseteq _
           (take n_train (drop n_test p) ++ take n_test p)).
  - destruct (sample_pool_spec (length X) (seq 0 (length X)) rnd
                (NoDup_seq _ _)) as (_ & Hnd & _);
      [by rewrite length_seq|].
    rewrite (Permutation_app_comm _ _), take_take_drop.
    eapply sublist_NoDup; [exact Hnd|]. apply sublist_take.
  - apply Forall2_app; by apply lookups_zip.
Qed.

(** [X[y == c]] next to [y[y == c]]: the pairs of the class. *)
Lemma select_masked_zip_filter {A} (c : Z) : ∀ (X : list A) (y : list Z),
  length X = length y →
  zip (select_masked ((λ l, bool_decide (l = c)) <$> y) X)
      (select_masked ((λ l, bool_decide (l = c)) <$> y) y)
  = filter (λ p, p.2 = c) (zip X y).
Proof.
  intros X y. revert X. induction y as [|l y IH]; intros [|x X] Hlen;
    try done.
  injection Hlen as Hlen. rewrite fmap_cons. cbn [select_masked zip zip_with].
  rewrite filter_cons. simpl. case_bool_decide.
  - rewrite decide_True by done. simpl. f_equal. by apply IH.
  - rewrite decide_False by done. by apply IH.
Qed.

Lemma filter_class_range {A} (L : list (A * Z)) (k : nat) :
  filter (λ p, 0 ≤ p.2 < Z.of_nat (k + 1))%Z L
  ≡ₚ filter (λ p, 0 ≤ p.2 < Z.of_nat k)%Z L
     ++ filter (λ p, p.2 = Z.of_nat k) L.
Proof.
  induction L as [|[x l] L IH]; [done|]. rewrite !filter_cons. simpl.
  destruct (decide (l = Z.of_nat k)) as [->|Hne].
  - rewrite decide_True, decide_False by lia.
    rewrite IH. apply Permutation_middle.
  - destruct (decide (0 ≤ l < Z.of_nat k)%Z).
    + rewrite decide_True by lia. simpl. by rewrite IH.
    + rewrite decide_False by lia. done.
Qed.

(** X14: no input sample is returned twice.  The returned (sample, label)
    pairs, train and test together, are a sub-multiset of the input pairs,
    so no position of the input lands in both parts or twice in one; when a
    size is left out they are all the input pairs in another order. *)
Theorem train_test_split_per_class_disjoint {A} (X : list A) y train_size
    test_size rnd X_train X_test y_train y_test :
  train_test_split_per_class X y train_size test_size rnd
    = Some (X_train, X_test, y_train, y_test) →
  length X_train = length y_train ∧ length X_test = length y_test ∧
  zip X_train y_train ++ zip X_test y_test ⊆+ zip X y ∧
  (train_size = None ∨ test_size = None →
     zip X_train y_train ++ zip X_test y_test ≡ₚ zip X y).
Proof.
  unfold train_test_split_per_class. intros H.
  apply bind_Some in H as (counts & Hcounts & Hloop).
  destruct (bincount_Some _ _ _ Hcounts) as (Hnn & _ & Hlt).
  set (L := zip X y).
  set (Inv := λ (pre : list nat) (s : list A * list A * list Z * list Z),
    let '(Xtr, Xte, ytr, yte) := s in
    length Xtr = length ytr ∧ length Xte = length yte ∧
    zip Xtr ytr ++ zip Xte yte
      ⊆+ filter (λ p, 0 ≤ p.2 < Z.of_nat (length pre))%Z L ∧
    (train_size = None ∨ test_size = None →
       filter (λ p, 0 ≤ p.2 < Z.of_nat (length pre))%Z L
         ⊆+ zip Xtr ytr ++ zip Xte yte)).
  assert (Inv (seq 0 (length counts)) (X_train, X_test, y_train, y_test))
    as (Hl1 & Hl2 & Hsub & Hsup).
  { apply (for_each_inv Inv _ _ _ _ Hloop).
    - unfold Inv. split_and!; try done.
      + apply submseteq_nil_l.
      + intros _. simpl. apply Permutation_submseteq.
        induction L as [|[x l] L IH]; [done|].
        rewrite filter_cons, decide_False by (simpl; lia). done.
    - intros pre i [[[Xtr Xte] ytr] yte] [[[Xtr' Xte'] ytr'] yte'] Hpre
        (Hl1 & Hl2 & Hsub & Hsup) Hbody.
      apply prefix_seq_snoc in Hpre as [-> Hi].
      case_decide as Hlen; [|done].
      apply bind_Some in Hbody
        as ([[[Xa Xb] ya] yb] & Hsplit & [= <- <- <- <-]).
      pose proof (train_test_split_submseteq _ _ _ _ _ _ _ _ _ Hsplit)
        as Hclass.
      assert (length (filter (λ p, p.2 = Z.of_nat (length pre)) L)
              = count_label (Z.of_nat (length pre)) y) as Hcnt.
      { unfold L. rewrite <- select_masked_zip_filter by done.
        rewrite length_zip_with_r_eq, length_select_masked_labels; [done|].
        unfold train_test_split in Hsplit. by case_decide. }
      rewrite select_masked_zip_filter in Hclass by done. fold L in Hclass.
      pose proof (train_test_split_Some _ _ _ _ _ _ _ _ _ Hsplit)
        as (Hla & Hlb & _ & Hfull & _).
      rewrite length_select_masked_labels in Hfull.
      set (k := length pre) in *.
      unfold Inv. rewrite !length_app.
      split; [lia|]. split; [lia|].
      rewrite !zip_with_app by done.
      assert ((zip Xtr ytr ++ zip Xa ya) ++ zip Xte yte ++ zip Xb yb
              ≡ₚ (zip Xtr ytr ++ zip Xte yte) ++ zip Xa ya ++ zip Xb yb)
        as Hshuffle.
      { rewrite <- !app_assoc. f_equiv. apply Permutation_app_swap_app. }
      change (length [k]) with 1.
      rewrite Hshuffle, filter_class_range. split.
      + by apply submseteq_app.
      + intros Hcompl. apply submseteq_app; [by apply Hsup|].
        apply Permutation_submseteq. symmetry.
        apply submseteq_length_Permutation; [done|].
        rewrite length_app, !length_zip_with_l_eq by lia.
        subst k. rewrite Hcnt. specialize (Hfull ltac:(tauto)). lia. }
  split; [done|]. split; [done|].
  rewrite length_seq in Hsub, Hsup. split.
  - etrans; [exact Hsub|]. apply sublist_submseteq, sublist_filter.
  - intros Hcompl. apply (anti_symm submseteq).
    + etrans; [exact Hsub|]. apply sublist_submseteq, sublist_filter.
    + etrans; [|by apply Hsup]. apply Permutation_submseteq.
      rewrite filter_all; [done|]. apply Forall_forall.
      intros [x l] (j & Hj)%list_elem_of_lookup. simpl.
      unfold L in Hj. rewrite lookup_zip_with in Hj.
      destruct (X !! j); [simpl in Hj|done].
      destruct (y !! j) as [l'|] eqn:Hy; [simpl in Hj|done].
      injection Hj as <- <-.
      apply list_elem_of_lookup_2 in Hy. specialize (Hlt _ Hy).
      rewrite Forall_forall in Hnn. specialize (Hnn _ Hy). simpl in Hnn.
      lia.
Qed.

Lemma train_test_split_per_class_disjoint_witness :
  let y := [0; 1; 0; 1; 1; 0; 0; 1; 0; 0]%Z in
  length [105; 109; 108; 102; 107; 104; 101]
  = length [0; 0; 0; 0; 1; 1; 1]%Z ∧
  length [100; 106; 103] = length [0; 0; 1]%Z ∧
  zip [105; 109; 108; 102; 107; 104; 101] [0; 0; 0; 0; 1; 1; 1]%Z
    ++ zip [100; 106; 103] [0; 0; 1]%Z ⊆+ zip (seq 100 10) y ∧
  (@None split_size = None ∨ @None split_size = None →
     zip [105; 109; 108; 102; 107; 104; 101] [0; 0; 0; 0; 1; 1; 1]%Z
       ++ zip [100; 106; 103] [0; 0; 1]%Z ≡ₚ zip (seq 100 10) y).
Proof.
  intros y.
  apply (train_test_split_per_class_disjoint (seq 100 10) y None None
           (λ i k, 3 * k + i)).
  vm_compute. reflexivity.
Defined.

(** ** More on [set_gpu] *)


(** *** The sizes of the parts of a class *)





(** *** The order of the labels *)

Lemma amax_elem (x : Z) (l : list Z) : foldr Z.max x l ∈ x :: l.
Proof.
  induction l as [|y l IH]; simpl; [apply elem_of_cons; by left|].
  destruct (Z.max_spec y (foldr Z.max x l)) as [[_ ->]|[_ ->]].
  - apply elem_of_cons in IH as [->|IH]; rewrite !elem_of_cons; auto.
  - rewrite !elem_of_cons. auto.
Qed.

Lemma amax_Permutation (l l' : list Z) : l ≡ₚ l' → amax l = amax l'.
Proof.
  intros Hperm. destruct l as [|x l], l' as [|x' l'].
  - done.
  - by apply Permutation_nil_l in Hperm.
  - by apply Permutation_nil_r in Hperm.
  - simpl. f_equal. apply Z.le_antisymm.
    + apply amax_upper_bound. rewrite <- Hperm. apply amax_elem.
    + apply amax_upper_bound. rewrite Hperm. apply amax_elem.
Qed.

Lemma count_label_Permutation c (l l' : list Z) :
  l ≡ₚ l' → count_label c l = count_label c l'.
Proof. intros Hperm. unfold count_label. by rewrite Hperm. Qed.

Lemma bincount_Permutation (l l' : list Z) n :
  l ≡ₚ l' → bincount l n = bincount l' n.
Proof.
  intros Hperm. unfold bincount. rewrite (amax_Permutation _ _ Hperm).
  assert (forallb (λ x, 0 <=? x)%Z l = forallb (λ x, 0 <=? x)%Z l') as ->.
  { apply eq_true_iff_eq. rewrite !forallb_forall.
    split; intros H x Hx%list_elem_of_In; apply H, list_elem_of_In;
      [by rewrite Hperm|by rewrite <- Hperm]. }
  destruct (_ && _); [|done]. f_equal. apply list_fmap_ext.
  intros _ c _. simpl. by rewrite (count_label_Permutation _ _ _ Hperm).
Qed.

(** X17: the weights depend on how often each label occurs, not on the
    order of the labels. *)
Theorem class_weights_order_of_labels labels labels' mu numClasses :
  labels ≡ₚ labels' →
  class_weights labels mu numClasses = class_weights labels' mu numClasses.
Proof.
  intros Hperm. unfold class_weights.
  rewrite (amax_Permutation _ _ Hperm).
  destruct (match numClasses with Some n => Some n | None => _ end)
    as [n|]; [|done]. cbn [mbind option_bind].
  by rewrite (bincount_Permutation _ _ _ Hperm).
Qed.

Lemma class_weights_order_of_labels_witness :
  class_weights [0; 0; 0; 1]%Z (Float.Fin 1) (Some 2%Z)
  = class_weights [1; 0; 0; 0]%Z (Float.Fin 1) (Some 2%Z).
Proof.
  apply (class_weights_order_of_labels [0; 0; 0; 1]%Z [1; 0; 0; 0]%Z).
  symmetry. apply (Permutation_cons_append [0; 0; 0]%Z 1%Z).
Defined.

(** ** When the assembly and the split return *)

Section hyperion_returns.

Context {V : Type}.
Variable zero : V.
Variable cast : Z → V.
Variable divide : V → Z → V.

(** X18: with at least 224 files whose rasters all have [R > 0] rows and
    [C] columns the assembly returns, and the cube has [R] rows, [C]
    columns and 198 bands in every pixel. *)
Theorem read_hyperion_returns_cube files R C :
  224 ≤ length files →
  Forall (λ f : string * raster, rect R C f.2) files →
  0 < R →
  ∃ data,
    read_hyperion_HSI_data zero cast divide files = Some data ∧
    rect R C data ∧
    Forall (Forall (λ px, length px = 198)) data.
Proof.
  intros Hn Hshape HR.
  destruct (read_hyperion_returns zero cast divide files R C Hn Hshape HR)
    as [data H].
  exists data. split; [done|].
  destruct (sorted_files_spec files) as [_ Hperm].
  assert (Forall (λ f : string * raster, rect R C f.2) (sorted_files files))
    as Hshape' by (by rewrite Hperm).
  unfold read_hyperion_HSI_data in H.
  apply bind_Some in H as (i0 & [= <-] & H).
  apply bind_Some in H as ([name0 tmp] & Hfirst & H).
  apply bind_Some in H as (d0 & H0 & H).
  apply bind_Some in H as (d1 & Hloop & [= <-]).
  rewrite Forall_lookup in Hshape'.
  pose proof (Hshape' _ _ Hfirst) as Htmp. simpl in Htmp.
  rewrite (rect_nrows _ _ _ Htmp), (rect_ncols _ _ _ Htmp) in * by done.
  edestruct (stacked_bands zero cast divide) as [Hrect Hcells];
    [exact Hfirst|exact H0|exact Hloop|].
  assert (rect R C (scale_bands divide 50 198 80
                      (scale_bands divide 0 50 40 d1))) as Hout.
  { unfold scale_bands. by do 2 apply rect_fmap. }
  split; [done|].
  apply Forall_forall. intros row (r & Hr)%list_elem_of_lookup.
  apply Forall_forall. intros px (c & Hc)%list_elem_of_lookup.
  assert (get2 (scale_bands divide 50 198 80 (scale_bands divide 0 50 40 d1))
            r c = Some px) as Hpx.
  { unfold get2. by rewrite Hr. }
  rewrite !scale_bands_get2 in Hpx.
  apply fmap_Some in Hpx as (px1 & (px0 & Hpx0 & ->)%fmap_Some & ->).
  destruct (Hcells _ _ _ Hpx0) as [Hlen _].
  rewrite !scale_length by (rewrite ?scale_length; lia). done.
Qed.

End hyperion_returns.

Lemma read_hyperion_returns_cube_witness :
  ∃ data,
    read_hyperion_HSI_data 0%Z (λ x, x) Z.div hyperion_demo_files
      = Some data ∧
    rect 1 1 data ∧ Forall (Forall (λ px, length px = 198)) data.
Proof.
  apply (read_hyperion_returns_cube 0%Z (λ x, x) Z.div hyperion_demo_files
           1 1).
  - vm_compute. lia.
  - unfold hyperion_demo_files. apply Forall_fmap, Forall_forall.
    intros n _. simpl. split; [reflexivity|]. repeat constructor.
  - lia.
Defined.

Lemma Qceiling_quarter (z : Z) :
  Qceiling ((1 # 4) * inject_Z z) = (- ((- z) / 4))%Z.
Proof.
  unfold Qceiling, Qfloor, Qopp, Qmult, inject_Z. simpl.
  destruct z; simpl; reflexivity.
Qed.

(** With the default sizes two samples are enough for both parts. *)
Lemma validate_shuffle_split_default_Some (n : nat) :
  2 ≤ n → is_Some (validate_shuffle_split n None None).
Proof.
  intros Hn. unfold validate_shuffle_split.
  cbn [size_ok fractions_ok andb negb Qle_bool from_option part_size].
  assert (negb (Qle_bool (1 # 4) 0) && negb (Qle_bool 1 (1 # 4)) && true
          && true = true) as -> by reflexivity.
  rewrite Qceiling_quarter.
  set (q := (- (- Z.of_nat n / 4))%Z).
  assert (1 ≤ q < Z.of_nat n)%Z as Hq.
  { unfold q. pose proof (Z.div_mod (- Z.of_nat n) 4 ltac:(lia)).
    pose proof (Z.mod_pos_bound (- Z.of_nat n) 4 ltac:(lia)). lia. }
  assert ((Z.of_nat n <? Z.of_nat n - q + q)%Z = false) as ->
    by (apply Z.ltb_ge; lia).
  assert ((Z.of_nat n - q =? 0)%Z = false) as -> by (apply Z.eqb_neq; lia).
  cbn [orb]. by eexists.
Qed.

Lemma mapM_lookup_is_Some {A} (l : list A) (idx : list nat) :
  Forall (λ i, i < length l) idx → is_Some (mapM (l !!.) idx).
Proof.
  intros H. induction H as [|i idx Hi _ [out IH]]; [by eexists|].
  destruct (lookup_lt_is_Some_2 l i Hi) as [x Hx].
  exists (x :: out). apply mapM_Some. constructor; [done|].
  by apply mapM_Some.
Qed.

Lemma train_test_split_default_returns {A B} (X : list A) (y : list B) rnd :
  length X = length y → 2 ≤ length y →
  is_Some (train_test_split X y None None rnd).
Proof.
  intros Hlen Hn. unfold train_test_split. rewrite decide_True by done.
  destruct (validate_shuffle_split_default_Some (length X) ltac:(lia))
    as [[n_train n_test] Hv]. rewrite Hv. cbn [mbind option_bind].
  set (p := sample_pool (seq 0 (length X)) (length X) rnd).
  assert (Forall (λ i, i < length X) p) as Hp.
  { destruct (sample_pool_spec (length X) (seq 0 (length X)) rnd
                (NoDup_seq _ _)) as (_ & _ & Hsub);
      [by rewrite length_seq|].
    apply Forall_forall. intros i Hi%Hsub%elem_of_seq. lia. }
  assert (Forall (λ i, i < length X) (take n_train (drop n_test p))) as Htr
    by (by apply Forall_take, Forall_drop).
  assert (Forall (λ i, i < length X) (take n_test p)) as Hte
    by (by apply Forall_take).
  destruct (mapM_lookup_is_Some X _ Htr) as [Xa ->].
  destruct (mapM_lookup_is_Some X _ Hte) as [Xb ->].
  rewrite Hlen in Htr, Hte.
  destruct (mapM_lookup_is_Some y _ Htr) as [ya ->].
  destruct (mapM_lookup_is_Some y _ Hte) as [yb ->].
  by eexists.
Qed.

Lemma select_masked_length_eq {A B} (mask : list bool) :
  ∀ (X : list A) (y : list B), length X = length y →
  length (select_masked mask X) = length (select_masked mask y).
Proof.
  induction mask as [|b mask IH]; intros [|x X] [|l y] Hlen; try done.
  injection Hlen as Hlen. simpl. destruct b; simpl; auto.
Qed.

(** X19: with the default sizes, as many samples as labels, labels that
    are not negative and at least two samples in every class from 0 to the
    largest label, the split returns; on an empty label vector it returns
    four empty sequences. *)
Theorem train_test_split_per_class_returns {A} (X : list A) y rnd :
  length X = length y →
  Forall (λ l, 0 ≤ l)%Z y →
  (∀ (c : nat) l, l ∈ y → (Z.of_nat c ≤ l)%Z →
     2 ≤ count_label (Z.of_nat c) y) →
  is_Some (train_test_split_per_class X y None None rnd) ∧
  (y = [] →
     train_test_split_per_class X y None None rnd = Some ([], [], [], [])).
Proof.
  intros Hlen Hnn Hcount. split; [|by intros ->].
  unfold train_test_split_per_class.
  destruct (bincount_is_Some y 0 Hnn ltac:(lia)) as [counts Hb].
  rewrite Hb. cbn [mbind option_bind].
  pose proof (bincount_length _ _ _ Hb) as Hnum.
  destruct (for_each_is_Some (λ _ _, True)
    (λ i '(X_train_arr, X_test_arr, y_train_arr, y_test_arr),
       if decide (length y = length X) then
         '(X_train, X_test, y_train, y_test) ←
            train_test_split
              (select_masked ((λ l, bool_decide (l = Z.of_nat i)) <$> y) X)
              (select_masked ((λ l, bool_decide (l = Z.of_nat i)) <$> y) y)
              None None (rnd i);
         Some (X_train_arr ++ X_train, X_test_arr ++ X_test,
               y_train_arr ++ y_train, y_test_arr ++ y_test)
       else None)
    (seq 0 (length counts)) ([], [], [], []) I) as (s & Hs & _);
    [|by exists s].
  intros pre i [[[Xtr Xte] ytr] yte] Hpre _.
  apply prefix_seq_snoc in Hpre as [-> Hi].
  rewrite decide_True by done.
  assert (∃ l, l ∈ y ∧ (Z.of_nat (length pre) ≤ l)%Z) as (l & Hl & Hle).
  { destruct y as [|l0 y0] eqn:Hy; [simpl in Hnum; lia|]. rewrite <- Hy in *.
    assert (amax y = Some (foldr Z.max l0 y0)) as Hmax by (by rewrite Hy).
    rewrite Hmax in Hnum. simpl in Hnum.
    exists (foldr Z.max l0 y0). split; [|lia].
    rewrite Hy. apply amax_elem. }
  destruct (train_test_split_default_returns
    (select_masked ((λ l, bool_decide (l = Z.of_nat (length pre))) <$> y) X)
    (select_masked ((λ l, bool_decide (l = Z.of_nat (length pre))) <$> y) y)
    (rnd (length pre))) as [[[[Xa Xb] ya] yb] Hsplit].
  - by apply select_masked_length_eq.
  - rewrite length_select_masked_labels. by eapply Hcount.
  - rewrite Hsplit. by eexists.
Qed.

Lemma train_test_split_per_class_returns_witness :
  is_Some (train_test_split_per_class (seq 100 10)
             [0; 1; 0; 1; 1; 0; 0; 1; 0; 0]%Z None None (λ i k, 3 * k + i)) ∧
  ([0; 1; 0; 1; 1; 0; 0; 1; 0; 0]%Z = [] →
     train_test_split_per_class (seq 100 10)
       [0; 1; 0; 1; 1; 0; 0; 1; 0; 0]%Z None None (λ i k, 3 * k + i)
     = Some ([], [], [], [])).
Proof.
  apply (train_test_split_per_class_returns (seq 100 10)
           [0; 1; 0; 1; 1; 0; 0; 1; 0; 0]%Z (λ i k, 3 * k + i)).
  - reflexivity.
  - apply (bool_decide_unpack _). vm_compute. reflexivity.
  - intros c l Hl Hc.
    assert (l ≤ 1)%Z as Hl1.
    { assert (Forall (λ l, l ≤ 1)%Z [0; 1; 0; 1; 1; 0; 0; 1; 0; 0]%Z) as H
        by (apply (bool_decide_unpack _); vm_compute; reflexivity).
      rewrite Forall_forall in H. by apply H. }
    destruct c as [|[|c]]; [vm_compute; lia..|lia].
Defined.
